(** * The Gaussian-process trainer of unlockGNN

    A shallow embedding of [src/sse_gnn/gp/gp_trainer.py]:
    [convert_index_points], the class [GPTrainer] (construction, [get_model],
    [predict], the generator [train_model], [optimize_cycle]) and the class
    [GPMetrics] ([sharpness], [variation], [residuals], [pis],
    [calibration_err], [mae], [nll]).

    Conventions.
    - [np.float64] is an interface, [Float64], with two instances: [float],
      the kernel's IEEE 754 binary64 numbers, on which every definition runs;
      and [xreal], exact reals extended with the IEEE special values, on which
      the algebraic laws are proved.  Rounding is therefore absent from the
      laws, while NaN and the infinities are present in both.
    - The numerical kernels of TensorFlow Probability (the posterior mean,
      standard deviation and log-probability of the regression model, one Adam
      step, the normal quantile) are parameters of the development.  They are
      total functions: what each call returns.  In the source such a call can
      raise (a kernel matrix that is not positive definite, observations that
      do not match the index points), which ends the run at that call; no
      statement below says of a run that these calls raise nothing in it.
    - Python exceptions are values of [exn]; a fallible computation returns a
      [result].  The generator [train_model] is a resumable state machine:
      creating it runs nothing, each [next] runs to the following [yield]. *)

From Stdlib Require Import Floats.
From Stdlib Require Import ZArith List Bool Reals Lra Lia.
From stdpp Require Import gmap strings list.

Set Default Proof Using "Type".
Set Warnings "-clear-no-such-hyp".

(* ================================================================== *)
(** * Python values: exceptions, results, truthiness *)

Inductive exn : Type :=
| IndexError (msg : string)
| TypeError (msg : string)
| ValueError (msg : string)
| KeyError (key : string)
| AttributeError (msg : string).

Inductive result (A : Type) : Type :=
| Ok (a : A)
| Raise (e : exn).
Arguments Ok {A} a.
Arguments Raise {A} e.

#[export] Instance result_ret : MRet result := fun A a => Ok a.
#[export] Instance result_bind : MBind result := fun A B k r =>
  match r with
  | Ok a => k a
  | Raise e => Raise e
  end.

(** [bool(x)] for the optional arguments of the module: [None], [0] and the
    empty string are false. *)
Definition truthy_int (p : option Z) : bool :=
  match p with
  | Some p => negb (p =? 0)%Z
  | None => false
  end.

Definition truthy_str (s : option string) : bool :=
  match s with
  | Some s => negb (String.eqb s EmptyString)
  | None => false
  end.

(* ================================================================== *)
(** * The interface of [np.float64] *)

Class Float64 (F : Type) : Type := {
  f_of_Z : Z → F;              (* float(n) for a Python int *)
  f_nan : F;                   (* np.nan *)
  f_inf : F;                   (* np.inf *)
  f_neg : F → F;
  f_add : F → F → F;
  f_sub : F → F → F;
  f_mul : F → F → F;
  f_div : F → F → F;
  f_sqrt : F → F;
  f_abs : F → F;
  f_eqb : F → F → bool;        (* x == y, false on NaN *)
  f_ltb : F → F → bool;        (* x < y, false on NaN *)
  f_leb : F → F → bool;        (* x <= y, false on NaN *)
  f_isnan : F → bool;          (* np.isnan *)
}.

(** ** IEEE 754 binary64 *)

Definition float_of_Z (z : Z) : float :=
  SF2Prim (binary_normalize prec emax z 0%Z false).

#[export] Instance float_Float64 : Float64 float := {|
  f_of_Z := float_of_Z;
  f_nan := nan;
  f_inf := infinity;
  f_neg := PrimFloat.opp;
  f_add := PrimFloat.add;
  f_sub := PrimFloat.sub;
  f_mul := PrimFloat.mul;
  f_div := PrimFloat.div;
  f_sqrt := PrimFloat.sqrt;
  f_abs := PrimFloat.abs;
  f_eqb := PrimFloat.eqb;
  f_ltb := PrimFloat.ltb;
  f_leb := PrimFloat.leb;
  f_isnan := PrimFloat.is_nan;
|}.

(** ** Exact arithmetic with the IEEE special values

    One zero only: a zero denominator is read as [+0.0]. *)

Inductive xreal : Type :=
| XNaN
| XInf (neg : bool)
| XFin (r : R).

Definition Rneg_b (r : R) : bool := if Rlt_dec r 0 then true else false.
Definition Rzero_b (r : R) : bool := if Req_dec_T r 0 then true else false.

Definition x_neg (x : xreal) : xreal :=
  match x with
  | XNaN => XNaN
  | XInf s => XInf (negb s)
  | XFin r => XFin (- r)
  end.

Definition x_add (x y : xreal) : xreal :=
  match x, y with
  | XNaN, _ | _, XNaN => XNaN
  | XInf s, XInf s' => if Bool.eqb s s' then XInf s else XNaN
  | XInf s, XFin _ | XFin _, XInf s => XInf s
  | XFin a, XFin b => XFin (a + b)
  end.

Definition x_sub (x y : xreal) : xreal := x_add x (x_neg y).

Definition x_mul (x y : xreal) : xreal :=
  match x, y with
  | XNaN, _ | _, XNaN => XNaN
  | XInf s, XInf s' => XInf (xorb s s')
  | XInf s, XFin r | XFin r, XInf s =>
      if Rzero_b r then XNaN else XInf (xorb s (Rneg_b r))
  | XFin a, XFin b => XFin (a * b)
  end.

Definition x_div (x y : xreal) : xreal :=
  match x, y with
  | XNaN, _ | _, XNaN => XNaN
  | XInf _, XInf _ => XNaN
  | XInf s, XFin r => XInf (xorb s (Rneg_b r))
  | XFin _, XInf _ => XFin 0
  | XFin a, XFin b =>
      if Rzero_b b
      then (if Rzero_b a then XNaN else XInf (Rneg_b a))
      else XFin (a / b)
  end.

Definition x_sqrt (x : xreal) : xreal :=
  match x with
  | XNaN => XNaN
  | XInf s => if s then XNaN else XInf false
  | XFin r => if Rneg_b r then XNaN else XFin (sqrt r)
  end.

Definition x_abs (x : xreal) : xreal :=
  match x with
  | XNaN => XNaN
  | XInf _ => XInf false
  | XFin r => XFin (Rabs r)
  end.

Definition x_eqb (x y : xreal) : bool :=
  match x, y with
  | XInf s, XInf s' => Bool.eqb s s'
  | XFin a, XFin b => if Req_dec_T a b then true else false
  | _, _ => false
  end.

Definition x_ltb (x y : xreal) : bool :=
  match x, y with
  | XNaN, _ | _, XNaN => false
  | XInf s, XInf s' => s && negb s'
  | XInf s, XFin _ => s
  | XFin _, XInf s => negb s
  | XFin a, XFin b => if Rlt_dec a b then true else false
  end.

Definition x_leb (x y : xreal) : bool :=
  match x, y with
  | XNaN, _ | _, XNaN => false
  | XInf s, XInf s' => s || negb s'
  | XInf s, XFin _ => s
  | XFin _, XInf s => negb s
  | XFin a, XFin b => if Rle_dec a b then true else false
  end.

Definition x_isnan (x : xreal) : bool :=
  match x with
  | XNaN => true
  | _ => false
  end.

#[export] Instance xreal_Float64 : Float64 xreal := {|
  f_of_Z := fun z => XFin (IZR z);
  f_nan := XNaN;
  f_inf := XInf false;
  f_neg := x_neg;
  f_add := x_add;
  f_sub := x_sub;
  f_mul := x_mul;
  f_div := x_div;
  f_sqrt := x_sqrt;
  f_abs := x_abs;
  f_eqb := x_eqb;
  f_ltb := x_ltb;
  f_leb := x_leb;
  f_isnan := x_isnan;
|}.

(* ================================================================== *)
(** * Arrays and tensors *)

(** An n-dimensional array: its shape and its elements in row-major order. *)
Record ndarray (A : Type) : Type := mk_ndarray {
  nd_shape : list Z;
  nd_data : list A;
}.
Arguments mk_ndarray {A} nd_shape nd_data.
Arguments nd_shape {A} n.
Arguments nd_data {A} n.

(** [TensorShape.num_elements]. *)
Definition num_elements (shape : list Z) : Z := fold_right Z.mul 1%Z shape.

(** The row-major offset of a multi-index. *)
Fixpoint ravel (shape index : list Z) : Z :=
  match shape, index with
  | _ :: shape', i :: index' => (i * num_elements shape' + ravel shape' index')%Z
  | _, _ => 0%Z
  end.

Definition nd_get {A : Type} (a : ndarray A) (index : list Z) : option A :=
  nd_data a !! Z.to_nat (ravel (nd_shape a) index).

(** [(x,) * k]: a tuple repeated; a negative count gives the empty tuple. *)
Definition tuple_repeat (x k : Z) : list Z := repeat x (Z.to_nat k).

Section IndexPoints.
Context {A F : Type}.
(** The conversion of the array's dtype to [tf.float64]. *)
Variable to_float64 : A → F.

(** [tf.constant(value, dtype=tf.float64, shape=shape)] in eager mode: the
    value as it is when the shape is its own, reshaped when the element counts
    agree, a single element filled into the shape, an error otherwise. *)
Definition tf_constant (value : ndarray A) (shape : list Z)
  : result (ndarray F) :=
  let t := map to_float64 (nd_data value) in
  if decide (shape = nd_shape value) then Ok (mk_ndarray shape t)
  else if (num_elements shape =? Z.of_nat (length t))%Z
  then Ok (mk_ndarray shape t)
  else match t with
       | [x] => Ok (mk_ndarray shape (repeat x (Z.to_nat (num_elements shape))))
       | _ => Raise (TypeError "Eager execution of tf.constant with unsupported shape")
       end.

(** [convert_index_points]:
<<
    shape = array.shape
    shape += (1,) * (shape[1] - 1)
    return tf.constant(array, dtype=tf.float64, shape=shape)
>> *)
Definition convert_index_points (array : ndarray A) : result (ndarray F) :=
  let shape := nd_shape array in
  match shape !! 1%nat with
  | None => Raise (IndexError "tuple index out of range")
  | Some d =>
      let shape := shape ++ tuple_repeat 1 (d - 1) in
      tf_constant array shape
  end.

End IndexPoints.

(* ================================================================== *)
(** * NumPy on one-dimensional [float64] arrays *)

Section NumPy.
Context {F : Type} `{Float64 F}.

(** [np.sum]: the elements added up from zero.  In exact arithmetic the
    order of the additions is immaterial; in binary64 NumPy's pairwise order
    can differ from this one in the last bits of a long sum. *)
Definition np_sum (a : list F) : F := fold_left f_add a (f_of_Z 0).

(** [np.mean]: the sum divided by the number of elements ([0/0] on the empty
    array). *)
Definition np_mean (a : list F) : F :=
  f_div (np_sum a) (f_of_Z (Z.of_nat (length a))).

Definition np_square (a : list F) : list F := map (fun x => f_mul x x) a.

(** An elementwise binary operation on two one-dimensional arrays, with
    NumPy's broadcasting: equal lengths, or one of the two of length one. *)
Definition np_broadcast (op : F → F → F) (a b : list F) : result (list F) :=
  if decide (length a = length b) then Ok (zip_with op a b)
  else match a, b with
       | _, [y] => Ok (map (fun x => op x y) a)
       | [x], _ => Ok (map (op x) b)
       | _, _ => Raise (ValueError "operands could not be broadcast together")
       end.

(** [np.count_nonzero] of a boolean array. *)
Definition np_count_nonzero (a : list bool) : Z :=
  Z.of_nat (length (filter (fun b => b = true) a)).

(** [np.linspace(start, stop, num)] with its default [endpoint=True]:
    [arange(num) * step + start] with [step = (stop - start) / (num - 1)],
    and the last element set to [stop]. *)
Definition np_linspace (start stop : F) (num : nat) : list F :=
  let div := (Z.of_nat num - 1)%Z in
  let delta := f_sub stop start in
  let y := map (fun i => f_of_Z (Z.of_nat i)) (seq 0 num) in
  let y :=
    if (0 <? div)%Z then
      let step := f_div delta (f_of_Z div) in
      if f_eqb step (f_of_Z 0)
      then map (fun v => f_mul (f_div v (f_of_Z div)) delta) y
      else map (fun v => f_mul v step) y
    else map (fun v => f_mul v delta) y in
  let y := map (fun v => f_add v start) y in
  if (1 <? num)%nat then <[pred num := stop]> y else y.

End NumPy.

(* ================================================================== *)
(** * GPMetrics: the derived metrics

    Each property of [GPMetrics] as a function of the attributes it reads:
    the cached predictions [mean] and [stddevs] and the observations
    [val_obs] (all one-dimensional). *)

Section Metrics.
Context {F : Type} `{Float64 F}.

(** [np.sqrt(np.mean(np.square(self.stddevs)))] *)
Definition sharpness (stddevs : list F) : F :=
  f_sqrt (np_mean (np_square stddevs)).

(**
<<
    stdev_mean = self.stddevs.mean()
    coeff_var = np.sqrt(np.sum(np.square(self.stddevs - stdev_mean)))
    coeff_var /= stdev_mean * (len(self.stddevs) - 1)
>> *)
Definition variation (stddevs : list F) : F :=
  let stdev_mean := np_mean stddevs in
  let coeff_var :=
    f_sqrt (np_sum (np_square (map (fun s => f_sub s stdev_mean) stddevs))) in
  f_div coeff_var
        (f_mul stdev_mean (f_of_Z (Z.of_nat (length stddevs) - 1))).

(** [self.mean - self.val_obs.numpy()] *)
Definition residuals (mean val_obs : list F) : result (list F) :=
  np_broadcast f_sub mean val_obs.

(** [tf.losses.mae(self.val_obs, self.mean)]: the mean of [|y_pred - y_true|]. *)
Definition mae (mean val_obs : list F) : result F :=
  d ← np_broadcast f_sub mean val_obs;
  Ok (np_mean (map f_abs d)).

(** The quantile function of [tfd.Normal(0, 1)]. *)
Variable quantile : F → F.

(**
<<
    norm_resids = self.residuals / self.stddevs
    predicted_pi = np.linspace(0, 1, 100)
    bounds = norm.quantile(predicted_pi).numpy()
    observed_pi = np.array(
        [np.count_nonzero(norm_resids <= bound) for bound in bounds])
    observed_pi = observed_pi / norm_resids.size
    return predicted_pi, observed_pi
>> *)
Definition pis (mean val_obs stddevs : list F) : result (list F * list F) :=
  res ← residuals mean val_obs;
  norm_resids ← np_broadcast f_div res stddevs;
  let predicted_pi := np_linspace (f_of_Z 0) (f_of_Z 1) 100 in
  let bounds := map quantile predicted_pi in
  let observed_pi :=
    map (fun bound =>
           np_count_nonzero (map (fun r => f_leb r bound) norm_resids))
        bounds in
  let observed_pi :=
    map (fun c => f_div (f_of_Z c) (f_of_Z (Z.of_nat (length norm_resids))))
        observed_pi in
  Ok (predicted_pi, observed_pi).

(**
<<
    predicted_pi, observed_pi = self.pis
    return np.sum(np.square(predicted_pi - observed_pi))
>> *)
Definition calibration_err (mean val_obs stddevs : list F) : result F :=
  p ← pis mean val_obs stddevs;
  d ← np_broadcast f_sub (fst p) (snd p);
  Ok (np_sum (np_square d)).

End Metrics.

(** ** The metrics as the specification words them *)

Section MetricsSpec.
Context {F : Type} `{Float64 F}.

(** The population standard deviation: the root of the mean squared
    deviation from the mean. *)
Definition population_stddev (a : list F) : F :=
  let m := np_mean a in
  f_sqrt (np_mean (np_square (map (fun s => f_sub s m) a))).

(** "population standard deviation of stddevs divided by
    (mean stddev × (N−1))" *)
Definition variation_spec (stddevs : list F) : F :=
  f_div (population_stddev stddevs)
        (f_mul (np_mean stddevs) (f_of_Z (Z.of_nat (length stddevs) - 1))).

(** "the empirical fraction of normalized residuals ≤ bound" *)
Definition empirical_fraction (norm_resids : list F) (bound : F) : F :=
  f_div (f_of_Z (Z.of_nat (length (filter (fun r => f_leb r bound = true) norm_resids))))
        (f_of_Z (Z.of_nat (length norm_resids))).

End MetricsSpec.

(** ** The same quantities over the reals *)

Definition Rsum (l : list R) : R := fold_right Rplus 0%R l.

Definition Rmean (l : list R) : R := (Rsum l / INR (length l))%R.

(** The sum of the squares, and of the squared deviations from the mean. *)
Definition Rsum_sq (l : list R) : R := Rsum (map (fun x => (x * x)%R) l).

Definition Rsum_sq_dev (l : list R) : R :=
  Rsum_sq (map (fun x => (x - Rmean l)%R) l).

(** The root mean square. *)
Definition Rrms (l : list R) : R := sqrt (Rsum_sq l / INR (length l)).

(** The population standard deviation. *)
Definition Rpop_stddev (l : list R) : R :=
  sqrt (Rsum_sq_dev l / INR (length l)).

(** A list of binary64 numbers in strictly increasing order. *)
Fixpoint increasing (l : list float) : bool :=
  match l with
  | x :: (y :: _) as l' => PrimFloat.ltb x y && increasing l'
  | _ => true
  end.

(* ================================================================== *)
(** * What the module takes from TensorFlow and the Python runtime *)

Class Backend (F : Type) : Type := {
  (** the state of [tf.optimizers.Adam] and its initial value *)
  Adam : Type;
  adam_new : Adam;
  (** The arithmetic of [optimize_cycle]: from the observation index points,
      the observations, amplitude, length scale and optimizer state, the loss
      [-gp_prior.log_prob(observations)] and the amplitude, length scale and
      optimizer state after [apply_gradients]. *)
  adam_step : ndarray F → ndarray F → F → F → Adam → F * (F * F * Adam);
  (** [mean()], [stddev()] and [log_prob(value)] of the
      [GaussianProcessRegressionModel] with the given training data,
      amplitude, length scale and index points. *)
  gprm_mean : ndarray F → ndarray F → F → F → ndarray F → list F;
  gprm_stddev : ndarray F → ndarray F → F → F → ndarray F → list F;
  gprm_log_prob : ndarray F → ndarray F → F → F → ndarray F → list F → F;
  (** the quantile function of [tfd.Normal(0, 1)] *)
  norm_quantile : F → F;
  (** the attribute names every Python object answers to (inherited from
      [object]) *)
  object_attr : string → bool;
}.

(* ================================================================== *)
(** * GPTrainer *)

(** The five [tf.Variable]s held in the dictionary [self.metrics]; the
    dictionary's keys never change after construction. *)
Record Metrics (F : Type) : Type := mk_metrics {
  val_nll : F;
  val_mae : F;
  val_sharpness : F;
  val_coeff_var : F;
  val_cal_err : F;
}.
Arguments mk_metrics {F} _ _ _ _ _.
Arguments val_nll {F} m.
Arguments val_mae {F} m.
Arguments val_sharpness {F} m.
Arguments val_coeff_var {F} m.
Arguments val_cal_err {F} m.

Inductive metric_key : Type :=
| KNll | KMae | KSharpness | KVariation | KCalibrationErr.

(** The key of [self.metrics] a name denotes; [None] is a [KeyError]. *)
Definition metric_key_of (name : string) : option metric_key :=
  if String.eqb name "nll" then Some KNll
  else if String.eqb name "mae" then Some KMae
  else if String.eqb name "sharpness" then Some KSharpness
  else if String.eqb name "variation" then Some KVariation
  else if String.eqb name "calibration_err" then Some KCalibrationErr
  else None.

(** [self.metrics[key].assign(value)] *)
Definition metrics_assign {F : Type} (m : Metrics F) (k : metric_key) (v : F)
  : Metrics F :=
  match k with
  | KNll => mk_metrics v (val_mae m) (val_sharpness m) (val_coeff_var m) (val_cal_err m)
  | KMae => mk_metrics (val_nll m) v (val_sharpness m) (val_coeff_var m) (val_cal_err m)
  | KSharpness => mk_metrics (val_nll m) (val_mae m) v (val_coeff_var m) (val_cal_err m)
  | KVariation => mk_metrics (val_nll m) (val_mae m) (val_sharpness m) v (val_cal_err m)
  | KCalibrationErr => mk_metrics (val_nll m) (val_mae m) (val_sharpness m) (val_coeff_var m) v
  end.

(** [training_steps] is a [tf.int32] variable. *)
Definition wrap_int32 (z : Z) : Z := ((z + 2 ^ 31) mod 2 ^ 32 - 2 ^ 31)%Z.

Section Trainer.
Context {F : Type} `{Float64 F} `{Backend F}.

Record GPTrainer : Type := mk_trainer {
  observation_index_points : ndarray F;
  observations : ndarray F;
  amplitude : F;
  length_scale : F;
  optimizer : Adam;
  training_steps : Z;
  loss : F;
  metrics : Metrics F;
  (** the checkpoint directory of [ckpt_manager]; [None] without one *)
  ckpt_manager : option string;
}.

Definition set_kernel (t : GPTrainer) (amp ls : F) (opt : Adam) : GPTrainer :=
  mk_trainer (observation_index_points t) (observations t) amp ls opt
             (training_steps t) (loss t) (metrics t) (ckpt_manager t).

Definition set_loss (t : GPTrainer) (l : F) : GPTrainer :=
  mk_trainer (observation_index_points t) (observations t) (amplitude t)
             (length_scale t) (optimizer t) (training_steps t) l (metrics t)
             (ckpt_manager t).

Definition set_training_steps (t : GPTrainer) (n : Z) : GPTrainer :=
  mk_trainer (observation_index_points t) (observations t) (amplitude t)
             (length_scale t) (optimizer t) n (loss t) (metrics t)
             (ckpt_manager t).

Definition set_metrics (t : GPTrainer) (m : Metrics F) : GPTrainer :=
  mk_trainer (observation_index_points t) (observations t) (amplitude t)
             (length_scale t) (optimizer t) (training_steps t) (loss t) m
             (ckpt_manager t).

(** What [tf.train.Checkpoint] tracks: [step], [amp], [ls], [loss] and the
    five validation metrics. *)
Record Checkpoint : Type := mk_checkpoint {
  ck_step : Z;
  ck_amp : F;
  ck_ls : F;
  ck_loss : F;
  ck_metrics : Metrics F;
}.

(** A reference to a Python list object. *)
Definition loc : Type := nat.

(** What outlives a call: the checkpoint directories (each keeps its latest
    checkpoint only, [max_to_keep=1]), the saved models, and the Python list
    objects reachable by the caller and by [train_model]'s default
    argument. *)
Record World : Type := mk_world {
  checkpoints : gmap string Checkpoint;
  saved_models : gmap string GPTrainer;
  lists : gmap loc (list string);
}.

(** The list [[]] that is the default of [metrics], created once when
    [train_model] is defined. *)
Definition default_metrics : loc := 0%nat.

Definition read_list (w : World) (l : loc) : list string :=
  default [] (lists w !! l).

Definition write_list (w : World) (l : loc) (v : list string) : World :=
  mk_world (checkpoints w) (saved_models w) (<[l := v]> (lists w)).

(** [self.ckpt_manager.save(self.training_steps)] *)
Definition checkpoint_of (t : GPTrainer) : Checkpoint :=
  mk_checkpoint (training_steps t) (amplitude t) (length_scale t) (loss t)
                (metrics t).

Definition save_checkpoint (w : World) (dir : string) (t : GPTrainer) : World :=
  mk_world (<[dir := checkpoint_of t]> (checkpoints w)) (saved_models w)
           (lists w).

(** [tf.saved_model.save(self, save_dir)] *)
Definition save_model (w : World) (dir : string) (t : GPTrainer) : World :=
  mk_world (checkpoints w) (<[dir := t]> (saved_models w)) (lists w).

(** [self.ckpt.restore(path)] *)
Definition restore (t : GPTrainer) (c : Checkpoint) : GPTrainer :=
  mk_trainer (observation_index_points t) (observations t) (ck_amp c)
             (ck_ls c) (optimizer t) (ck_step c) (ck_loss c) (ck_metrics c)
             (ckpt_manager t).

(** [GPTrainer.__init__].  The two failures are those of
    [observation_index_points.shape[1]] and of the kernel's constructor, which
    refuses [feature_ndims <= 0]; the observations are stored and compared
    with nothing. *)
Definition GPTrainer_init (observation_index_points observations : ndarray F)
    (checkpoint_dir : option string) (w : World) : result GPTrainer :=
  match nd_shape observation_index_points !! 1%nat with
  | None => Raise (IndexError "list index out of range")
  | Some feature_ndims =>
      if (feature_ndims <=? 0)%Z
      then Raise (ValueError "`feature_ndims` must be a Python `integer` greater than zero")
      else
        let dir := if truthy_str checkpoint_dir then checkpoint_dir else None in
        let t := mk_trainer observation_index_points observations
                   (f_of_Z 1) (f_of_Z 1) adam_new 0%Z f_nan
                   (mk_metrics f_nan f_nan f_nan f_nan f_nan) dir in
        match dir with
        | Some d =>
            match checkpoints w !! d with
            | Some c => Ok (restore t c)     (* "Restored from ..." *)
            | None => Ok t                   (* "No checkpoints found." *)
            end
        | None => Ok t
        end
  end.

(** ** [get_model] and [predict] *)

(** The regression model [get_model] builds: it refers to the trainer's
    kernel and data, and owns the index points. *)
Record Gprm : Type := mk_gprm { index_points : ndarray F }.

Definition get_model (t : GPTrainer) (index_points : ndarray F)
  : Gprm * GPTrainer :=
  (mk_gprm index_points, t).

Definition model_mean (t : GPTrainer) (m : Gprm) : list F :=
  gprm_mean (observation_index_points t) (observations t) (amplitude t)
            (length_scale t) (index_points m).

Definition model_stddev (t : GPTrainer) (m : Gprm) : list F :=
  gprm_stddev (observation_index_points t) (observations t) (amplitude t)
              (length_scale t) (index_points m).

Definition model_log_prob (t : GPTrainer) (m : Gprm) (value : list F) : F :=
  gprm_log_prob (observation_index_points t) (observations t) (amplitude t)
                (length_scale t) (index_points m) value.

(**
<<
    gprm = self.get_model(points)
    return gprm.mean(), gprm.stddev()
>> *)
Definition predict (t : GPTrainer) (points : ndarray F)
  : (list F * list F) * GPTrainer :=
  let (gprm, t) := get_model t points in
  ((model_mean t gprm, model_stddev t gprm), t).

(** ** [optimize_cycle] *)

Definition optimize_cycle (t : GPTrainer) : F * GPTrainer :=
  let '(l, (amp, ls, opt)) :=
    adam_step (observation_index_points t) (observations t) (amplitude t)
              (length_scale t) (optimizer t) in
  (l, set_kernel t amp ls opt).

End Trainer.

(* ================================================================== *)
(** * GPMetrics as [train_model] uses it *)

Definition REQUIRES_MEAN : gset string :=
  {[ "mae"; "calibration_err"; "residuals"; "pis" ]}.
Definition REQUIRES_STDDEV : gset string :=
  {[ "sharpness"; "variation" ]}.

(** [bool(s.intersection(names))] *)
Definition intersects (s : gset string) (names : list string) : bool :=
  bool_decide (s ∩ list_to_set names ≠ ∅).

(** The names found in the instance's dictionary, and the methods and class
    attributes of [GPMetrics] that are not properties. *)
Definition instance_attrs : list string :=
  ["val_points"; "val_obs"; "gp_trainer"; "gprm"; "mean"; "stddevs"].
Definition class_attrs : list string :=
  ["REQUIRES_MEAN"; "REQUIRES_STDDEV"; "update_mean"; "update_stddevs";
   "sharpness_plot"; "calibration_plot"].

Definition no_attribute (name : string) : string :=
  "'GPMetrics' object has no attribute '" +:+ name +:+ "'".

(** [f"Invalid metric: {e}"] *)
Definition invalid_metric (e : string) : string := "Invalid metric: " +:+ e.

(** A Python dictionary as the list of its items in insertion order:
    [d[key] = value] keeps the place of a key already present. *)
Fixpoint dict_set {V : Type} (d : list (string * V)) (key : string) (v : V)
  : list (string * V) :=
  match d with
  | [] => [(key, v)]
  | (k, x) :: d' =>
      if String.eqb k key then (k, v) :: d' else (k, x) :: dict_set d' key v
  end.

Section TrainModel.
Context {F : Type} `{Float64 F} `{Backend F}.

(** What an attribute of a [GPMetrics] object evaluates to. *)
Inductive pyval : Type :=
| PFloat (x : F)
| PArray (a : list F)
| PPair (a b : list F)
| PObject.

(** The arguments of [train_model]; [metrics] is a reference to the caller's
    list, or to [default_metrics]. *)
Record TrainArgs : Type := mk_args {
  val_points : ndarray F;
  val_obs : list F;
  epochs : Z;
  patience : option Z;
  save_dir : option string;
  metrics_arg : loc;
}.

(** A [GPMetrics] object: [val_points], [val_obs] and [gp_trainer] are those
    of the call, [gprm] is [gp_trainer.get_model(val_points)]; [mean] and
    [stddevs] are the cached predictions. *)
Record GPMetrics : Type := mk_gp_metrics {
  gm_mean : list F;
  gm_stddevs : list F;
}.

Definition gm_gprm (a : TrainArgs) : Gprm := mk_gprm (val_points a).

Definition update_mean (a : TrainArgs) (t : GPTrainer) (gm : GPMetrics)
  : GPMetrics :=
  mk_gp_metrics (model_mean t (gm_gprm a)) (gm_stddevs gm).

Definition update_stddevs (a : TrainArgs) (t : GPTrainer) (gm : GPMetrics)
  : GPMetrics :=
  mk_gp_metrics (gm_mean gm) (model_stddev t (gm_gprm a)).

Definition GPMetrics_init (a : TrainArgs) (t : GPTrainer) : GPMetrics :=
  mk_gp_metrics (model_mean t (gm_gprm a)) (model_stddev t (gm_gprm a)).

(** [-self.gprm.log_prob(self.val_obs).numpy()] *)
Definition nll (a : TrainArgs) (t : GPTrainer) : F :=
  f_neg (model_log_prob t (gm_gprm a) (val_obs a)).

(** [getattr(gp_metrics, name)] *)
Definition gp_metrics_getattr (a : TrainArgs) (t : GPTrainer) (gm : GPMetrics)
    (name : string) : result pyval :=
  if String.eqb name "nll" then Ok (PFloat (nll a t))
  else if String.eqb name "mae" then
    x ← mae (gm_mean gm) (val_obs a); Ok (PFloat x)
  else if String.eqb name "sharpness" then Ok (PFloat (sharpness (gm_stddevs gm)))
  else if String.eqb name "variation" then Ok (PFloat (variation (gm_stddevs gm)))
  else if String.eqb name "calibration_err" then
    x ← calibration_err norm_quantile (gm_mean gm) (val_obs a) (gm_stddevs gm);
    Ok (PFloat x)
  else if String.eqb name "residuals" then
    x ← residuals (gm_mean gm) (val_obs a); Ok (PArray x)
  else if String.eqb name "pis" then
    x ← pis norm_quantile (gm_mean gm) (val_obs a) (gm_stddevs gm);
    Ok (PPair (fst x) (snd x))
  else if bool_decide (name ∈ instance_attrs ++ class_attrs) || object_attr name
  then Ok PObject
  else Raise (AttributeError (no_attribute name)).

(**
<<
    try:
        metric_dict = {metric: getattr(gp_metrics, metric) for metric in metrics}
    except AttributeError as e:
        raise ValueError(f"Invalid metric: {e}")
>> *)
Fixpoint metric_dict_from (a : TrainArgs) (t : GPTrainer) (gm : GPMetrics)
    (names : list string) (d : list (string * pyval))
  : result (list (string * pyval)) :=
  match names with
  | [] => Ok d
  | metric :: names' =>
      match gp_metrics_getattr a t gm metric with
      | Ok v => metric_dict_from a t gm names' (dict_set d metric v)
      | Raise (AttributeError e) => Raise (ValueError (invalid_metric e))
      | Raise e => Raise e
      end
  end.

(**
<<
    for metric, value in metric_dict.items():
        self.metrics[metric].assign(value)
>>
    The metrics as far as they were assigned, and the exception that stopped
    the loop, if one did. *)
Fixpoint assign_metrics (d : list (string * pyval)) (m : Metrics F)
  : Metrics F * option exn :=
  match d with
  | [] => (m, None)
  | (metric, value) :: d' =>
      match metric_key_of metric with
      | None => (m, Some (KeyError metric))
      | Some k =>
          match value with
          | PFloat x => assign_metrics d' (metrics_assign m k x)
          | _ => (m, Some (ValueError "Shapes are incompatible"))
          end
      end
  end.

(** ** The generator *)

(** Where the body of [train_model] is suspended, with its local variables. *)
Inductive frame : Type :=
| Created
| AtYield (i : Z) (best_val_nll : F) (steps_since_improvement : Z)
          (gp_metrics : GPMetrics)
| Finished.

Record generator : Type := mk_generator {
  g_args : TrainArgs;
  g_frame : frame;
}.

(** Calling [train_model] creates the generator and runs nothing. *)
Definition train_model (a : TrainArgs) : generator := mk_generator a Created.

(** What a [next] hands to the caller. *)
Inductive signal : Type :=
| Yield (metric_dict : list (string * pyval))
| StopIteration
| Raised (e : exn).

Definition has_ckpt_manager (t : GPTrainer) : bool :=
  match ckpt_manager t with
  | Some _ => true
  | None => false
  end.

(** After the loop: [if save_dir: tf.saved_model.save(self, save_dir)]. *)
Definition finish (a : TrainArgs) (t : GPTrainer) (w : World)
  : signal * frame * GPTrainer * World :=
  let w := match save_dir a with
           | Some dir => if truthy_str (save_dir a) then save_model w dir t else w
           | None => w
           end in
  (StopIteration, Finished, t, w).

(**
<<
    self.loss.assign(self.optimize_cycle())
    self.training_steps.assign_add(1)
>> *)
Definition stepped (t : GPTrainer) : GPTrainer :=
  let (l, t) := optimize_cycle t in
  let t := set_loss t l in
  set_training_steps t (wrap_int32 (training_steps t + 1)).

(**
<<
    if gp_metrics.REQUIRES_MEAN.intersection(metrics):
        gp_metrics.update_mean()
    if gp_metrics.REQUIRES_STDDEV.intersection(metrics):
        gp_metrics.update_stddevs()
>> *)
Definition refresh (a : TrainArgs) (t : GPTrainer) (names : list string)
    (gm : GPMetrics) : GPMetrics :=
  let gm := if intersects REQUIRES_MEAN names then update_mean a t gm else gm in
  if intersects REQUIRES_STDDEV names then update_stddevs a t gm else gm.

(** The loop at index [i]: leave it when [range(epochs)] is exhausted, else
    run the body down to its [yield]. *)
Definition iteration (a : TrainArgs) (i : Z) (best_val_nll : F)
    (steps_since_improvement : Z) (gm : GPMetrics) (t : GPTrainer) (w : World)
  : signal * frame * GPTrainer * World :=
  if (i <? epochs a)%Z then
    let t := stepped t in
    let names := read_list w (metrics_arg a) in
    let gm := refresh a t names gm in
    match metric_dict_from a t gm names [] with
    | Raise e => (Raised e, Finished, t, w)
    | Ok metric_dict =>
        match assign_metrics metric_dict (metrics t) with
        | (m, Some e) => (Raised e, Finished, set_metrics t m, w)
        | (m, None) =>
            let t := set_metrics t m in
            let metric_dict := dict_set metric_dict "loss" (PFloat (loss t)) in
            (Yield metric_dict,
             AtYield i best_val_nll steps_since_improvement gm, t, w)
        end
    end
  else finish a t w.

(** The body from the [yield] of iteration [i] on: early stopping and
    checkpointing, then the next iteration. *)
Definition resume (a : TrainArgs) (i : Z) (best_val_nll : F)
    (steps_since_improvement : Z) (gm : GPMetrics) (t : GPTrainer) (w : World)
  : signal * frame * GPTrainer * World :=
  if truthy_int (patience a) || has_ckpt_manager t then
    if f_ltb (val_nll (metrics t)) best_val_nll then
      let best_val_nll := val_nll (metrics t) in
      let w := match ckpt_manager t with
               | Some dir => save_checkpoint w dir t
               | None => w
               end in
      iteration a (i + 1) best_val_nll 1 gm t w
    else
      let steps_since_improvement := (steps_since_improvement + 1)%Z in
      if match patience a with
         | Some p => negb (p =? 0)%Z && (p <=? steps_since_improvement)%Z
         | None => false
         end
      then finish a t w                                   (* break *)
      else iteration a (i + 1) best_val_nll steps_since_improvement gm t w
  else iteration a (i + 1) best_val_nll steps_since_improvement gm t w.

(** The body from its first line to the first [yield]. *)
Definition start (a : TrainArgs) (t : GPTrainer) (w : World)
  : signal * frame * GPTrainer * World :=
  let best_val_nll := val_nll (metrics t) in
  let best_val_nll := if f_isnan best_val_nll then f_inf else best_val_nll in
  let names := read_list w (metrics_arg a) in
  let w := if (has_ckpt_manager t || truthy_int (patience a))
              && negb (bool_decide ("nll" ∈ names))
           then write_list w (metrics_arg a) (names ++ ["nll"])
           else w in
  let gm := GPMetrics_init a t in
  iteration a 0 best_val_nll 1 gm t w.

(** [next(gen)] *)
Definition next (g : generator) (t : GPTrainer) (w : World)
  : signal * generator * GPTrainer * World :=
  let '(s, fr, t, w) :=
    match g_frame g with
    | Created => start (g_args g) t w
    | AtYield i best ssi gm => resume (g_args g) i best ssi gm t w
    | Finished => (StopIteration, Finished, t, w)
    end in
  (s, mk_generator (g_args g) fr, t, w).

(** [n] calls of [next], stopping at the first that does not yield: the
    signals with the trainer as it was when each was raised. *)
Fixpoint drive (n : nat) (g : generator) (t : GPTrainer) (w : World)
  : list (signal * GPTrainer) * generator * GPTrainer * World :=
  match n with
  | O => ([], g, t, w)
  | S n' =>
      let '(s, g, t, w) := next g t w in
      match s with
      | Yield _ =>
          let '(tr, g', t', w') := drive n' g t w in
          ((s, t) :: tr, g', t', w')
      | _ => ([(s, t)], g, t, w)
      end
  end.

(** [list(trainer.train_model(...))]: the generator consumed to its end. *)
Definition train (a : TrainArgs) (t : GPTrainer) (w : World)
  : list (signal * GPTrainer) * generator * GPTrainer * World :=
  drive (S (Z.to_nat (epochs a))) (train_model a) t w.

(** ** Notions the statements use *)

(** What one optimizer step reads and writes. *)
Definition kernel (t : GPTrainer)
  : ndarray F * ndarray F * F * F * Adam :=
  (observation_index_points t, observations t, amplitude t, length_scale t,
   optimizer t).

(** The validation NLL after [n] optimizer steps from [t]. *)
Definition nll_after (a : TrainArgs) (t : GPTrainer) (n : nat) : F :=
  nll a (Nat.iter n stepped t).

(** [best_val_nll] as [train_model] initialises it. *)
Definition initial_best (t : GPTrainer) : F :=
  if f_isnan (val_nll (metrics t)) then f_inf else val_nll (metrics t).

(** The model predicts one value per validation observation, whatever the
    hyperparameters. *)
Definition predictions_match (a : TrainArgs) (t : GPTrainer) : Prop :=
  ∀ amp ls : F,
    length (gprm_mean (observation_index_points t) (observations t) amp ls
                      (val_points a)) = length (val_obs a)
    ∧ length (gprm_stddev (observation_index_points t) (observations t) amp ls
                          (val_points a)) = length (val_obs a).

Definition gm_matches (a : TrainArgs) (gm : GPMetrics) : Prop :=
  length (gm_mean gm) = length (val_obs a)
  ∧ length (gm_stddevs gm) = length (val_obs a).

(** The metric names as the first [next] leaves them. *)
Definition names_at_start (a : TrainArgs) (t : GPTrainer) (w : World)
  : list string :=
  let names := read_list w (metrics_arg a) in
  if (has_ckpt_manager t || truthy_int (patience a))
     && negb (bool_decide ("nll" ∈ names))
  then names ++ ["nll"] else names.

(** A metric dictionary in which every key of [self.metrics] holds a float,
    and ["nll"] the NLL of the trainer. *)
Definition dict_ok (a : TrainArgs) (t : GPTrainer)
    (d : list (string * pyval)) : Prop :=
  ∀ k v, (k, v) ∈ d → is_Some (metric_key_of k) →
         ∃ x, v = PFloat x ∧ (k = "nll" → x = nll a t).

(** The trainers at which a trace yielded. *)
Definition yielded (trace : list (signal * GPTrainer)) : list GPTrainer :=
  omap (fun st => match st.1 with
                  | Yield _ => Some st.2
                  | _ => None
                  end) trace.

(** The trainer as it was at the last step whose validation NLL was strictly
    below the best seen before it, if there is such a step. *)
Fixpoint last_improvement (best : F) (ts : list GPTrainer)
    (found : option GPTrainer) : option GPTrainer :=
  match ts with
  | [] => found
  | t :: ts' =>
      if f_ltb (val_nll (metrics t)) best
      then last_improvement (val_nll (metrics t)) ts' (Some t)
      else last_improvement best ts' found
  end.

End TrainModel.

(* ================================================================== *)
(** * A small concrete instance

    A binary64 back end on which the definitions run.  One optimizer step
    moves the amplitude from 1 to 2 and from anything else to 3; the
    validation NLL is [|amplitude - 2|], so it improves at the first step and
    never again.  Predictions have one entry per index point. *)

Module Toy.

Definition n_points (points : ndarray float) : nat :=
  Z.to_nat (hd 0%Z (nd_shape points)).

#[export] Instance backend : Backend float := {|
  Adam := Z;
  adam_new := 0%Z;
  adam_step := fun _ _ amp ls opt =>
    (PrimFloat.mul amp ls,
     (if PrimFloat.eqb amp 1 then 2%float else 3%float, ls, (opt + 1)%Z));
  gprm_mean := fun _ _ amp _ points => repeat amp (n_points points);
  gprm_stddev := fun _ _ _ ls points => repeat ls (n_points points);
  gprm_log_prob := fun _ _ amp _ _ _ =>
    PrimFloat.opp (PrimFloat.abs (PrimFloat.sub amp 2));
  norm_quantile := fun p => PrimFloat.sub (PrimFloat.mul 6 p) 3;
  object_attr := fun name => String.prefix "__" name;
|}.

(** Two index points in one dimension, and their observations. *)
Definition index_points : ndarray float := mk_ndarray [2%Z; 1%Z] [0%float; 1%float].
Definition observations : ndarray float := mk_ndarray [2%Z] [0%float; 1%float].
(** Three observations for the two index points. *)
Definition observations3 : ndarray float :=
  mk_ndarray [3%Z] [0%float; 1%float; 2%float].

Definition val_points : ndarray float := mk_ndarray [2%Z; 1%Z] [0.5%float; 2%float].
Definition val_obs : list float := [0.5%float; 2%float].

(** The list objects of the caller: the default list is empty, list 1 is
    [["bogus"]], list 2 is [["sharpness"]]. *)
Definition world : World :=
  mk_world ∅ ∅ (<[2%nat := ["sharpness"]]> (<[1%nat := ["bogus"]]> (<[default_metrics := []]> ∅))).

(** A trainer without and one with a checkpoint directory. *)
Definition trainer : GPTrainer :=
  mk_trainer index_points observations 1%float 1%float 0%Z 0%Z nan
             (mk_metrics nan nan nan nan nan) None.
Definition trainer_ckpt : GPTrainer :=
  mk_trainer index_points observations 1%float 1%float 0%Z 0%Z nan
             (mk_metrics nan nan nan nan nan) (Some "ckpts").

(** [train_model(val_points, val_obs, epochs=10, patience=3)] *)
Definition args_patience3 : TrainArgs :=
  mk_args val_points val_obs 10 (Some 3%Z) None default_metrics.
(** [train_model(val_points, val_obs, epochs=4, metrics=["sharpness"])] *)
Definition args_sharpness : TrainArgs :=
  mk_args val_points val_obs 4 None None 2%nat.
(** [train_model(val_points, val_obs, epochs=2)] *)
Definition args_default : TrainArgs :=
  mk_args val_points val_obs 2 None None default_metrics.

End Toy.

(* ================================================================== *)
(** * Further notions *)

(** [self.metrics[key].numpy()] *)
Definition metrics_get {F : Type} (m : Metrics F) (k : metric_key) : F :=
  match k with
  | KNll => val_nll m
  | KMae => val_mae m
  | KSharpness => val_sharpness m
  | KVariation => val_coeff_var m
  | KCalibrationErr => val_cal_err m
  end.


(** How a run ended. *)
Definition ended_normally {F T : Type} (trace : list (@signal F * T)) : bool :=
  match last trace with
  | Some (StopIteration, _) => true
  | _ => false
  end.

(** The name of a key of [self.metrics]. *)
Definition metric_name (k : metric_key) : string :=
  match k with
  | KNll => "nll"
  | KMae => "mae"
  | KSharpness => "sharpness"
  | KVariation => "variation"
  | KCalibrationErr => "calibration_err"
  end.



(** The early-stopping rule in the words of the specification: "the
    since-improvement counter resets to 1 on strict improvement, increments
    otherwise, and training stops when the counter reaches patience".  From
    the best NLL and the counter so far and the validation NLLs of the
    epochs to come, in order: the number of epochs that are run. *)
Fixpoint epochs_run {F : Type} `{Float64 F} (patience : Z) (best : F)
    (counter : Z) (nlls : list F) : nat :=
  match nlls with
  | [] => 0
  | x :: rest =>
      if f_ltb x best then S (epochs_run patience x 1 rest)
      else if (patience <=? counter + 1)%Z then 1
      else S (epochs_run patience best (counter + 1) rest)
  end.

(** A second instance, whose validation NLL is 5, 6, 3 and then 9 at every
    later step: it improves at step 1 and again at step 3. *)
Module Toy2.

Definition nll_at (step : Z) : float :=
  if (step =? 1)%Z then 5%float
  else if (step =? 2)%Z then 6%float
  else if (step =? 3)%Z then 3%float
  else 9%float.

#[export] Instance backend : Backend float := {|
  Adam := Z;
  adam_new := 0%Z;
  adam_step := fun _ _ amp ls opt => (amp, (nll_at (opt + 1), ls, (opt + 1)%Z));
  gprm_mean := fun _ _ amp _ points => repeat amp (Toy.n_points points);
  gprm_stddev := fun _ _ _ ls points => repeat ls (Toy.n_points points);
  gprm_log_prob := fun _ _ amp _ _ _ => PrimFloat.opp amp;
  norm_quantile := fun p => PrimFloat.sub (PrimFloat.mul 6 p) 3;
  object_attr := fun name => String.prefix "__" name;
|}.

Definition world : World := mk_world ∅ ∅ (<[default_metrics := []]> ∅).

Definition trainer : GPTrainer :=
  mk_trainer Toy.index_points Toy.observations 1%float 1%float 0%Z 0%Z nan
             (mk_metrics nan nan nan nan nan) None.

(** [train_model(val_points, val_obs, epochs=10, patience=3)] *)
Definition args_patience3 : TrainArgs :=
  mk_args Toy.val_points Toy.val_obs 10 (Some 3%Z) None default_metrics.

End Toy2.

(** The caller's list 3 is [["residuals"; "val_obs"]]: a property that is
    no stored metric, and an attribute that is no property. *)
Module ToyNames.

Definition world : @World float Toy.backend :=
  mk_world (checkpoints Toy.world) (saved_models Toy.world)
           (<[3%nat := ["residuals"; "val_obs"]]> (lists Toy.world)).


End ToyNames.

(** The optimizer steps taken when the resumption number [j] (from 0) has
    handed over the signal [s]: one for each epoch that was begun. *)
Definition steps_of {F : Type} (j : nat) (s : @signal F) : nat :=
  match s with StopIteration => j | _ => S j end.

(** The same call with another [patience]. *)
Definition with_patience {F : Type} (a : @TrainArgs F) (p : option Z)
  : @TrainArgs F :=
  mk_args (val_points a) (val_obs a) (epochs a) p (save_dir a) (metrics_arg a).

(** The mean absolute difference of two lists of reals. *)
Definition Rmean_abs_diff (a b : list R) : R :=
  Rmean (zip_with (fun x y => Rabs (x - y)) a b).

(** The fraction of the values that are at or below a bound, as a real. *)
Definition Rfraction (values : list xreal) (bound : xreal) : R :=
  (INR (length (filter (fun r => f_leb r bound = true) values))
   / INR (length values))%R.

(** The greatest of a number and a list of numbers. *)
Definition Rmaximum (x : R) (l : list R) : R := fold_left Rmax l x.

(** The greatest absolute value of a list of numbers (0 for none). *)
Definition Rabs_max (l : list R) : R :=
  match map Rabs l with
  | [] => 0%R
  | x :: l' => Rmaximum x l'
  end.

(* ================================================================== *)
(** * Data processing: the features the Gaussian process is fed

    [src/data_processing.py].  The MEGNet model enters through
    [ConcatExtractor.get_concat_output] only, which is a parameter here; a
    training frame is its column ["structure"], and the column ["layer_out"]
    once it is computed.  MEGNet's outputs are binary32 numbers: the
    interface is the one of [Float64], and the laws are proved in exact
    arithmetic. *)

(** [np.squeeze]: the axes of length one removed. *)
Definition np_squeeze {A : Type} (a : ndarray A) : ndarray A :=
  mk_ndarray (filter (fun n => n ≠ 1%Z) (nd_shape a)) (nd_data a).

(** A list comprehension over a fallible function: the first exception
    ends it. *)
Fixpoint result_map {A B : Type} (f : A → result B) (l : list A)
  : result (list B) :=
  match l with
  | [] => Ok []
  | x :: l' => y ← f x; ys ← result_map f l'; Ok (y :: ys)
  end.

Section DataProcessing.
Context {F : Type} `{Float64 F}.
(** A [pymatgen.Structure], and the output of the model's concatenation
    layer for it. *)
Context {Structure : Type}.
Variable get_concat_output : Structure → ndarray F.

Definition np_absolute (a : ndarray F) : ndarray F :=
  mk_ndarray (nd_shape a) (map f_abs (nd_data a)).

(** [np.maximum]: the greater of the two, and NaN when either is. *)
Definition np_maximum (x y : F) : F :=
  if f_isnan x then x
  else if f_isnan y then y
  else if f_ltb x y then y else x.

(** [np.amax] of a whole array. *)
Definition np_amax (a : ndarray F) : result F :=
  match nd_data a with
  | [] => Raise (ValueError "zero-size array to reduction operation maximum which has no identity")
  | x :: l => Ok (fold_left np_maximum l x)
  end.

(** Python's [max] of an iterable: the first item that no later one
    exceeds by [>]. *)
Definition py_max (l : list F) : result F :=
  match l with
  | [] => Raise (ValueError "max() arg is an empty sequence")
  | x :: l' => Ok (fold_left (fun m y => if f_ltb m y then y else m) l' x)
  end.

(** [out / sf] *)
Definition scale (sf : F) (out : ndarray F) : ndarray F :=
  mk_ndarray (nd_shape out) (map (fun x => f_div x sf) (nd_data out)).

Record GPDataParser : Type := mk_parser {
  sf : F;
  (** the columns ["structure"] and ["layer_out"] of [training_data] *)
  training_data : option (list Structure * list (ndarray F));
}.

(**
<<
    layer_outs = map(self.extractor.get_concat_output, data)
    return list(map(np.squeeze, layer_outs))
>> *)
Definition calc_layer_outs (data : list Structure) : list (ndarray F) :=
  map np_squeeze (map get_concat_output data).

(**
<<
    if self.training_data is None:
        raise AttributeError(...)
    abs_values = map(np.absolute, self.training_data["layer_out"])
    max_values = map(np.amax, abs_values)
    return max(max_values)
>> *)
Definition calc_scaling_factor
    (training_data : option (list Structure * list (ndarray F))) : result F :=
  match training_data with
  | None =>
      Raise (AttributeError "GPDataParser must have training data assigned to calculate a scaling factor.")
  | Some (_, layer_out) =>
      max_values ← result_map np_amax (map np_absolute layer_out);
      py_max max_values
  end.

(** [GPDataParser.__init__] *)
Definition GPDataParser_init (sf : option F)
    (training_df : option (list Structure)) : result GPDataParser :=
  match training_df with
  | None =>
      match sf with
      | None =>
          Raise (ValueError "Must supply a scaling factor if training data is not supplied.")
      | Some sf => Ok (mk_parser sf None)
      end
  | Some structures =>
      match sf with
      | Some _ =>
          Raise (ValueError "Supply only one of training data and scaling factor.")
      | None =>
          let layer_outs := calc_layer_outs structures in
          sf ← calc_scaling_factor (Some (structures, layer_outs));
          Ok (mk_parser sf (Some (structures, map (scale sf) layer_outs)))
      end
  end.

(** [[out / self.sf for out in self._calc_layer_outs(structures)]] *)
Definition structures_to_input (p : GPDataParser) (structures : list Structure)
  : list (ndarray F) :=
  map (scale (sf p)) (calc_layer_outs structures).

End DataProcessing.

(* ================================================================== *)
(** * Facts: lists and arrays *)

Lemma map_is_fmap {A B : Type} (f : A → B) (l : list A) : map f l = f <$> l.
Proof. induction l as [|x l IH]; [done|]. simpl. by rewrite IH. Qed.

Lemma num_elements_app (s1 s2 : list Z) :
  num_elements (s1 ++ s2) = (num_elements s1 * num_elements s2)%Z.
Proof.
  induction s1 as [|d s1 IH]; simpl.
  - by destruct (num_elements s2).
  - rewrite IH. lia.
Qed.

Lemma num_elements_ones (k : nat) : num_elements (repeat 1%Z k) = 1%Z.
Proof. induction k as [|k IH]; simpl; [done|]. rewrite IH. lia. Qed.

Lemma ravel_ones (k : nat) :
  ravel (repeat 1%Z k) (repeat 0%Z k) = 0%Z.
Proof. induction k as [|k IH]; simpl; [done|]. rewrite IH. lia. Qed.

(** Appending singleton dimensions, and zeros to the index, addresses the
    same element. *)
Lemma ravel_trailing_ones (shape index : list Z) (k : nat) :
  length index = length shape →
  ravel (shape ++ repeat 1%Z k) (index ++ repeat 0%Z k) = ravel shape index.
Proof.
  revert index. induction shape as [|d shape IH]; intros [|i index] Hlen;
    simpl in Hlen; try discriminate.
  - simpl. by apply ravel_ones.
  - simpl. rewrite IH by lia.
    rewrite num_elements_app, num_elements_ones. lia.
Qed.

Section IndexPointsFacts.
Context {A F : Type} (to_float64 : A → F).

(** C6.  For a two-dimensional array of shape (N, D) with D ≥ 1,
    [convert_index_points] returns the tensor whose shape is (N, D) followed
    by exactly D − 1 singleton dimensions and whose elements are those of the
    array, converted to [float64], each at the same place: element (i, j) of
    the array is element (i, j, 0, …, 0) of the tensor.  The function reads
    its argument only: its result is a function of the array, and the array
    is not rebound or written. *)
Theorem convert_index_points_2d (array : ndarray A) (N D : Z) :
  nd_shape array = [N; D] →
  Z.of_nat (length (nd_data array)) = (N * D)%Z →
  (1 ≤ D)%Z →
  ∃ t : ndarray F,
    convert_index_points to_float64 array = Ok t
    ∧ nd_shape t = [N; D] ++ repeat 1%Z (Z.to_nat (D - 1))
    ∧ Z.of_nat (length (nd_shape t)) = (2 + (D - 1))%Z
    ∧ nd_data t = map to_float64 (nd_data array)
    ∧ ∀ i j : Z,
        nd_get t ([i; j] ++ repeat 0%Z (Z.to_nat (D - 1)))
        = to_float64 <$> nd_get array [i; j].
Proof.
  intros Hshape Hlen HD.
  exists (mk_ndarray ([N; D] ++ repeat 1%Z (Z.to_nat (D - 1)))
                     (map to_float64 (nd_data array))).
  split.
  - unfold convert_index_points. rewrite Hshape. simpl lookup.
    unfold tf_constant, tuple_repeat. rewrite Hshape.
    destruct (decide _) as [_|_]; [done|].
    rewrite num_elements_app, num_elements_ones, length_map, Hlen.
    simpl num_elements.
    replace (N * (D * 1) * 1 =? N * D)%Z with true; [done|].
    symmetry. apply Z.eqb_eq. lia.
  - repeat split.
    + simpl. rewrite repeat_length. lia.
    + intros i j. unfold nd_get.
      change (nd_shape (mk_ndarray ?s ?d)) with s.
      change (nd_data (mk_ndarray ?s ?d)) with d.
      rewrite (ravel_trailing_ones [N; D] [i; j]) by done.
      rewrite Hshape, map_is_fmap. apply list_lookup_fmap.
Qed.

End IndexPointsFacts.

(** A 2 × 3 array of integers. *)
Lemma convert_index_points_2d_witness :
  ∃ t : ndarray float,
    convert_index_points float_of_Z (mk_ndarray [2; 3]%Z [1; 2; 3; 4; 5; 6]%Z) = Ok t
    ∧ nd_shape t = [2; 3; 1; 1]%Z
    ∧ nd_get t [1; 2; 0; 0]%Z = Some 6%float.
Proof.
  destruct (convert_index_points_2d float_of_Z
              (mk_ndarray [2; 3]%Z [1; 2; 3; 4; 5; 6]%Z) 2 3)
    as (t & Ht & Hs & _ & _ & Hget); [reflexivity | reflexivity | lia |].
  exists t. split; [exact Ht|]. split; [exact Hs|].
  etrans; [exact (Hget 1%Z 2%Z) | vm_compute; reflexivity].
Defined.

(* ================================================================== *)
(** * Facts: NumPy's reductions in exact arithmetic *)

Lemma Rzero_b_false (r : R) : r ≠ 0%R → Rzero_b r = false.
Proof. intros Hr. unfold Rzero_b. by destruct (Req_dec_T r 0). Qed.

Lemma Rzero_b_true : Rzero_b 0 = true.
Proof. unfold Rzero_b. by destruct (Req_dec_T 0 0). Qed.

Lemma Rneg_b_false (r : R) : (0 <= r)%R → Rneg_b r = false.
Proof. intros Hr. unfold Rneg_b. destruct (Rlt_dec r 0); [lra | done]. Qed.

Lemma x_leb_fin (a b : R) : x_leb (XFin a) (XFin b) = true ↔ (a <= b)%R.
Proof. simpl. destruct (Rle_dec a b); split; (done || lra). Qed.

Lemma XFin_inj (a b : R) : XFin a = XFin b ↔ a = b.
Proof. split; [by intros [= ->] | by intros ->]. Qed.

Lemma fold_left_x_add (l : list R) (a : R) :
  fold_left x_add (map XFin l) (XFin a) = XFin (a + Rsum l).
Proof.
  revert a. induction l as [|x l IH]; intros a; simpl.
  - f_equal. lra.
  - rewrite IH. f_equal. lra.
Qed.

Lemma np_sum_fin (l : list R) : np_sum (map XFin l) = XFin (Rsum l).
Proof.
  unfold np_sum. simpl f_add. simpl f_of_Z.
  rewrite fold_left_x_add. f_equal. lra.
Qed.

Lemma np_mean_fin (l : list R) :
  l ≠ [] → np_mean (map XFin l) = XFin (Rmean l).
Proof.
  intros Hl. unfold np_mean. rewrite np_sum_fin, length_map.
  simpl f_div. simpl f_of_Z. rewrite <- INR_IZR_INZ. unfold x_div.
  rewrite Rzero_b_false; [done|].
  apply not_0_INR. by destruct l.
Qed.

Lemma np_square_fin (l : list R) :
  np_square (map XFin l) = map XFin (map (fun x => (x * x)%R) l).
Proof. unfold np_square. rewrite !map_map. done. Qed.

Lemma Rsum_sq_nonneg (l : list R) : (0 <= Rsum_sq l)%R.
Proof.
  unfold Rsum_sq. induction l as [|x l IH]; simpl; [lra|].
  pose proof (Rle_0_sqr x) as Hx. unfold Rsqr in Hx. lra.
Qed.

Lemma Rsum_sq_zero (l : list R) :
  Rsum_sq l = 0%R ↔ Forall (fun x => x = 0%R) l.
Proof.
  unfold Rsum_sq. induction l as [|x l IH]; simpl.
  - split; [constructor | done].
  - pose proof (Rle_0_sqr x) as Hx. unfold Rsqr in Hx.
    pose proof (Rsum_sq_nonneg l) as Hl. unfold Rsum_sq in Hl.
    split.
    + intros Hs. assert (x * x = 0)%R as Hxx by lra.
      constructor; [by apply Rsqr_0_uniq | apply IH; lra].
    + intros Hall. inversion Hall as [|? ? Hx0 Hrest]; subst.
      apply IH in Hrest. lra.
Qed.

Lemma Rsum_nonneg (l : list R) :
  Forall (fun x => (0 <= x)%R) l → (0 <= Rsum l)%R.
Proof. induction 1 as [|x l Hx _ IH]; simpl; lra. Qed.

Lemma Rsum_zero_nonneg (l : list R) :
  Forall (fun x => (0 <= x)%R) l →
  Rsum l = 0%R → Forall (fun x => x = 0%R) l.
Proof.
  induction 1 as [|x l Hx Hl IH]; simpl; intros Hs; [constructor|].
  pose proof (Rsum_nonneg l Hl).
  constructor; [lra | apply IH; lra].
Qed.

Lemma Rsum_all_zero (l : list R) :
  Forall (fun x => x = 0%R) l → Rsum l = 0%R.
Proof. induction 1 as [|x l Hx _ IH]; simpl; lra. Qed.

Lemma INR_length_pos {A : Type} (l : list A) : l ≠ [] → (0 < INR (length l))%R.
Proof. intros Hl. apply lt_0_INR. destruct l; [done | simpl; lia]. Qed.

(** [sharpness] on finite values is the root mean square. *)
Lemma sharpness_fin (l : list R) :
  l ≠ [] → sharpness (map XFin l) = XFin (Rrms l).
Proof.
  intros Hl. unfold sharpness. rewrite np_square_fin, np_mean_fin.
  - simpl f_sqrt. unfold x_sqrt, Rmean. rewrite length_map.
    rewrite Rneg_b_false; [done|].
    apply Rmult_le_pos; [apply Rsum_sq_nonneg|].
    left. apply Rinv_0_lt_compat. by apply INR_length_pos.
  - by destruct l.
Qed.

Lemma sub_mean_fin (l : list R) (m : R) :
  map (fun s => f_sub s (XFin m)) (map XFin l)
  = map XFin (map (fun x => (x - m)%R) l).
Proof. rewrite !map_map. done. Qed.

Lemma x_sqrt_fin (r : R) : (0 <= r)%R → f_sqrt (XFin r) = XFin (sqrt r).
Proof. intros Hr. simpl. by rewrite Rneg_b_false. Qed.

Lemma denominator_fin (m : R) (n : nat) :
  f_mul (XFin m) (f_of_Z (Z.of_nat n - 1)) = XFin (m * (INR n - 1)).
Proof. simpl. by rewrite minus_IZR, <- INR_IZR_INZ. Qed.

(** [variation] and the specification's reading of it on finite values:
    both quotients, before the division is carried out. *)
Lemma variation_fin (l : list R) :
  l ≠ [] →
  variation (map XFin l)
  = x_div (XFin (sqrt (Rsum_sq_dev l)))
          (XFin (Rmean l * (INR (length l) - 1))).
Proof.
  intros Hl. unfold variation.
  rewrite np_mean_fin, sub_mean_fin, np_square_fin, np_sum_fin by done.
  rewrite length_map, denominator_fin, x_sqrt_fin by apply Rsum_sq_nonneg.
  done.
Qed.

Lemma variation_spec_fin (l : list R) :
  l ≠ [] →
  variation_spec (map XFin l)
  = x_div (XFin (Rpop_stddev l))
          (XFin (Rmean l * (INR (length l) - 1))).
Proof.
  intros Hl. unfold variation_spec, population_stddev.
  rewrite np_mean_fin, sub_mean_fin, np_square_fin by done.
  rewrite np_mean_fin by (by destruct l).
  rewrite length_map, denominator_fin. unfold Rmean at 1.
  rewrite !length_map, x_sqrt_fin; [done|].
  apply Rmult_le_pos; [apply Rsum_sq_nonneg|].
  left. apply Rinv_0_lt_compat. by apply INR_length_pos.
Qed.

Lemma Rsum_sq_dev_all_zero (l : list R) :
  Forall (fun x => x = 0%R) l → Rsum_sq_dev l = 0%R.
Proof.
  intros Hall. unfold Rsum_sq_dev. apply Rsum_sq_zero.
  assert (Rmean l = 0%R) as ->.
  { unfold Rmean. rewrite Rsum_all_zero by done. lra. }
  apply Forall_map. eapply Forall_impl; [exact Hall|].
  simpl. intros x ->. lra.
Qed.

Lemma Rsum_sq_dev_singleton (x : R) : Rsum_sq_dev [x] = 0%R.
Proof. unfold Rsum_sq_dev, Rsum_sq, Rmean. simpl. field. Qed.

Lemma Rsum_pos (l : list R) :
  Forall (fun x => (0 <= x)%R) l → Exists (fun x => x ≠ 0%R) l →
  (0 < Rsum l)%R.
Proof.
  intros Hnn Hex. pose proof (Rsum_nonneg l Hnn) as Hge.
  destruct (Req_dec_T (Rsum l) 0) as [Hz|Hz]; [|lra].
  apply Rsum_zero_nonneg in Hz; [|done].
  apply Exists_exists in Hex as (x & Hin & Hx).
  rewrite Forall_forall in Hz. by specialize (Hz x Hin).
Qed.

Lemma INR_length_ge_2 {A : Type} (l : list A) :
  (2 ≤ length l)%nat → (1 <= INR (length l) - 1)%R.
Proof.
  intros Hl. apply le_INR in Hl. simpl in Hl. lra.
Qed.

(* ================================================================== *)
(** * Facts: the metrics *)

(** C4 (as amended).  In exact arithmetic, for N ≥ 2 finite standard
    deviations whose mean is not zero, [variation] is the root of the sum of
    the squared deviations from the mean (the sum is not divided by N),
    divided by (mean × (N − 1)); that is √N times the quotient of the
    population standard deviation by (mean × (N − 1)). *)
Theorem variation_exact (l : list R) :
  (2 ≤ length l)%nat →
  Rmean l ≠ 0%R →
  variation (map XFin l)
    = XFin (sqrt (Rsum_sq_dev l) / (Rmean l * (INR (length l) - 1)))
  ∧ variation_spec (map XFin l)
    = XFin (Rpop_stddev l / (Rmean l * (INR (length l) - 1)))
  ∧ variation (map XFin l)
    = f_mul (XFin (sqrt (INR (length l)))) (variation_spec (map XFin l)).
Proof.
  intros Hlen Hmean.
  assert (l ≠ []) as Hl by (destruct l; [simpl in Hlen; lia | done]).
  pose proof (INR_length_ge_2 l Hlen) as Hn.
  assert (Rmean l * (INR (length l) - 1) ≠ 0)%R as Hd.
  { apply Rmult_integral_contrapositive_currified; [done | lra]. }
  rewrite variation_fin, variation_spec_fin by done.
  unfold x_div. rewrite Rzero_b_false by done.
  repeat split. simpl f_mul. f_equal.
  assert (sqrt (Rsum_sq_dev l)
          = sqrt (INR (length l)) * Rpop_stddev l)%R as ->.
  { unfold Rpop_stddev. rewrite <- sqrt_mult_alt by lra.
    f_equal. field. lra. }
  field. split; [lra | done].
Qed.

Lemma variation_exact_witness :
  variation (map XFin [1; 3]%R)
  = XFin (sqrt (Rsum_sq_dev [1; 3]%R) / (Rmean [1; 3]%R * (INR 2 - 1))).
Proof.
  destruct (variation_exact [1; 3]%R) as [Hv _]; [| | exact Hv].
  - simpl. lia.
  - unfold Rmean. simpl. lra.
Defined.

(** C4 as stated fails: on the standard deviations 1 and 3 (mean 2, sum of
    squared deviations 2, population standard deviation 1) the code returns
    √2 / 2 and the specification's quotient is 1 / 2. *)
Lemma variation_differs_from_spec :
  variation [1; 3]%float = 0x1.6a09e667f3bcdp-1%float
  ∧ variation_spec [1; 3]%float = 0.5%float
  ∧ variation [1; 3]%float ≠ variation_spec [1; 3]%float.
Proof.
  split; [vm_compute; reflexivity|]. split; [vm_compute; reflexivity|].
  intros Heq.
  apply (f_equal (fun x => PrimFloat.eqb x 0.5)) in Heq.
  vm_compute in Heq. discriminate.
Qed.

(** C5 (as amended).  In exact arithmetic, for every non-empty vector of
    finite standard deviations: [sharpness] is their root mean square, it is
    ≥ 0, and it is 0 exactly when all of them are 0; and when none of them is
    negative, [variation] is ≥ 0 exactly when there are at least two of them
    and not all are 0. *)
Theorem sharpness_variation_exact (l : list R) :
  l ≠ [] →
  sharpness (map XFin l) = XFin (Rrms l)
  ∧ f_leb (XFin 0) (sharpness (map XFin l)) = true
  ∧ (sharpness (map XFin l) = XFin 0 ↔ Forall (fun x => x = 0%R) l)
  ∧ (Forall (fun x => (0 <= x)%R) l →
     (f_leb (XFin 0) (variation (map XFin l)) = true
      ↔ (2 ≤ length l)%nat ∧ Exists (fun x => x ≠ 0%R) l)).
Proof.
  intros Hl. pose proof (INR_length_pos l Hl) as Hn.
  rewrite sharpness_fin by done. split; [done|]. split; [|split].
  - apply x_leb_fin. apply sqrt_pos.
  - rewrite XFin_inj. unfold Rrms. rewrite <- Rsum_sq_zero. split.
    + intros Hs. apply sqrt_eq_0 in Hs.
      * apply Rmult_integral in Hs as [Hs|Hs]; [done|].
        apply Rinv_neq_0_compat in Hs; [done | lra].
      * apply Rmult_le_pos; [apply Rsum_sq_nonneg|].
        left. by apply Rinv_0_lt_compat.
    + intros ->. unfold Rdiv. rewrite Rmult_0_l. apply sqrt_0.
  - intros Hnn. rewrite variation_fin by done. split.
    + intros Hle.
      assert (Rsum_sq_dev l = 0%R →
              (Rmean l * (INR (length l) - 1))%R = 0%R → False) as Hnan.
      { intros Hs Hd. rewrite Hs, Hd, sqrt_0 in Hle. simpl in Hle.
        rewrite Rzero_b_true in Hle. discriminate. }
      destruct (Forall_Exists_dec (fun x => x = 0%R) (fun x => x ≠ 0%R)
                  (fun x => Req_dec_T x 0) l) as [Hall|Hex].
      { exfalso. apply Hnan; [by apply Rsum_sq_dev_all_zero|].
        unfold Rmean. rewrite Rsum_all_zero by done. lra. }
      split; [|done].
      destruct l as [|x [|y l']]; [done | | simpl; lia].
      exfalso. apply Hnan; [apply Rsum_sq_dev_singleton|]. simpl. lra.
    + intros [Hlen Hex].
      pose proof (INR_length_ge_2 l Hlen) as Hn1.
      pose proof (Rsum_pos l Hnn Hex) as Hsum.
      assert (0 < Rmean l)%R as Hm.
      { unfold Rmean. apply Rmult_lt_0_compat; [done|].
        by apply Rinv_0_lt_compat. }
      assert (0 < Rmean l * (INR (length l) - 1))%R as Hd.
      { apply Rmult_lt_0_compat; lra. }
      unfold x_div. rewrite Rzero_b_false by lra.
      apply x_leb_fin. apply Rmult_le_pos; [apply sqrt_pos|].
      left. by apply Rinv_0_lt_compat.
Qed.

Lemma sharpness_variation_exact_witness :
  sharpness (map XFin [3; 4]%R) = XFin (Rrms [3; 4]%R).
Proof.
  destruct (sharpness_variation_exact [3; 4]%R) as [Hs _]; [done | exact Hs].
Defined.

(** C5 as stated fails: for the single standard deviation 2.0 the mean is
    2.0, the sum of squared deviations 0.0, the denominator 2.0 × 0, and
    [variation] is 0.0 / 0.0, a NaN, which is not ≥ 0; for no standard
    deviation at all [sharpness] is a NaN as well; and in binary64 the
    square of 2^-600 underflows, so that [sharpness] is 0 for a standard
    deviation that is not. *)
Lemma variation_of_one_stddev_is_nan :
  f_isnan (variation [2%float]) = true
  ∧ f_leb 0%float (variation [2%float]) = false
  ∧ f_isnan (sharpness (@nil float)) = true
  ∧ sharpness [0x1p-600%float] = 0%float
  ∧ PrimFloat.eqb 0x1p-600 0 = false.
Proof. vm_compute. done. Qed.

Section PisFacts.
Context {F : Type} `{Float64 F} (quantile : F → F).

Lemma np_broadcast_same (op : F → F → F) (a b : list F) :
  length a = length b → np_broadcast op a b = Ok (zip_with op a b).
Proof. intros Hlen. unfold np_broadcast. by rewrite decide_True. Qed.

Lemma length_np_linspace (start stop : F) (num : nat) :
  length (np_linspace start stop num) = num.
Proof.
  unfold np_linspace.
  assert (∀ l : list F,
            length (if (1 <? num)%nat then <[pred num := stop]> l else l)
            = length l) as Hins.
  { intros l. destruct (1 <? num)%nat; [apply length_insert | done]. }
  rewrite Hins, length_map.
  destruct (0 <? Z.of_nat num - 1)%Z; [destruct (f_eqb _ _)|];
    by rewrite !length_map, length_seq.
Qed.

Lemma np_count_nonzero_leb (norm_resids : list F) (bound : F) :
  np_count_nonzero (map (fun r => f_leb r bound) norm_resids)
  = Z.of_nat (length (filter (fun r => f_leb r bound = true) norm_resids)).
Proof.
  unfold np_count_nonzero. f_equal.
  induction norm_resids as [|r l IH]; [done|].
  simpl map. rewrite !filter_cons.
  destruct (decide (f_leb r bound = true)); simpl; by rewrite IH.
Qed.

(** [pis] on arrays of one length: the levels of [np.linspace(0, 1, 100)], and
    for each level the fraction of normalized residuals at or below its
    quantile. *)
Lemma pis_same_length (mean val_obs stddevs : list F) :
  length mean = length val_obs →
  length stddevs = length val_obs →
  pis quantile mean val_obs stddevs
  = Ok (np_linspace (f_of_Z 0) (f_of_Z 1) 100,
        map (fun level =>
               empirical_fraction
                 (zip_with f_div (zip_with f_sub mean val_obs) stddevs)
                 (quantile level))
            (np_linspace (f_of_Z 0) (f_of_Z 1) 100)).
Proof.
  intros Hm Hs. unfold pis, residuals.
  rewrite np_broadcast_same by done. simpl mbind.
  rewrite np_broadcast_same by (rewrite length_zip_with; lia). simpl mbind.
  f_equal. f_equal. rewrite !map_map. apply map_ext. intros level.
  unfold empirical_fraction. by rewrite np_count_nonzero_leb.
Qed.

End PisFacts.

(** [np.linspace(0, 1, 100)] in exact arithmetic: the levels i / 99. *)
Lemma np_linspace_exact :
  np_linspace (F:=xreal) (f_of_Z 0) (f_of_Z 1) 100
  = map (fun i => XFin (INR i / 99)) (seq 0 100).
Proof.
  unfold np_linspace.
  change (0 <? Z.of_nat 100 - 1)%Z with true.
  change (1 <? 100)%nat with true.
  change (Z.of_nat 100 - 1)%Z with 99%Z.
  change (pred 100) with 99%nat.
  cbv iota.
  assert (f_div (f_sub (f_of_Z 1) (f_of_Z 0)) (f_of_Z 99) = XFin (1 / 99)) as ->.
  { simpl. rewrite Rzero_b_false by lra. f_equal. lra. }
  assert (f_eqb (XFin (1 / 99)) (f_of_Z 0) = false) as ->.
  { simpl. destruct (Req_dec_T (1 / 99) 0); [lra | done]. }
  rewrite !map_map.
  change (seq 0 100) with (seq 0 99 ++ [99%nat]).
  rewrite !map_app.
  rewrite insert_app_r_alt by (by rewrite length_map, length_seq).
  rewrite length_map, length_seq, Nat.sub_diag. simpl insert.
  f_equal.
  - apply map_ext. intros i. simpl. rewrite <- INR_IZR_INZ. f_equal. lra.
  - change (map (fun i => XFin (INR i / 99)) [99%nat])
      with [XFin (INR 99 / 99)].
    f_equal. f_equal. rewrite INR_IZR_INZ.
    change (Z.of_nat 99) with 99%Z. lra.
Qed.

(** C7.  For residual and standard-deviation vectors of one length, [pis]
    returns two sequences of length 100: the levels, evenly spaced from 0 to
    1 (level i is i / 99 for i = 0 … 99, in exact arithmetic), and for each
    level the fraction (count divided by the number of residuals) of the
    normalized residuals (mean − observation) / stddev that are ≤ the
    standard-normal quantile of that level. *)
Theorem pis_levels_and_fractions (quantile : xreal → xreal)
    (mean val_obs stddevs : list xreal) :
  length mean = length val_obs →
  length stddevs = length val_obs →
  ∃ predicted_pi observed_pi : list xreal,
    pis quantile mean val_obs stddevs = Ok (predicted_pi, observed_pi)
    ∧ length predicted_pi = 100%nat
    ∧ length observed_pi = 100%nat
    ∧ ∀ i : nat, (i < 100)%nat →
        predicted_pi !! i = Some (XFin (INR i / 99))
        ∧ observed_pi !! i
          = Some (empirical_fraction
                    (zip_with f_div (zip_with f_sub mean val_obs) stddevs)
                    (quantile (XFin (INR i / 99)))).
Proof.
  intros Hm Hs. eexists _, _. split; [by apply pis_same_length|].
  rewrite length_map, length_np_linspace. split; [done|]. split; [done|].
  intros i Hi. rewrite np_linspace_exact, !map_is_fmap, !list_lookup_fmap.
  rewrite lookup_seq_lt by done. done.
Qed.

Lemma pis_levels_and_fractions_witness :
  ∃ predicted_pi observed_pi : list xreal,
    pis (fun p => p) [XFin 1; XFin 3] [XFin 0; XFin 5] [XFin 2; XFin 2]
    = Ok (predicted_pi, observed_pi)
    ∧ length predicted_pi = 100%nat
    ∧ length observed_pi = 100%nat.
Proof.
  destruct (pis_levels_and_fractions (fun p => p)
              [XFin 1; XFin 3] [XFin 0; XFin 5] [XFin 2; XFin 2])
    as (p & o & Hpis & Hp & Ho & _); [reflexivity | reflexivity |].
  exists p, o. split; [exact Hpis|]. split; [exact Hp | exact Ho].
Defined.

(** The same levels in binary64: they start at 0, end at 1 and increase. *)
Lemma np_linspace_binary64 :
  let levels := np_linspace 0%float 1%float 100 in
  head levels = Some 0%float
  ∧ last levels = Some 1%float
  ∧ levels !! 1%nat = Some (PrimFloat.div 1 99)
  ∧ increasing levels = true.
Proof. vm_compute. done. Qed.

(** [pis] run on residuals 0.5 and −1 with unit standard deviations and the
    toy quantile 6p − 3: no residual is below the first bound, both are at or
    below the last. *)
Lemma pis_binary64_example :
  ∃ predicted_pi observed_pi : list float,
    pis (fun p => PrimFloat.sub (PrimFloat.mul 6 p) 3)
        [1.5; 1]%float [1; 2]%float [1; 1]%float
    = Ok (predicted_pi, observed_pi)
    ∧ head observed_pi = Some 0%float
    ∧ observed_pi !! 50%nat = Some 0.5%float
    ∧ last observed_pi = Some 1%float.
Proof. eexists _, _. vm_compute. done. Qed.

(* ================================================================== *)
(** * Facts: construction and prediction *)

Section TrainerFacts.
Context {F : Type} `{Float64 F} `{Backend F}.

(** When construction succeeds: a function of the index points' shape. *)
Lemma GPTrainer_init_observations_irrelevant
    (index_points observations' : ndarray F) (checkpoint_dir : option string)
    (w : World) :
  (∃ t : GPTrainer,
     GPTrainer_init index_points observations' checkpoint_dir w = Ok t)
  ↔ (∃ d : Z, nd_shape index_points !! 1%nat = Some d ∧ (0 < d)%Z).
Proof.
  unfold GPTrainer_init. split.
  - intros (t & Hinit).
    destruct (nd_shape index_points !! 1%nat) as [d|]; [|done].
    exists d. split; [done|].
    destruct (Z.leb_spec d 0); [done | lia].
  - intros (d & -> & Hd).
    destruct (Z.leb_spec d 0) as [Hle|_]; [lia|].
    destruct (if truthy_str checkpoint_dir then checkpoint_dir else None)
      as [dir|]; [destruct (checkpoints w !! dir) as [c|]|]; by eexists.
Qed.

(** C3 (as amended).  The constructor compares the observations with
    nothing: it succeeds exactly when the index points have a second
    dimension and that dimension is positive, whatever the observations are,
    and stores both as given. *)
Theorem GPTrainer_init_ignores_observations
    (index_points observations' : ndarray F) (checkpoint_dir : option string)
    (w : World) :
  (∃ t : GPTrainer,
     GPTrainer_init index_points observations' checkpoint_dir w = Ok t
     ∧ observation_index_points t = index_points
     ∧ observations t = observations')
  ↔ (∃ d : Z, nd_shape index_points !! 1%nat = Some d ∧ (0 < d)%Z).
Proof.
  unfold GPTrainer_init. split.
  - intros (t & Hinit & _).
    destruct (nd_shape index_points !! 1%nat) as [d|]; [|done].
    exists d. split; [done|].
    destruct (Z.leb_spec d 0); [done | lia].
  - intros (d & -> & Hd).
    destruct (Z.leb_spec d 0) as [Hle|_]; [lia|].
    destruct (if truthy_str checkpoint_dir then checkpoint_dir else None)
      as [dir|]; [destruct (checkpoints w !! dir) as [c|]|];
      eexists; (split; [reflexivity | done]).
Qed.

(** C9.  [predict] returns the mean and the standard deviation of the model
    that [get_model] builds for the given points: the regression model at
    those very points, conditioned on the trainer's index points and
    observations with its current amplitude and length scale; the result
    depends on nothing else of the trainer (not on the step counter, the
    loss or the metrics).  And it leaves the trainer as it was: after any
    sequence of calls the trainer (amplitude, length scale, step counter,
    loss, metrics and all the rest) is the one before them, and a call
    returns what it would have returned before them. *)
Theorem predict_reads_only (t : GPTrainer) (points : ndarray F) :
  index_points (get_model t points).1 = points
  ∧ (get_model t points).2 = t
  ∧ (predict t points).1
    = (model_mean t (get_model t points).1,
       model_stddev t (get_model t points).1)
  ∧ (predict t points).1
    = (gprm_mean (observation_index_points t) (observations t) (amplitude t)
                 (length_scale t) points,
       gprm_stddev (observation_index_points t) (observations t)
                   (amplitude t) (length_scale t) points)
  ∧ (∀ t2 : GPTrainer,
       kernel t2 = kernel t → (predict t2 points).1 = (predict t points).1)
  ∧ ∀ calls : list (ndarray F),
      fold_left (fun t p => (predict t p).2) calls t = t
      ∧ (predict (fold_left (fun t p => (predict t p).2) calls t) points).1
        = (predict t points).1.
Proof.
  split; [done|]. split; [done|]. split; [done|]. split; [done|].
  split.
  - intros t2 Hk. unfold predict, get_model, model_mean, model_stddev.
    destruct t, t2. unfold kernel in Hk. simpl in *.
    by injection Hk as -> -> -> -> _.
  - intros calls.
    assert (fold_left (fun t p => (predict t p).2) calls t = t) as ->; [|done].
    induction calls as [|p calls IH]; [done|]. simpl. exact IH.
Qed.

End TrainerFacts.

(** C3 as stated fails: two index points and three observations construct a
    trainer. *)
Lemma GPTrainer_init_mismatched_counts :
  nd_shape Toy.index_points = [2; 1]%Z
  ∧ nd_shape Toy.observations3 = [3]%Z
  ∧ ∃ t : GPTrainer,
      GPTrainer_init Toy.index_points Toy.observations3 None Toy.world = Ok t.
Proof. split; [done|]. split; [done|]. eexists. vm_compute. reflexivity. Qed.

(* ================================================================== *)
(** * Facts: the generator, step by step *)

Section GeneratorFacts.
Context {F : Type} `{Float64 F} `{Backend F}.
Implicit Types (a : @TrainArgs F) (t : @GPTrainer F _) (w : @World F _)
  (gm : @GPMetrics F).

Lemma kernel_stepped t t' :
  kernel t = kernel t' → kernel (stepped t) = kernel (stepped t').
Proof.
  destruct t, t'. unfold kernel, stepped, optimize_cycle. simpl.
  intros [= -> -> -> -> ->].
  by destruct (adam_step _ _ _ _ _) as [l [[amp ls] opt]].
Qed.

Lemma kernel_set_metrics t m : kernel (set_metrics t m) = kernel t.
Proof. done. Qed.

Lemma nll_kernel a t t' : kernel t = kernel t' → nll a t = nll a t'.
Proof.
  destruct t, t'. unfold kernel, nll, model_log_prob. simpl.
  by intros [= -> -> -> -> _].
Qed.

Lemma ckpt_manager_stepped t : ckpt_manager (stepped t) = ckpt_manager t.
Proof.
  unfold stepped, optimize_cycle.
  by destruct (adam_step _ _ _ _ _) as [l [[amp ls] opt]].
Qed.

Lemma metrics_stepped t : metrics (stepped t) = metrics t.
Proof.
  unfold stepped, optimize_cycle.
  by destruct (adam_step _ _ _ _ _) as [l [[amp ls] opt]].
Qed.

Lemma data_stepped t :
  observation_index_points (stepped t) = observation_index_points t
  ∧ observations (stepped t) = observations t.
Proof.
  unfold stepped, optimize_cycle.
  by destruct (adam_step _ _ _ _ _) as [l [[amp ls] opt]].
Qed.

Lemma training_steps_stepped t :
  training_steps (stepped t) = wrap_int32 (training_steps t + 1).
Proof.
  unfold stepped, optimize_cycle.
  by destruct (adam_step _ _ _ _ _) as [l [[amp ls] opt]].
Qed.


Lemma finish_unfold a t w :
  ∃ w', finish a t w = (StopIteration, Finished, t, w')
        ∧ lists w' = lists w ∧ checkpoints w' = checkpoints w.
Proof.
  unfold finish. destruct (save_dir a) as [dir|]; [|by eexists].
  destruct (truthy_str _); by eexists.
Qed.

(** What an entry into the loop at index [i] can do. *)
Lemma iteration_cases a i best ssi gm t w s fr t' w' :
  iteration a i best ssi gm t w = (s, fr, t', w') →
  lists w' = lists w ∧ checkpoints w' = checkpoints w
  ∧ ckpt_manager t' = ckpt_manager t
  ∧ (((epochs a ≤ i)%Z ∧ s = StopIteration ∧ fr = Finished ∧ t' = t)
     ∨ ((i < epochs a)%Z ∧ w' = w ∧ kernel t' = kernel (stepped t)
        ∧ training_steps t' = training_steps (stepped t)
        ∧ loss t' = loss (stepped t)
        ∧ ((∃ e, s = Raised e ∧ fr = Finished)
           ∨ (∃ d gm', s = Yield d ∧ fr = AtYield i best ssi gm')))).
Proof.
  unfold iteration. destruct (Z.ltb_spec i (epochs a)) as [Hi|Hi].
  - destruct (metric_dict_from _ _ _ _ _) as [d|e].
    + destruct (assign_metrics d _) as [m [e|]]; intros [= <- <- <- <-];
        (split; [done|]); (split; [done|]);
        (split; [apply ckpt_manager_stepped|]); right; repeat split; eauto.
    + intros [= <- <- <- <-]. split; [done|]. split; [done|].
      split; [apply ckpt_manager_stepped|]. right. repeat split; eauto.
  - destruct (finish_unfold a t w) as (w1 & -> & Hl & Hc).
    intros [= <- <- <- <-]. repeat split; try done. left. done.
Qed.

Lemma resume_cases a i best ssi gm t w s fr t' w' :
  resume a i best ssi gm t w = (s, fr, t', w') →
  lists w' = lists w ∧ ckpt_manager t' = ckpt_manager t
  ∧ ((fr = Finished ∧ ∀ d, s ≠ Yield d)
     ∨ ∃ d best' ssi' gm', s = Yield d ∧ fr = AtYield (i + 1) best' ssi' gm'
                           ∧ (i + 1 < epochs a)%Z).
Proof.
  unfold resume. intros Hres.
  assert (∀ best ssi w0, lists w0 = lists w →
            iteration a (i + 1) best ssi gm t w0 = (s, fr, t', w') →
            lists w' = lists w ∧ ckpt_manager t' = ckpt_manager t
            ∧ ((fr = Finished ∧ ∀ d, s ≠ Yield d)
               ∨ ∃ d best' ssi' gm', s = Yield d
                   ∧ fr = AtYield (i + 1) best' ssi' gm'
                   ∧ (i + 1 < epochs a)%Z)) as Hit.
  { intros b n w0 Hw0 Hiter.
    apply iteration_cases in Hiter as (Hl & _ & Hc & Hcases).
    split; [congruence|]. split; [done|].
    destruct Hcases as [(_ & -> & -> & _) | (Hi & _ & _ & _ & _ & [(e & -> & ->) | (d & gm' & -> & ->)])];
      eauto 8. }
  assert (finish a t w = (s, fr, t', w') →
          lists w' = lists w ∧ ckpt_manager t' = ckpt_manager t
          ∧ ((fr = Finished ∧ ∀ d, s ≠ Yield d)
             ∨ ∃ d best' ssi' gm', s = Yield d
                 ∧ fr = AtYield (i + 1) best' ssi' gm'
                 ∧ (i + 1 < epochs a)%Z)) as Hfin.
  { destruct (finish_unfold a t w) as (w1 & -> & Hl & _).
    intros [= <- <- <- <-]. eauto. }
  destruct (truthy_int (patience a) || has_ckpt_manager t); [|by eapply Hit].
  destruct (f_ltb _ _).
  - eapply Hit; [|exact Hres]. by destruct (ckpt_manager t).
  - destruct (match patience a with Some _ => _ | None => _ end);
      [by apply Hfin | by eapply Hit].
Qed.

(** The first [next]: the list of metric names gets ["nll"] appended when
    early stopping or checkpointing needs it, and is not written again. *)
Lemma start_cases a t w s fr t' w' :
  start a t w = (s, fr, t', w') →
  read_list w' (metrics_arg a) = names_at_start a t w
  ∧ (∀ l, l ≠ metrics_arg a → read_list w' l = read_list w l)
  ∧ checkpoints w' = checkpoints w
  ∧ ckpt_manager t' = ckpt_manager t
  ∧ ((fr = Finished ∧ ∀ d, s ≠ Yield d)
     ∨ ∃ d best' ssi' gm', s = Yield d ∧ fr = AtYield 0 best' ssi' gm'
                           ∧ (0 < epochs a)%Z).
Proof.
  unfold start. intros Hit.
  apply iteration_cases in Hit as (Hl & Hc & Hm & Hcases).
  assert ((fr = Finished ∧ ∀ d, s ≠ Yield d)
          ∨ ∃ d best' ssi' gm', s = Yield d ∧ fr = AtYield 0 best' ssi' gm'
                                ∧ (0 < epochs a)%Z) as Hfr.
  { destruct Hcases as [(_ & -> & -> & _) | (Hi & _ & _ & _ & _ & [(e & -> & ->) | (d & gm' & -> & ->)])];
      eauto 8. }
  unfold names_at_start, read_list in *. rewrite Hl, Hc.
  destruct (_ && _).
  - simpl. rewrite lookup_insert_eq. repeat split; try done.
    intros l Hne. by rewrite lookup_insert_ne.
  - done.
Qed.

End GeneratorFacts.

Section DriveFacts.
Context {F : Type} `{Float64 F} `{Backend F}.
Implicit Types (a : @TrainArgs F) (t : @GPTrainer F _) (w : @World F _)
  (gm : @GPMetrics F) (g : @generator F).

Lemma next_at_yield a i best ssi gm t w :
  next (mk_generator a (AtYield i best ssi gm)) t w
  = let '(s, fr, t', w') := resume a i best ssi gm t w in
    (s, mk_generator a fr, t', w').
Proof. done. Qed.

Lemma next_created a t w :
  next (train_model a) t w
  = let '(s, fr, t', w') := start a t w in (s, mk_generator a fr, t', w').
Proof. done. Qed.

Lemma train_unfold a t w :
  train a t w
  = let '(s, g, t1, w1) := next (train_model a) t w in
    match s with
    | Yield _ =>
        let '(tr, g', t', w') := drive (Z.to_nat (epochs a)) g t1 w1 in
        ((s, t1) :: tr, g', t', w')
    | _ => ([(s, t1)], g, t1, w1)
    end.
Proof. done. Qed.

(** A generator that has started never writes the lists again, and keeps
    its arguments and the trainer's checkpoint manager. *)
Lemma next_started g t w s g' t' w' :
  g_frame g ≠ Created →
  next g t w = (s, g', t', w') →
  lists w' = lists w ∧ g_frame g' ≠ Created ∧ g_args g' = g_args g
  ∧ ckpt_manager t' = ckpt_manager t.
Proof.
  unfold next. destruct (g_frame g) as [|i best ssi gm|] eqn:Hfr; [done| |].
  - intros _.
    destruct (resume _ _ _ _ _ _ _) as [[[s1 fr1] t1] w1] eqn:Hres.
    intros [= <- <- <- <-].
    apply resume_cases in Hres
      as (Hl & Hc & [[-> _]|(d & b & n & gm' & _ & -> & _)]); done.
  - intros _ [= <- <- <- <-]. done.
Qed.

Lemma drive_started n g t w tr g' t' w' :
  g_frame g ≠ Created →
  drive n g t w = (tr, g', t', w') →
  lists w' = lists w ∧ g_args g' = g_args g
  ∧ ckpt_manager t' = ckpt_manager t.
Proof.
  revert g t w tr g' t' w'.
  induction n as [|n IH]; intros g t w tr g' t' w' Hfr; simpl.
  - by intros [= <- <- <- <-].
  - destruct (next g t w) as [[[s g1] t1] w1] eqn:Hnext.
    apply next_started in Hnext as (Hl & Hfr1 & Ha & Hc); [|done].
    destruct s; try (intros [= <- <- <- <-]; done).
    destruct (drive n g1 t1 w1) as [[[tr2 g2] t2] w2] eqn:Hdrive.
    intros [= <- <- <- <-].
    apply IH in Hdrive as (Hl2 & Ha2 & Hc2); [|done].
    repeat split; congruence.
Qed.

Lemma train_world_lists a t w : lists (train a t w).2 = lists (start a t w).2.
Proof.
  unfold train. simpl drive. unfold next. simpl g_frame. simpl g_args.
  destruct (start a t w) as [[[s1 fr1] t1] w1] eqn:Hstart.
  apply start_cases in Hstart as (_ & _ & _ & _ & Hfr).
  assert (fr1 ≠ Created) as Hne.
  { by destruct Hfr as [[-> _]|(d & b & n & gm' & _ & -> & _)]. }
  destruct s1; try done.
  destruct (drive _ _ t1 w1) as [[[tr2 g2] t2] w2] eqn:Hdrive.
  by apply drive_started in Hdrive as (Hl & _ & _).
Qed.

(** A full run leaves the list of metric names as the first [next] made
    it, and every other list as it found it. *)
Lemma train_lists a t w :
  read_list (train a t w).2 (metrics_arg a) = names_at_start a t w
  ∧ ∀ l, l ≠ metrics_arg a → read_list (train a t w).2 l = read_list w l.
Proof.
  unfold read_list. rewrite train_world_lists.
  destruct (start a t w) as [[[s1 fr1] t1] w1] eqn:Hstart.
  apply start_cases in Hstart as (Hnames & Hother & _). by split.
Qed.

(** With enough calls of [next] the generator finishes. *)
Lemma drive_finishes n a i best ssi gm t w :
  (i < epochs a)%Z →
  (Z.to_nat (epochs a - i) ≤ n)%nat →
  g_frame (drive n (mk_generator a (AtYield i best ssi gm)) t w).1.1.2
  = Finished.
Proof.
  revert i best ssi gm t w.
  induction n as [|n IH]; intros i best ssi gm t w Hi Hn; [lia|].
  simpl drive. unfold next. simpl g_frame. simpl g_args.
  destruct (resume a i best ssi gm t w) as [[[s1 fr1] t1] w1] eqn:Hres.
  apply resume_cases in Hres as (_ & _ & Hfr).
  destruct Hfr as [[-> Hs]|(d & b & k & gm' & -> & -> & Hi1)].
  - destruct s1; [by destruct (Hs metric_dict)|done|done].
  - specialize (IH (i + 1)%Z b k gm' t1 w1 Hi1).
    destruct (drive n _ t1 w1) as [[[tr2 g2] t2] w2] eqn:Hdrive.
    simpl. apply IH. lia.
Qed.

(** [list(train_model(...))] always comes to an end. *)
Lemma train_finishes a t w : g_frame (train a t w).1.1.2 = Finished.
Proof.
  unfold train. simpl drive. unfold next at 1. simpl g_frame. simpl g_args.
  destruct (start a t w) as [[[s1 fr1] t1] w1] eqn:Hstart.
  apply start_cases in Hstart as (_ & _ & _ & _ & Hfr).
  destruct Hfr as [[-> Hs]|(d & b & k & gm' & -> & -> & Hi)].
  - destruct s1; [by destruct (Hs metric_dict)|done|done].
  - pose proof (drive_finishes (Z.to_nat (epochs a)) a 0 b k gm' t1 w1 Hi) as Hd.
    destruct (drive _ _ t1 w1) as [[[tr2 g2] t2] w2] eqn:Hdrive.
    simpl in *. apply Hd. lia.
Qed.

(** C10.  When [train_model] runs with [patience] set (to a number other
    than 0) or with a checkpoint manager, and ["nll"] is not in the list it
    was given, its first [next] appends ["nll"] to that very list object; the
    list stays so to the end of the run and through any later call on the
    same list, as all calls that use the default argument are: such a call
    finds ["nll"] among its metric names. *)
Theorem train_model_appends_nll a t w :
  has_ckpt_manager t || truthy_int (patience a) = true →
  "nll" ∉ read_list w (metrics_arg a) →
  read_list (next (train_model a) t w).2 (metrics_arg a)
    = read_list w (metrics_arg a) ++ ["nll"]
  ∧ read_list (train a t w).2 (metrics_arg a)
    = read_list w (metrics_arg a) ++ ["nll"]
  ∧ ∀ (a2 : TrainArgs) (t2 : GPTrainer),
      metrics_arg a2 = metrics_arg a →
      names_at_start a2 t2 (train a t w).2
        = read_list w (metrics_arg a) ++ ["nll"]
      ∧ read_list (train a2 t2 (train a t w).2).2 (metrics_arg a)
        = read_list w (metrics_arg a) ++ ["nll"].
Proof.
  intros Hneeds Hnot.
  assert (names_at_start a t w = read_list w (metrics_arg a) ++ ["nll"])
    as Hstart.
  { unfold names_at_start. rewrite Hneeds, bool_decide_false by done. done. }
  split; [|split].
  - unfold next. simpl g_frame. simpl g_args.
    destruct (start a t w) as [[[s1 fr1] t1] w1] eqn:Hs.
    apply start_cases in Hs as (Hnames & _). simpl. congruence.
  - destruct (train_lists a t w) as [-> _]. done.
  - intros a2 t2 Harg.
    assert (names_at_start a2 t2 (train a t w).2
            = read_list w (metrics_arg a) ++ ["nll"]) as Hlater.
    { unfold names_at_start. rewrite Harg.
      destruct (train_lists a t w) as [-> _]. rewrite Hstart.
      rewrite (bool_decide_true ("nll" ∈ _ ++ ["nll"])) by set_solver.
      by rewrite andb_false_r. }
    split; [done|].
    rewrite <- Harg at 1.
    destruct (train_lists a2 t2 (train a t w).2) as [-> _]. done.
Qed.

End DriveFacts.

(** [train_model(..., patience=3)] on the default list, then
    [train_model(...)] with neither patience nor checkpoints: the default
    list holds ["nll"] after the first call and the second call yields the
    NLL. *)
Lemma train_model_appends_nll_witness :
  read_list (train Toy.args_patience3 Toy.trainer Toy.world).2 default_metrics
  = ["nll"]
  ∧ names_at_start Toy.args_default Toy.trainer
      (train Toy.args_patience3 Toy.trainer Toy.world).2 = ["nll"].
Proof.
  destruct (train_model_appends_nll Toy.args_patience3 Toy.trainer Toy.world)
    as (_ & Hrun & Hlater).
  - reflexivity.
  - vm_compute. apply not_elem_of_nil.
  - split; [exact Hrun|].
    exact (proj1 (Hlater Toy.args_default Toy.trainer eq_refl)).
Defined.

Lemma default_list_is_shared :
  let w1 := (train Toy.args_patience3 Toy.trainer Toy.world).2 in
  read_list Toy.world default_metrics = []
  ∧ read_list w1 default_metrics = ["nll"]
  ∧ (train Toy.args_default Toy.trainer w1).1.1.1.*1
    = [Yield [("nll", PFloat 0%float); ("loss", PFloat 1%float)];
       Yield [("nll", PFloat 1%float); ("loss", PFloat 2%float)];
       StopIteration].
Proof. vm_compute. done. Qed.

(* ================================================================== *)
(** * Facts: checkpoints *)

Section CheckpointFacts.
Context {F : Type} `{Float64 F} `{Backend F}.
Implicit Types (a : @TrainArgs F) (t : @GPTrainer F _) (w : @World F _)
  (gm : @GPMetrics F) (g : @generator F).

Lemma last_improvement_found best (ts : list GPTrainer) (x : GPTrainer) :
  last_improvement best ts (Some x)
  = Some (default x (last_improvement best ts None)).
Proof.
  revert best x. induction ts as [|t ts IH]; intros best x; simpl; [done|].
  destruct (f_ltb _ _); [|apply IH].
  by rewrite !(IH _ t).
Qed.

Lemma last_improvement_cons best t (ts : list GPTrainer) found :
  last_improvement best (t :: ts) found
  = if f_ltb (val_nll (metrics t)) best
    then last_improvement (val_nll (metrics t)) ts (Some t)
    else last_improvement best ts found.
Proof. done. Qed.

(** Restoring what was saved gives back what the checkpoint tracks. *)
Lemma restore_checkpoint_of t t0 :
  let fresh := restore t0 (checkpoint_of t) in
  amplitude fresh = amplitude t ∧ length_scale fresh = length_scale t
  ∧ training_steps fresh = training_steps t ∧ loss fresh = loss t
  ∧ metrics fresh = metrics t.
Proof. done. Qed.

(** The code after a [yield], with a checkpoint manager: the checkpoint is
    written exactly when the NLL improved on the best, which becomes the new
    best. *)
Lemma resume_checkpoint a i best ssi gm t w s fr t' w' dir :
  ckpt_manager t = Some dir →
  resume a i best ssi gm t w = (s, fr, t', w') →
  checkpoints w' !! dir
  = (if f_ltb (val_nll (metrics t)) best then Some (checkpoint_of t)
     else checkpoints w !! dir)
  ∧ ∀ j b n gm', fr = AtYield j b n gm' →
      b = if f_ltb (val_nll (metrics t)) best then val_nll (metrics t)
          else best.
Proof.
  intros Hdir. unfold resume, has_ckpt_manager. rewrite Hdir, orb_true_r.
  assert (∀ b n w0, iteration a (i + 1) b n gm t w0 = (s, fr, t', w') →
            checkpoints w' = checkpoints w0
            ∧ ∀ j b' n' gm', fr = AtYield j b' n' gm' → b' = b) as Hit.
  { intros b n w0 Hiter.
    apply iteration_cases in Hiter as (_ & Hc & _ & Hcases). split; [done|].
    intros j b' n' gm' ->.
    destruct Hcases as [(_ & _ & [=] & _) | (_ & _ & _ & _ & _ & [(e & _ & [=]) | (d & gm2 & _ & [= _ -> _ _])])].
    done. }
  destruct (f_ltb _ _).
  - intros Hiter. apply Hit in Hiter as [-> Hb]. simpl.
    rewrite lookup_insert_eq. done.
  - destruct (match patience a with Some _ => _ | None => _ end).
    + destruct (finish_unfold a t w) as (w1 & -> & _ & Hc).
      intros [= <- <- <- <-]. rewrite Hc. done.
    + intros Hiter. apply Hit in Hiter as [-> Hb]. done.
Qed.

(** From a [yield] to the end of the run: the directory holds the
    checkpoint of the last improvement, or what it held. *)
Lemma drive_checkpoint n a i best ssi gm t w tr g' t' w' dir :
  ckpt_manager t = Some dir →
  drive n (mk_generator a (AtYield i best ssi gm)) t w = (tr, g', t', w') →
  g_frame g' = Finished →
  checkpoints w' !! dir
  = match last_improvement best (t :: yielded tr) None with
    | Some tk => Some (checkpoint_of tk)
    | None => checkpoints w !! dir
    end.
Proof.
  revert i best ssi gm t w tr g' t' w'.
  induction n as [|n IH];
    intros i best ssi gm t w tr g' t' w' Hdir Hdrive Hfin.
  { by injection Hdrive as <- <- <- <-. }
  cbn [drive] in Hdrive. rewrite next_at_yield in Hdrive.
  destruct (resume a i best ssi gm t w) as [[[s1 fr1] t1] w1] eqn:Hres.
  pose proof (resume_checkpoint _ _ _ _ _ _ _ _ _ _ _ _ Hdir Hres)
    as [Hck Hbest].
  apply resume_cases in Hres as (_ & Hc1 & Hfr).
  destruct Hfr as [[-> Hs]|(d & b & k & gm' & -> & -> & Hi1)].
  - assert (tr = [(s1, t1)] ∧ w' = w1) as [-> ->].
    { destruct s1; [by destruct (Hs metric_dict)| |];
        cbn in Hdrive; by injection Hdrive as <- <- <- <-. }
    assert (yielded [(s1, t1)] = []) as ->.
    { destruct s1; [by destruct (Hs metric_dict)|done|done]. }
    rewrite Hck. simpl. by destruct (f_ltb _ _).
  - destruct (drive n _ t1 w1) as [[[tr2 g2] t2] w2] eqn:Hdrive2.
    injection Hdrive as <- <- <- <-.
    rewrite Hdir in Hc1.
    rewrite (IH _ _ _ _ _ _ _ _ _ _ Hc1 Hdrive2 Hfin).
    rewrite (Hbest _ _ _ _ eq_refl), Hck.
    change (yielded ((Yield d, t1) :: tr2)) with (t1 :: yielded tr2).
    rewrite (last_improvement_cons best t).
    destruct (f_ltb (val_nll (metrics t)) best); [|done].
    rewrite last_improvement_found.
    by destruct (last_improvement _ (t1 :: yielded tr2) None).
Qed.

(** A full run with a checkpoint manager. *)
Lemma train_checkpoint a t w dir :
  ckpt_manager t = Some dir →
  checkpoints (train a t w).2 !! dir
  = match last_improvement (initial_best t) (yielded (train a t w).1.1.1) None with
    | Some tk => Some (checkpoint_of tk)
    | None => checkpoints w !! dir
    end.
Proof.
  intros Hdir. pose proof (train_finishes a t w) as Hfin.
  destruct (train a t w) as [[[tr g'] t'] w'] eqn:Htrain.
  rewrite train_unfold, next_created in Htrain.
  destruct (start a t w) as [[[s1 fr1] t1] w1] eqn:Hstart.
  pose proof Hstart as Hcases.
  apply start_cases in Hcases as (_ & _ & Hck & Hc1 & Hfr).
  simpl in Hfin. simpl.
  destruct Hfr as [[-> Hs]|(d & b & k & gm' & -> & -> & Hi)].
  - assert (tr = [(s1, t1)] ∧ w' = w1) as [-> ->].
    { destruct s1; [by destruct (Hs metric_dict)| |];
        cbn in Htrain; by injection Htrain as <- <- <- <-. }
    assert (yielded [(s1, t1)] = []) as ->.
    { destruct s1; [by destruct (Hs metric_dict)|done|done]. }
    simpl. by rewrite Hck.
  - assert (b = initial_best t) as ->.
    { unfold start in Hstart.
      apply iteration_cases in Hstart as (_ & _ & _ & Hcases).
      destruct Hcases as [(_ & [=] & _) | (_ & _ & _ & _ & _ & [(e & [=] & _) | (d2 & gm2 & _ & [= -> _ _])])].
      done. }
    destruct (drive _ _ t1 w1) as [[[tr2 g2] t2] w2] eqn:Hdrive.
    injection Htrain as <- <- <- <-. rewrite Hdir in Hc1.
    rewrite (drive_checkpoint _ _ _ _ _ _ _ _ _ _ _ _ _ Hc1 Hdrive Hfin).
    change (yielded ((Yield d, t1) :: tr2)) with (t1 :: yielded tr2).
    by rewrite Hck.
Qed.

(** C8.  After a full run of [train_model] on a trainer with a checkpoint
    directory, a fresh trainer constructed on the same directory has the
    amplitude, length scale, step counter and loss (and the metrics) the
    trained one had at the last step that was checkpointed, the last whose
    validation NLL improved on the best before it; when no step improved,
    the directory holds what it held before the run. *)
Theorem checkpoint_round_trip a t w dir (index_points observations' : ndarray F)
    (fresh : GPTrainer) :
  ckpt_manager t = Some dir →
  dir ≠ EmptyString →
  GPTrainer_init index_points observations' (Some dir) (train a t w).2
    = Ok fresh →
  match last_improvement (initial_best t) (yielded (train a t w).1.1.1) None with
  | Some tk =>
      amplitude fresh = amplitude tk
      ∧ length_scale fresh = length_scale tk
      ∧ training_steps fresh = training_steps tk
      ∧ loss fresh = loss tk
      ∧ metrics fresh = metrics tk
  | None => checkpoints (train a t w).2 !! dir = checkpoints w !! dir
  end.
Proof.
  intros Hdir Hne Hinit.
  pose proof (train_checkpoint a t w dir Hdir) as Hck.
  destruct (last_improvement _ _ None) as [tk|]; [|done].
  unfold GPTrainer_init in Hinit.
  destruct (nd_shape index_points !! 1%nat) as [d|]; [|done].
  destruct (d <=? 0)%Z; [done|].
  assert (truthy_str (Some dir) = true) as Htruthy.
  { simpl. destruct (String.eqb_spec dir EmptyString); done. }
  rewrite Htruthy, Hck in Hinit. injection Hinit as <-.
  apply restore_checkpoint_of.
Qed.

End CheckpointFacts.

(** Four epochs on the toy instance with the directory ["ckpts"]: the NLL
    improves at the first step only, and a fresh trainer on ["ckpts"] is at
    that step. *)
Lemma checkpoint_round_trip_witness :
  ∃ fresh : GPTrainer,
    GPTrainer_init Toy.index_points Toy.observations (Some "ckpts")
      (train Toy.args_sharpness Toy.trainer_ckpt Toy.world).2 = Ok fresh
    ∧ amplitude fresh = 2%float ∧ length_scale fresh = 1%float
    ∧ training_steps fresh = 1%Z ∧ loss fresh = 1%float.
Proof.
  eexists. split; [vm_compute; reflexivity|].
  pose proof (checkpoint_round_trip Toy.args_sharpness Toy.trainer_ckpt
                Toy.world "ckpts" Toy.index_points Toy.observations _
                eq_refl ltac:(discriminate) eq_refl) as Hrt.
  vm_compute in Hrt. destruct Hrt as (Ha & Hl & Hs & Hlo & _).
  vm_compute. done.
Defined.

(* ================================================================== *)
(** * Facts: the metric dictionary of one epoch *)

Lemma elem_of_dict_set {V : Type} (d : list (string * V)) (k k' : string)
    (v v' : V) :
  (k', v') ∈ dict_set d k v → (k', v') ∈ d ∨ (k', v') = (k, v).
Proof.
  induction d as [|[k0 x] d IH]; simpl.
  - intros ->%list_elem_of_singleton. by right.
  - destruct (String.eqb_spec k0 k) as [->|Hne].
    + intros [->|Hin]%elem_of_cons; [by right | left; by right].
    + intros [->|Hin]%elem_of_cons; [left; by left|].
      destruct (IH Hin) as [?|?]; [left; by right | by right].
Qed.

Lemma dict_set_keys {V : Type} (d : list (string * V)) (k k' : string) (v : V) :
  k' ∈ (dict_set d k v).*1 ↔ k' = k ∨ k' ∈ d.*1.
Proof.
  induction d as [|[k0 x] d IH]; simpl.
  - rewrite list_elem_of_singleton. set_solver.
  - destruct (String.eqb_spec k0 k) as [->|Hne]; simpl.
    + set_solver.
    + rewrite !elem_of_cons, IH. naive_solver.
Qed.

Lemma metric_key_of_nll (name : string) :
  metric_key_of name = Some KNll ↔ name = "nll".
Proof.
  unfold metric_key_of. split; [|by intros ->].
  destruct (String.eqb_spec name "nll"); [done|].
  by repeat (destruct (String.eqb name _); [done|]).
Qed.

Section MetricDictFacts.
Context {F : Type} `{Float64 F} `{Backend F}.
Implicit Types (a : @TrainArgs F) (t : @GPTrainer F _) (w : @World F _)
  (gm : @GPMetrics F) (d : list (string * @pyval F)).

(** With one prediction per observation every property of [GPMetrics]
    evaluates; the five metrics that [self.metrics] stores are floats; a name
    that is no attribute raises [AttributeError], and is no stored metric. *)
Lemma gp_metrics_getattr_cases a t gm name :
  gm_matches a gm →
  (∃ v, gp_metrics_getattr a t gm name = Ok v
        ∧ (is_Some (metric_key_of name) →
           ∃ x, v = PFloat x ∧ (name = "nll" → x = nll a t)))
  ∨ (gp_metrics_getattr a t gm name = Raise (AttributeError (no_attribute name))
     ∧ metric_key_of name = None).
Proof.
  intros [Hm Hs]. unfold gp_metrics_getattr, metric_key_of.
  destruct (String.eqb_spec name "nll") as [->|Hnll].
  { left. eexists. split; [done|]. intros _. eexists. by split. }
  assert (∀ (key : metric_key) (r : result F),
            (∃ x, r = Ok x) →
            ∃ v, (x ← r; Ok (PFloat x)) = Ok v
                 ∧ (is_Some (Some key) →
                    ∃ x, v = PFloat x ∧ (name = "nll" → x = nll a t)))
    as Hfloat.
  { intros key r [x ->]. eexists. split; [done|]. intros _. eexists.
    by split. }
  destruct (String.eqb name "mae").
  { left. apply Hfloat. unfold mae.
    rewrite np_broadcast_same by congruence. by eexists. }
  destruct (String.eqb name "sharpness").
  { left. eexists. split; [done|]. intros _. eexists. by split. }
  destruct (String.eqb name "variation").
  { left. eexists. split; [done|]. intros _. eexists. by split. }
  destruct (String.eqb name "calibration_err").
  { left. apply Hfloat. unfold calibration_err.
    rewrite pis_same_length by done. simpl.
    rewrite np_broadcast_same; [by eexists|].
    by rewrite length_map. }
  destruct (String.eqb name "residuals").
  { left. unfold residuals. rewrite np_broadcast_same by congruence.
    eexists. split; [done|]. by intros [? [=]]. }
  destruct (String.eqb name "pis").
  { left. rewrite pis_same_length by done.
    eexists. split; [done|]. by intros [? [=]]. }
  destruct (_ || _).
  - left. eexists. split; [done|]. by intros [? [=]].
  - by right.
Qed.

Lemma dict_ok_set a t d k v :
  dict_ok a t d →
  (is_Some (metric_key_of k) → ∃ x, v = PFloat x ∧ (k = "nll" → x = nll a t)) →
  dict_ok a t (dict_set d k v).
Proof.
  intros Hd Hv k' v' [Hin|[= -> ->]]%elem_of_dict_set; [by apply Hd | done].
Qed.

(** The dictionary comprehension: a dictionary on the requested names, or
    the [ValueError] for a name that is no attribute. *)
Lemma metric_dict_from_cases a t gm names d0 :
  gm_matches a gm →
  dict_ok a t d0 →
  (∃ d, metric_dict_from a t gm names d0 = Ok d ∧ dict_ok a t d
        ∧ ∀ k, k ∈ d.*1 ↔ k ∈ names ∨ k ∈ d0.*1)
  ∨ (∃ x, metric_dict_from a t gm names d0
          = Raise (ValueError (invalid_metric (no_attribute x)))
          ∧ x ∈ names ∧ metric_key_of x = None).
Proof.
  intros Hgm. revert d0.
  induction names as [|name names IH]; intros d0 Hd0; simpl.
  { left. exists d0. split; [done|]. split; [done|]. set_solver. }
  destruct (gp_metrics_getattr_cases a t gm name Hgm)
    as [(v & -> & Hv) | [-> Hkey]].
  - destruct (IH (dict_set d0 name v)) as [(d & -> & Hd & Hkeys) | (x & -> & Hx & Hkey)].
    + by apply dict_ok_set.
    + left. exists d. split; [done|]. split; [done|].
      intros k. rewrite Hkeys, dict_set_keys. set_solver.
    + right. exists x. split; [done|]. split; [set_solver | done].
  - right. exists name. split; [done|]. split; [set_solver | done].
Qed.

(** Assigning a dictionary whose keys are all stored metrics. *)
Lemma assign_metrics_ok a t d (m : Metrics F) :
  dict_ok a t d →
  Forall (fun k => is_Some (metric_key_of k)) d.*1 →
  ∃ m', assign_metrics d m = (m', None)
        ∧ ("nll" ∈ d.*1 → val_nll m' = nll a t)
        ∧ ("nll" ∉ d.*1 → val_nll m' = val_nll m).
Proof.
  revert m. induction d as [|[k v] d IH]; intros m Hd Hall; simpl.
  { exists m. split; [done|]. split; [set_solver | done]. }
  apply Forall_cons in Hall as [[key Hkey] Hall]. simpl in Hkey.
  rewrite Hkey.
  destruct (Hd k v) as (x & -> & Hx); [by left | by eexists |].
  destruct (IH (metrics_assign m key x)) as (m' & -> & Hin & Hnot).
  { intros k' v' Hin'. apply Hd. by right. }
  { done. }
  exists m'. split; [done|].
  destruct (decide ("nll" ∈ d.*1)) as [Hd1|Hd1].
  { split; [auto | set_solver]. }
  rewrite (Hnot Hd1). destruct (decide (k = "nll")) as [->|Hk].
  - assert (key = KNll) as -> by (vm_compute in Hkey; congruence).
    split; [intros _; simpl; by apply Hx | set_solver].
  - split; [set_solver|]. intros _.
    destruct key; try done. by apply metric_key_of_nll in Hkey.
Qed.

End MetricDictFacts.

(* ================================================================== *)
(** * Facts: one epoch *)

Section EpochFacts.
Context {F : Type} `{Float64 F} `{Backend F}.
Implicit Types (a : @TrainArgs F) (t : @GPTrainer F _) (w : @World F _)
  (gm : @GPMetrics F) (d : list (string * @pyval F)).

Lemma predictions_match_stepped a t :
  predictions_match a t → predictions_match a (stepped t).
Proof.
  unfold predictions_match. by destruct (data_stepped t) as [-> ->].
Qed.

Lemma predictions_match_set_metrics a t m :
  predictions_match a t → predictions_match a (set_metrics t m).
Proof. done. Qed.

Lemma GPMetrics_init_matches a t :
  predictions_match a t → gm_matches a (GPMetrics_init a t).
Proof. intros Hp. split; simpl; apply Hp. Qed.

Lemma refresh_matches a t names gm :
  predictions_match a t → gm_matches a gm → gm_matches a (refresh a t names gm).
Proof.
  intros Hp [Hm Hs]. unfold refresh.
  destruct (intersects REQUIRES_MEAN names),
           (intersects REQUIRES_STDDEV names); split; simpl;
    (done || apply Hp).
Qed.

(** An epoch whose requested metrics are all stored metrics runs to its
    [yield]; the NLL, if requested, is the one of the stepped trainer. *)
Lemma iteration_yields a i best ssi gm t w :
  (i < epochs a)%Z →
  predictions_match a t →
  gm_matches a gm →
  Forall (fun k => is_Some (metric_key_of k)) (read_list w (metrics_arg a)) →
  ∃ d gm' m',
    iteration a i best ssi gm t w
    = (Yield d, AtYield i best ssi gm', set_metrics (stepped t) m', w)
    ∧ gm_matches a gm'
    ∧ ("nll" ∈ read_list w (metrics_arg a) → val_nll m' = nll a (stepped t)).
Proof.
  intros Hi Hp Hgm Hall. unfold iteration.
  destruct (Z.ltb_spec i (epochs a)) as [_|?]; [|lia].
  pose proof (refresh_matches a (stepped t) (read_list w (metrics_arg a)) gm
                (predictions_match_stepped a t Hp) Hgm) as Hgm'.
  destruct (metric_dict_from_cases a (stepped t) _
              (read_list w (metrics_arg a)) [] Hgm')
    as [(d & -> & Hd & Hkeys) | (x & _ & Hx & Hkey)].
  { intros k v Hin. by apply elem_of_nil in Hin. }
  - destruct (assign_metrics_ok a (stepped t) d (metrics (stepped t)) Hd)
      as (m' & -> & Hnll & _).
    { apply Forall_forall. intros k Hk. apply Hkeys in Hk as [Hk|Hk].
      - by apply (proj1 (Forall_forall _ _) Hall).
      - by apply elem_of_nil in Hk. }
    eexists _, _, m'. split; [done|]. split; [done|].
    intros Hin. apply Hnll. apply Hkeys. by left.
  - rewrite Forall_forall in Hall. apply Hall in Hx as [? Hsome]. congruence.
Qed.

End EpochFacts.

(* ================================================================== *)
(** * Facts: early stopping *)

Section EarlyStopFacts.
Context {F : Type} `{Float64 F} `{Backend F}.
Implicit Types (a : @TrainArgs F) (t : @GPTrainer F _) (w : @World F _)
  (gm : @GPMetrics F) (g : @generator F).

Lemma kernel_iter (j : nat) t t' :
  kernel t = kernel t' →
  kernel (Nat.iter j stepped t) = kernel (Nat.iter j stepped t').
Proof.
  intros Hk. induction j as [|j IH]; [done|]. simpl. by apply kernel_stepped.
Qed.

Lemma nll_iter_stepped a (j : nat) t t' :
  kernel t' = kernel (stepped t) →
  nll a (Nat.iter j stepped t') = nll a (Nat.iter (S j) stepped t).
Proof.
  intros Hk. apply nll_kernel. rewrite Nat.iter_succ_r. by apply kernel_iter.
Qed.

Lemma start_unfold a t w :
  ∃ w0, start a t w
        = iteration a 0 (initial_best t) 1 (GPMetrics_init a t) t w0
        ∧ read_list w0 (metrics_arg a) = names_at_start a t w.
Proof.
  unfold start, names_at_start, initial_best. eexists. split; [done|].
  destruct (_ && _); [|done].
  unfold read_list, write_list. simpl. by rewrite lookup_insert_eq.
Qed.

Lemma names_at_start_ok a t w :
  truthy_int (patience a) = true →
  Forall (fun k => is_Some (metric_key_of k)) (read_list w (metrics_arg a)) →
  Forall (fun k => is_Some (metric_key_of k)) (names_at_start a t w)
  ∧ "nll" ∈ names_at_start a t w.
Proof.
  intros Hp Hall. unfold names_at_start. rewrite Hp, orb_true_r. simpl.
  destruct (bool_decide_reflect ("nll" ∈ read_list w (metrics_arg a))); simpl.
  - done.
  - split; [|set_solver]. apply Forall_app. split; [done|].
    apply Forall_singleton. by eexists.
Qed.

(** The code after a [yield] when the NLL improved on the best. *)
Lemma resume_improved a i best ssi gm t w :
  truthy_int (patience a) = true →
  f_ltb (val_nll (metrics t)) best = true →
  ∃ w0, resume a i best ssi gm t w
        = iteration a (i + 1) (val_nll (metrics t)) 1 gm t w0
        ∧ lists w0 = lists w.
Proof.
  intros Hp Hlt. unfold resume. rewrite Hp, Hlt. simpl.
  eexists. split; [done|]. by destruct (ckpt_manager t).
Qed.

(** The code after a [yield] when it did not. *)
Lemma resume_stale a i best ssi gm t w (p : Z) :
  patience a = Some p → p ≠ 0%Z →
  f_ltb (val_nll (metrics t)) best = false →
  resume a i best ssi gm t w
  = if (p <=? ssi + 1)%Z then finish a t w
    else iteration a (i + 1) best (ssi + 1) gm t w.
Proof.
  intros Hp Hp0 Hlt. unfold resume. rewrite Hp, Hlt. simpl.
  destruct (Z.eqb_spec p 0); [done|]. done.
Qed.

(** From a [yield] on, when the NLL does not improve again: the run goes on
    until the counter reaches the patience, and stops. *)
Lemma stale_run a (p : Z) best (r : nat) :
  patience a = Some p → p ≠ 0%Z →
  ∀ n i ssi gm t w tr g' t' w',
    Forall (fun k => is_Some (metric_key_of k)) (read_list w (metrics_arg a)) →
    "nll" ∈ read_list w (metrics_arg a) →
    predictions_match a t →
    gm_matches a gm →
    r = Z.to_nat (p - (ssi + 1)) →
    (i + Z.of_nat r < epochs a)%Z →
    (r < n)%nat →
    f_ltb (val_nll (metrics t)) best = false →
    (∀ j, (1 ≤ j ≤ r)%nat → f_ltb (nll a (Nat.iter j stepped t)) best = false) →
    drive n (mk_generator a (AtYield i best ssi gm)) t w = (tr, g', t', w') →
    length (yielded tr) = r
    ∧ last tr.*1 = Some StopIteration
    ∧ kernel t' = kernel (Nat.iter r stepped t).
Proof.
  intros Hp Hp0. induction r as [|r IH];
    intros n i ssi gm t w tr g' t' w' Hall Hnll Hpm Hgm Hr Hi Hn Hnow Hlater
           Hdrive.
  - destruct n as [|n]; [lia|]. cbn [drive] in Hdrive.
    rewrite next_at_yield, (resume_stale _ _ _ _ _ _ _ p) in Hdrive by done.
    destruct (Z.leb_spec p (ssi + 1)) as [_|?]; [|lia].
    destruct (finish_unfold a t w) as (w1 & Hfin & _). rewrite Hfin in Hdrive.
    by injection Hdrive as <- <- <- <-.
  - destruct n as [|n]; [lia|]. cbn [drive] in Hdrive.
    rewrite next_at_yield, (resume_stale _ _ _ _ _ _ _ p) in Hdrive by done.
    destruct (Z.leb_spec p (ssi + 1)) as [?|_]; [lia|].
    destruct (iteration_yields a (i + 1) best (ssi + 1) gm t w)
      as (d & gm' & m' & Hit & Hgm' & Hval); [lia | done..|].
    rewrite Hit in Hdrive.
    destruct (drive n _ _ w) as [[[tr2 g2] t2] w2] eqn:Hdrive2.
    injection Hdrive as <- <- <- <-.
    assert (kernel (set_metrics (stepped t) m') = kernel (stepped t)) as Hk
      by done.
    apply IH in Hdrive2 as (Hlen & Hlast & Hkernel); try done; try lia.
    + split; [simpl; by rewrite Hlen|]. split.
      * rewrite fmap_cons, last_cons, Hlast. done.
      * rewrite Hkernel, Nat.iter_succ_r. by apply kernel_iter.
    + by apply predictions_match_set_metrics, predictions_match_stepped.
    + simpl. rewrite (Hval Hnll). apply (Hlater 1%nat). lia.
    + intros j Hj. rewrite (nll_iter_stepped a j t) by done.
      apply Hlater. lia.
Qed.

(** An improvement at step 1 and none from step 2 to [max p 2]: the run
    yields exactly [max p 2] times and then stops.  The counter is 1 after
    the improvement, 2 after step 2, and reaches the patience at step
    [max p 2]. *)
Lemma stops_after_first_improvement a t w (p : Z) :
  patience a = Some p →
  p ≠ 0%Z →
  (Z.max p 2 ≤ epochs a)%Z →
  predictions_match a t →
  Forall (fun k => is_Some (metric_key_of k)) (read_list w (metrics_arg a)) →
  f_ltb (nll_after a t 1) (initial_best t) = true →
  (∀ j : nat, (2 ≤ j ≤ Z.to_nat (Z.max p 2))%nat →
              f_ltb (nll_after a t j) (nll_after a t 1) = false) →
  length (yielded (train a t w).1.1.1) = Z.to_nat (Z.max p 2)
  ∧ last (train a t w).1.1.1.*1 = Some StopIteration
  ∧ kernel (train a t w).1.2
    = kernel (Nat.iter (Z.to_nat (Z.max p 2)) stepped t).
Proof.
  intros Hp Hp0 Hepochs Hpm Hall Hfirst Hlater.
  assert (truthy_int (patience a) = true) as Htruthy.
  { rewrite Hp. simpl. by destruct (Z.eqb_spec p 0). }
  rewrite train_unfold, next_created.
  destruct (start_unfold a t w) as (w0 & -> & Hnames).
  destruct (names_at_start_ok a t w Htruthy Hall) as [Hall0 Hnll0].
  rewrite <- Hnames in Hall0, Hnll0.
  (* step 1 *)
  destruct (iteration_yields a 0 (initial_best t) 1 (GPMetrics_init a t) t w0)
    as (d1 & gm1 & m1 & -> & Hgm1 & Hval1);
    [lia | done | by apply GPMetrics_init_matches | done |].
  specialize (Hval1 Hnll0).
  set (t1 := set_metrics (stepped t) m1).
  assert (predictions_match a t1) as Hpm1.
  { by apply predictions_match_set_metrics, predictions_match_stepped. }
  assert (val_nll (metrics t1) = nll_after a t 1) as Hnll1 by done.
  (* step 2: the improvement is recorded, the epoch runs *)
  destruct (Z.to_nat (epochs a)) as [|n] eqn:Hn; [lia|].
  cbn [drive]. rewrite next_at_yield.
  destruct (resume_improved a 0 (initial_best t) 1 gm1 t1 w0 Htruthy)
    as (w1 & -> & Hw1); [by rewrite Hnll1|].
  assert (read_list w1 (metrics_arg a) = read_list w0 (metrics_arg a)) as Hr1.
  { unfold read_list. by rewrite Hw1. }
  destruct (iteration_yields a (0 + 1) (val_nll (metrics t1)) 1 gm1 t1 w1)
    as (d2 & gm2 & m2 & -> & Hgm2 & Hval2);
    [lia | done | done | by rewrite Hr1 |].
  rewrite Hr1 in Hval2. specialize (Hval2 Hnll0).
  set (t2 := set_metrics (stepped t1) m2).
  assert (kernel t1 = kernel (stepped t)) as Hk1 by done.
  assert (kernel t2 = kernel (stepped t1)) as Hk2 by done.
  destruct (drive n _ t2 w1) as [[[tr g'] t'] w'] eqn:Hdrive.
  apply (stale_run a p (val_nll (metrics t1)) (Z.to_nat (p - 2)) Hp Hp0)
    in Hdrive as (Hlen & Hlast & Hkernel).
  - cbn [fst snd]. split; [|split].
    + change (length (t1 :: t2 :: yielded tr) = Z.to_nat (Z.max p 2)).
      simpl. rewrite Hlen. lia.
    + rewrite !fmap_cons, !last_cons, Hlast. done.
    + rewrite Hkernel.
      replace (Z.to_nat (Z.max p 2)) with (S (S (Z.to_nat (p - 2)))) by lia.
      rewrite !Nat.iter_succ_r. apply kernel_iter.
      rewrite Hk2. by apply kernel_stepped.
  - by rewrite Hr1.
  - by rewrite Hr1.
  - by apply predictions_match_set_metrics, predictions_match_stepped.
  - done.
  - done.
  - lia.
  - lia.
  - change (val_nll (metrics t2)) with (val_nll m2).
    rewrite Hval2, Hnll1.
    rewrite (nll_kernel a (stepped t1) (Nat.iter 2 stepped t))
      by (by apply kernel_stepped).
    apply (Hlater 2%nat). lia.
  - intros j Hj. rewrite Hnll1.
    rewrite (nll_iter_stepped a j t1 t2 Hk2).
    rewrite (nll_iter_stepped a (S j) t t1 Hk1).
    apply (Hlater (S (S j))). lia.
Qed.

Lemma epochs_run_cons (p : Z) (best : F) (counter : Z) (x : F)
    (rest : list F) :
  epochs_run p best counter (x :: rest)
  = if f_ltb x best then S (epochs_run p x 1 rest)
    else if (p <=? counter + 1)%Z then 1%nat
    else S (epochs_run p best (counter + 1) rest).
Proof. done. Qed.

Lemma nll_after_shift a t t' (m : nat) :
  kernel t' = kernel (stepped t) →
  nll a (stepped t) :: map (nll_after a t') (seq 1 m)
  = map (nll_after a t) (seq 1 (S m)).
Proof.
  intros Hk. cbn [seq map]. f_equal.
  rewrite <- (seq_shift m 1), map_map. apply map_ext. intros j.
    unfold nll_after. by apply nll_iter_stepped.
Qed.

(** From a [yield] on, the run follows the rule: the yields still to come
    are those the rule counts after the epoch just yielded. *)
Lemma rule_run a (p : Z) :
  patience a = Some p → p ≠ 0%Z →
  ∀ (m n : nat) i best ssi gm t0 w0 tr g' t' w',
    Z.of_nat m = (epochs a - (i + 1))%Z →
    (m < n)%nat →
    Forall (fun k => is_Some (metric_key_of k)) (read_list w0 (metrics_arg a)) →
    "nll" ∈ read_list w0 (metrics_arg a) →
    predictions_match a t0 →
    gm_matches a gm →
    drive n (mk_generator a (AtYield i best ssi gm)) t0 w0 = (tr, g', t', w') →
    S (length (yielded tr))
    = epochs_run p best ssi
        (val_nll (metrics t0) :: map (nll_after a t0) (seq 1 m))
    ∧ last tr.*1 = Some StopIteration
    ∧ kernel t' = kernel (Nat.iter (length (yielded tr)) stepped t0).
Proof.
  intros Hp Hp0.
  assert (truthy_int (patience a) = true) as Htruthy.
  { rewrite Hp. simpl. by destruct (Z.eqb_spec p 0). }
  induction m as [|m IH];
    intros n i best ssi gm t0 w0 tr g' t' w' Hm Hn Hall Hnll Hpm Hgm Hdrive;
    (destruct n as [|n]; [lia|]); cbn [drive] in Hdrive;
    rewrite next_at_yield in Hdrive; rewrite epochs_run_cons.
  - (* the last epoch was run: whatever the branch, the loop is left *)
    assert (∀ b k w1, lists w1 = lists w0 →
              iteration a (i + 1) b k gm t0 w1 = finish a t0 w1) as Hexh.
    { intros b k w1 _. unfold iteration.
      destruct (Z.ltb_spec (i + 1) (epochs a)); [lia | done]. }
    assert (∃ w1, resume a i best ssi gm t0 w0 = finish a t0 w1) as [w1 Hres].
    { destruct (f_ltb (val_nll (metrics t0)) best) eqn:Hlt.
      - destruct (resume_improved a i best ssi gm t0 w0 Htruthy Hlt)
          as (w1 & -> & Hl). exists w1. by apply Hexh.
      - rewrite (resume_stale a i best ssi gm t0 w0 p Hp Hp0 Hlt).
        exists w0. destruct (p <=? ssi + 1)%Z; [done | by apply Hexh]. }
    rewrite Hres in Hdrive.
    destruct (finish_unfold a t0 w1) as (w2 & Hfin & _).
    rewrite Hfin in Hdrive. injection Hdrive as <- <- <- <-.
    split; [|done].
    destruct (f_ltb _ _); [done|]. by destruct (p <=? ssi + 1)%Z.
  - (* at least one epoch is left *)
    assert (∀ b k w1 tr g' t' w',
              lists w1 = lists w0 →
              (let '(s, g, t1, w2) :=
                 (let '(s, fr, t', w') := iteration a (i + 1) b k gm t0 w1 in
                  (s, mk_generator a fr, t', w')) in
               match s with
               | Yield _ =>
                   let '(tr, g', t', w') := drive n g t1 w2 in
                   ((s, t1) :: tr, g', t', w')
               | _ => ([(s, t1)], g, t1, w2)
               end) = (tr, g', t', w') →
              S (length (yielded tr))
              = S (epochs_run p b k (map (nll_after a t0) (seq 1 (S m))))
              ∧ last tr.*1 = Some StopIteration
              ∧ kernel t' = kernel (Nat.iter (length (yielded tr)) stepped t0))
      as Hnext.
    { intros b k w1 tr1 g1 t1' w1' Hl Hd.
      assert (read_list w1 (metrics_arg a) = read_list w0 (metrics_arg a))
        as Hr by (unfold read_list; by rewrite Hl).
      destruct (iteration_yields a (i + 1) b k gm t0 w1)
        as (d & gm' & m' & Hit & Hgm' & Hval);
        [lia | done | done | by rewrite Hr |].
      rewrite Hr in Hval. specialize (Hval Hnll).
      rewrite Hit in Hd.
      set (t1 := set_metrics (stepped t0) m') in *.
      assert (kernel t1 = kernel (stepped t0)) as Hk by done.
      destruct (drive n _ t1 w1) as [[[tr2 g2] t2] w2] eqn:Hdrive2.
      injection Hd as <- <- <- <-.
      destruct (IH n (i + 1)%Z b k gm' t1 w1 tr2 g2 t2 w2)
        as (Hlen & Hlast & Hkernel);
        [lia | lia | by rewrite Hr | by rewrite Hr
         | by apply predictions_match_set_metrics, predictions_match_stepped
         | done | done |].
      change (yielded ((Yield d, t1) :: tr2)) with (t1 :: yielded tr2).
      split; [|split].
      - simpl length. rewrite Hlen. do 2 f_equal.
        change (val_nll (metrics t1)) with (val_nll m').
        rewrite Hval. by apply nll_after_shift.
      - rewrite fmap_cons, last_cons, Hlast. done.
      - rewrite Hkernel. simpl length. rewrite Nat.iter_succ_r.
        by apply kernel_iter. }
    destruct (f_ltb (val_nll (metrics t0)) best) eqn:Hlt.
    + destruct (resume_improved a i best ssi gm t0 w0 Htruthy Hlt)
        as (w1 & Hres & Hl).
      rewrite Hres in Hdrive. eapply (Hnext _ _ w1); [exact Hl | exact Hdrive].
    + rewrite (resume_stale a i best ssi gm t0 w0 p Hp Hp0 Hlt) in Hdrive.
      destruct (p <=? ssi + 1)%Z.
      * destruct (finish_unfold a t0 w0) as (w2 & Hfin & _).
        rewrite Hfin in Hdrive. by injection Hdrive as <- <- <- <-.
      * eapply (Hnext _ _ w0); [done | exact Hdrive].
Qed.

(** C2 (as amended).  [train_model] with [patience = p] (p not 0) and
    metrics that all evaluate follows the rule of the claim: the best NLL
    starts at the trainer's (infinity when that is NaN) and the counter at
    1; an epoch whose validation NLL is strictly below the best resets the
    counter to 1, any other increments it, and the run stops when the
    counter reaches the patience, or when the epochs are exhausted.  The
    number of yields is the number of epochs the rule runs on the NLLs of
    the steps 1, 2, …, and the final hyperparameters are those after that
    many optimizer steps.  In particular, when the NLL improves at step 1
    and at no step from 2 to [max p 2], the run stops after [max p 2]
    steps: with [patience = 3] after step 3, two steps after the
    improvement. *)
Theorem early_stopping a t w (p : Z) :
  patience a = Some p →
  p ≠ 0%Z →
  predictions_match a t →
  Forall (fun k => is_Some (metric_key_of k)) (read_list w (metrics_arg a)) →
  let steps :=
    epochs_run p (initial_best t) 1
      (map (nll_after a t) (seq 1 (Z.to_nat (epochs a)))) in
  length (yielded (train a t w).1.1.1) = steps
  ∧ last (train a t w).1.1.1.*1 = Some StopIteration
  ∧ kernel (train a t w).1.2 = kernel (Nat.iter steps stepped t)
  ∧ ((Z.max p 2 ≤ epochs a)%Z →
     f_ltb (nll_after a t 1) (initial_best t) = true →
     (∀ j : nat, (2 ≤ j ≤ Z.to_nat (Z.max p 2))%nat →
                 f_ltb (nll_after a t j) (nll_after a t 1) = false) →
     steps = Z.to_nat (Z.max p 2)).
Proof.
  intros Hp Hp0 Hpm Hall steps.
  assert (truthy_int (patience a) = true) as Htruthy.
  { rewrite Hp. simpl. by destruct (Z.eqb_spec p 0). }
  assert (length (yielded (train a t w).1.1.1) = steps
          ∧ last (train a t w).1.1.1.*1 = Some StopIteration
          ∧ kernel (train a t w).1.2 = kernel (Nat.iter steps stepped t))
    as (Hlen & Hlast & Hkernel).
  { unfold steps. rewrite train_unfold, next_created.
    destruct (start_unfold a t w) as (w0 & -> & Hnames).
    destruct (names_at_start_ok a t w Htruthy Hall) as [Hall0 Hnll0].
    rewrite <- Hnames in Hall0, Hnll0.
    destruct (Z.ltb_spec 0 (epochs a)) as [Hepochs|Hepochs].
    - destruct (iteration_yields a 0 (initial_best t) 1 (GPMetrics_init a t)
                  t w0)
        as (d1 & gm1 & m1 & -> & Hgm1 & Hval1);
        [lia | done | by apply GPMetrics_init_matches | done |].
      specialize (Hval1 Hnll0).
      set (t1 := set_metrics (stepped t) m1).
      assert (kernel t1 = kernel (stepped t)) as Hk1 by done.
      destruct (drive _ _ t1 w0) as [[[tr g'] t'] w'] eqn:Hdrive.
      destruct (rule_run a p Hp Hp0 (Z.to_nat (epochs a) - 1)
                  (Z.to_nat (epochs a)) 0 (initial_best t) 1 gm1 t1 w0
                  tr g' t' w')
        as (Hlen & Hlast & Hkernel);
        [lia | lia | done | done
         | by apply predictions_match_set_metrics, predictions_match_stepped
         | done | done |].
      change (val_nll (metrics t1)) with (val_nll m1) in Hlen.
      rewrite Hval1, (nll_after_shift a t t1 _ Hk1) in Hlen.
      replace (S (Z.to_nat (epochs a) - 1)) with (Z.to_nat (epochs a))
        in Hlen by lia.
      cbn [fst snd].
      change (yielded ((Yield d1, t1) :: tr)) with (t1 :: yielded tr).
      simpl length. rewrite <- Hlen. split; [done|]. split.
      + rewrite fmap_cons, last_cons, Hlast. done.
      + rewrite Hkernel, Nat.iter_succ_r. by apply kernel_iter.
    - unfold iteration.
      destruct (Z.ltb_spec 0 (epochs a)) as [?|_]; [lia|].
      destruct (finish_unfold a t w0) as (w1 & -> & _).
      replace (Z.to_nat (epochs a)) with 0%nat by lia. done. }
  split; [done|]. split; [done|]. split; [done|].
  intros Hepochs Hfirst Hlater. rewrite <- Hlen.
  by destruct (stops_after_first_improvement a t w p Hp Hp0 Hepochs Hpm Hall
                 Hfirst Hlater)
    as (-> & _).
Qed.

End EarlyStopFacts.

(** [train_model(val_points, val_obs, epochs=10, patience=3)] on the toy
    instance, whose NLL is 0 after the first step and 1 after every other,
    and on the second one, whose NLL is 5, 6, 3, 9, 9, …: there the counter
    is reset at step 3 and the run stops after step 5. *)
Lemma early_stopping_witness :
  length (yielded (train Toy.args_patience3 Toy.trainer Toy.world).1.1.1)
  = 3%nat
  ∧ last (train Toy.args_patience3 Toy.trainer Toy.world).1.1.1.*1
    = Some StopIteration
  ∧ length (yielded (train Toy2.args_patience3 Toy2.trainer Toy2.world).1.1.1)
    = 5%nat.
Proof.
  destruct (early_stopping Toy.args_patience3 Toy.trainer Toy.world 3)
    as (Hlen & Hlast & _ & Hsteps).
  - reflexivity.
  - discriminate.
  - intros amp ls. split; reflexivity.
  - exact (List.Forall_nil _).
  - destruct (early_stopping Toy2.args_patience3 Toy2.trainer Toy2.world 3)
      as (Hlen2 & _).
    + reflexivity.
    + discriminate.
    + intros amp ls. split; reflexivity.
    + exact (List.Forall_nil _).
    + split; [|split; [exact Hlast|]].
      * rewrite Hlen. vm_compute. reflexivity.
      * rewrite Hlen2. vm_compute. reflexivity.
Defined.

(** C2 as stated fails: with [patience=3], ten epochs allowed and a
    validation NLL of 0 at step 1 and 1 at every later step, the run yields
    at steps 1, 2 and 3 and stops: three optimizer steps, not four. *)
Lemma patience_3_stops_after_step_3 :
  let '(tr, _, t', _) := train Toy.args_patience3 Toy.trainer Toy.world in
  tr.*1 = [Yield [("nll", PFloat 0%float); ("loss", PFloat 1%float)];
           Yield [("nll", PFloat 1%float); ("loss", PFloat 2%float)];
           Yield [("nll", PFloat 1%float); ("loss", PFloat 3%float)];
           StopIteration]
  ∧ training_steps t' = 3%Z
  ∧ optimizer t' = 3%Z
  ∧ length (yielded tr) ≠ 4%nat.
Proof. vm_compute. repeat split; discriminate. Qed.

(* ================================================================== *)
(** * Facts: the error of an invalid metric name *)



Section FirstError.
Context {F : Type} `{Float64 F} `{Backend F}.
Implicit Types (a : @TrainArgs F) (t : @GPTrainer F _) (w : @World F _)
  (gm : @GPMetrics F) (d : list (string * @pyval F)).









End FirstError.



Section NoEpochFacts.
Context {F : Type} `{Float64 F} `{Backend F}.

(** With no epoch to run nothing is evaluated: whatever the metric names,
    the first [next] ends the generator and the trainer is untouched. *)
Lemma train_model_no_epochs (a : TrainArgs) (t : GPTrainer) (w : World) :
  (epochs a ≤ 0)%Z →
  ∃ w', next (train_model a) t w
        = (StopIteration, mk_generator a Finished, t, w').
Proof.
  intros Hepochs. rewrite next_created.
  destruct (start_unfold a t w) as (w0 & -> & _). unfold iteration.
  destruct (Z.ltb_spec 0 (epochs a)) as [?|_]; [lia|].
  destruct (finish_unfold a t w0) as (w1 & -> & _). by exists w1.
Qed.

End NoEpochFacts.

(* ================================================================== *)
(** * More on index points and construction *)

Section IndexPointsMore.
Context {A F : Type} (to_float64 : A → F).

(** X1.  An array with fewer than two dimensions has no [shape[1]]:
    [convert_index_points] raises [IndexError] whatever it holds. *)
Theorem convert_index_points_needs_two_dims (array : ndarray A) :
  (length (nd_shape array) < 2)%nat ↔
  convert_index_points to_float64 array
  = Raise (IndexError "tuple index out of range").
Proof.
  unfold convert_index_points. split.
  - intros Hlen. by rewrite lookup_ge_None_2 by lia.
  - destruct (nd_shape array !! 1%nat) as [d|] eqn:Hd.
    + unfold tf_constant. intros Hraise.
      repeat case_match; discriminate.
    + intros _. apply lookup_ge_None in Hd. lia.
Qed.

(** The tensor a well-formed array is converted to. *)
Lemma convert_index_points_value (array : ndarray A) (d : Z) :
  nd_shape array !! 1%nat = Some d →
  Z.of_nat (length (nd_data array)) = num_elements (nd_shape array) →
  convert_index_points to_float64 array
  = Ok (mk_ndarray (nd_shape array ++ repeat 1%Z (Z.to_nat (d - 1)))
                   (map to_float64 (nd_data array))).
Proof.
  intros Hd Hlen. unfold convert_index_points. rewrite Hd.
  unfold tf_constant, tuple_repeat.
  destruct (decide _) as [_|_]; [done|].
  rewrite num_elements_app, num_elements_ones, length_map, Hlen.
  by rewrite Z.mul_1_r, Z.eqb_refl.
Qed.

(** X2.  On a well-formed array (as many elements as its shape says) of two or
    more dimensions [convert_index_points] never fails, whatever the second
    dimension D is: it appends [max (D − 1) 0] singleton dimensions, so the
    number of elements is kept, and the elements are the array's, converted,
    in the same order.  In particular a degenerate array with D = 0 is
    returned with its shape (N, 0) unchanged. *)
Theorem convert_index_points_well_formed (array : ndarray A) (d : Z) :
  nd_shape array !! 1%nat = Some d →
  Z.of_nat (length (nd_data array)) = num_elements (nd_shape array) →
  ∃ t : ndarray F,
    convert_index_points to_float64 array = Ok t
    ∧ nd_shape t = nd_shape array ++ repeat 1%Z (Z.to_nat (Z.max (d - 1) 0))
    ∧ num_elements (nd_shape t) = num_elements (nd_shape array)
    ∧ nd_data t = map to_float64 (nd_data array)
    ∧ ((d ≤ 1)%Z → nd_shape t = nd_shape array).
Proof.
  intros Hd Hlen.
  assert (Z.to_nat (Z.max (d - 1) 0) = Z.to_nat (d - 1)) as -> by lia.
  eexists. split; [by apply convert_index_points_value|]. simpl.
  repeat split.
  - rewrite num_elements_app, num_elements_ones. lia.
  - intros Hle. replace (Z.to_nat (d - 1)) with 0%nat by lia.
    apply app_nil_r.
Qed.

End IndexPointsMore.

Lemma convert_index_points_well_formed_witness :
  ∃ t : ndarray float,
    convert_index_points float_of_Z (mk_ndarray [3; 0]%Z []) = Ok t
    ∧ nd_shape t = [3; 0]%Z.
Proof.
  destruct (convert_index_points_well_formed float_of_Z
              (mk_ndarray [3; 0]%Z []) 0)
    as (t & Ht & _ & _ & _ & Hs); [reflexivity | reflexivity |].
  exists t. split; [exact Ht|]. apply Hs. lia.
Defined.

Section ConstructionMore.
Context {A F : Type} `{Float64 F} `{Backend F} (to_float64 : A → F).

(** X3.  Conversion followed by construction: a well-formed (N, D) array is
    accepted exactly when D ≥ 1.  Then the tensor has D + 1 dimensions, one
    more than the kernel's [feature_ndims = D], and each of its N examples
    has D elements.  With D = 0 the conversion succeeds and it is the
    constructor that fails. *)
Theorem convert_then_construct (array : ndarray A) (N D : Z)
    (observations' : ndarray F) (checkpoint_dir : option string) (w : World) :
  nd_shape array = [N; D] →
  Z.of_nat (length (nd_data array)) = (N * D)%Z →
  (0 ≤ D)%Z →
  ∃ t : ndarray F,
    convert_index_points to_float64 array = Ok t
    ∧ ((∃ trainer : GPTrainer,
          GPTrainer_init t observations' checkpoint_dir w = Ok trainer)
       ↔ (1 ≤ D)%Z)
    ∧ Z.of_nat (length (nd_shape t)) = (Z.max D 1 + 1)%Z
    ∧ num_elements (drop 1 (nd_shape t)) = D.
Proof.
  intros Hshape Hlen HD.
  pose proof (convert_index_points_value to_float64 array D) as Ht.
  rewrite Hshape in Ht.
  eexists. split; [apply Ht; [done | rewrite Hlen; simpl; lia]|].
  set (t := mk_ndarray _ _).
  assert (nd_shape t = [N; D] ++ repeat 1%Z (Z.to_nat (D - 1))) as Hs by done.
  clearbody t. split; [|split].
  - rewrite (GPTrainer_init_observations_irrelevant t observations'
               checkpoint_dir w).
    rewrite Hs. simpl. split.
    + intros (d & [= <-] & Hd). lia.
    + intros Hd. exists D. split; [done | lia].
  - rewrite Hs, length_app, repeat_length. simpl. lia.
  - rewrite Hs. simpl. rewrite num_elements_ones. lia.
Qed.

End ConstructionMore.

(** A (2, 1) array of integers is converted and accepted. *)
Lemma convert_then_construct_witness :
  ∃ (t : ndarray float) (trainer : GPTrainer),
    convert_index_points float_of_Z (mk_ndarray [2; 1]%Z [0; 1]%Z) = Ok t
    ∧ GPTrainer_init t Toy.observations None Toy.world = Ok trainer.
Proof.
  destruct (convert_then_construct float_of_Z (mk_ndarray [2; 1]%Z [0; 1]%Z)
              2 1 Toy.observations None Toy.world)
    as (t & Ht & [_ Hinit] & _); [reflexivity | reflexivity | lia |].
  destruct Hinit as [trainer Htr]; [lia|].
  exists t, trainer. split; [exact Ht | exact Htr].
Defined.

(* ================================================================== *)
(** * More on the generator: what holds along every run *)

Section StepShapes.
Context {F : Type} `{Float64 F} `{Backend F}.
Implicit Types (a : @TrainArgs F) (t : @GPTrainer F _) (w : @World F _)
  (gm : @GPMetrics F) (g : @generator F) (fr : @frame F) (s : @signal F).

(** The three ways an epoch can go. *)
Lemma iteration_outcome a i b k gm t w s fr t' w' :
  iteration a i b k gm t w = (s, fr, t', w') →
  ((epochs a ≤ i)%Z ∧ finish a t w = (s, fr, t', w'))
  ∨ ((i < epochs a)%Z ∧ w' = w
     ∧ ((∃ e, metric_dict_from a (stepped t)
                (refresh a (stepped t) (read_list w (metrics_arg a)) gm)
                (read_list w (metrics_arg a)) [] = Raise e
              ∧ s = Raised e ∧ fr = Finished ∧ t' = stepped t)
        ∨ (∃ d m,
             metric_dict_from a (stepped t)
               (refresh a (stepped t) (read_list w (metrics_arg a)) gm)
               (read_list w (metrics_arg a)) [] = Ok d
             ∧ t' = set_metrics (stepped t) m
             ∧ ((∃ e, assign_metrics d (metrics (stepped t)) = (m, Some e)
                      ∧ s = Raised e ∧ fr = Finished)
                ∨ (assign_metrics d (metrics (stepped t)) = (m, None)
                   ∧ s = Yield (dict_set d "loss" (PFloat (loss (stepped t))))
                   ∧ fr = AtYield i b k
                          (refresh a (stepped t) (read_list w (metrics_arg a))
                                   gm)))))).
Proof.
  unfold iteration. destruct (Z.ltb_spec i (epochs a)) as [Hi|Hi].
  - intros Hit. right. split; [done|].
    destruct (metric_dict_from _ _ _ _ _) as [d|e].
    + destruct (assign_metrics d _) as [m [e|]] eqn:Hassign;
        injection Hit as <- <- <- <-; (split; [done|]); right;
        exists d, m; (split; [done|]); (split; [done|]); eauto.
    + injection Hit as <- <- <- <-. split; [done|]. left. by exists e.
  - intros Hfin. left. by split.
Qed.

(** What precedes the loop body in a resumption: the world it hands on. *)
Lemma resume_shape a i b k gm t w :
  ∃ b' k' w0,
    (resume a i b k gm t w = iteration a (i + 1) b' k' gm t w0
     ∨ (resume a i b k gm t w = finish a t w ∧ w0 = w))
    ∧ lists w0 = lists w
    ∧ saved_models w0 = saved_models w
    ∧ (∀ d', ckpt_manager t ≠ Some d' →
             checkpoints w0 !! d' = checkpoints w !! d').
Proof.
  unfold resume.
  destruct (truthy_int (patience a) || has_ckpt_manager t);
    [|exists b, k, w; split; [by left | done]].
  destruct (f_ltb _ _).
  - eexists _, _, _. split; [by left|].
    destruct (ckpt_manager t) as [dir|]; [|done]. simpl.
    repeat split. intros d' Hne. rewrite lookup_insert_ne; [done | congruence].
  - destruct (match patience a with Some _ => _ | None => _ end).
    + exists b, k, w. split; [by right | done].
    + eexists _, _, w. split; [by left | done].
Qed.

Lemma start_shape a t w :
  ∃ w0,
    start a t w = iteration a 0 (initial_best t) 1 (GPMetrics_init a t) t w0
    ∧ read_list w0 (metrics_arg a) = names_at_start a t w
    ∧ (∀ l, l ≠ metrics_arg a → read_list w0 l = read_list w l)
    ∧ saved_models w0 = saved_models w
    ∧ checkpoints w0 = checkpoints w.
Proof.
  unfold start, names_at_start, initial_best. eexists. split; [done|].
  destruct (_ && _); [|done].
  unfold read_list, write_list. simpl. rewrite lookup_insert_eq.
  repeat split. intros l Hne. by rewrite lookup_insert_ne.
Qed.

Lemma finish_saved a t w s fr t' w' :
  finish a t w = (s, fr, t', w') →
  s = StopIteration ∧ fr = Finished ∧ t' = t
  ∧ lists w' = lists w ∧ checkpoints w' = checkpoints w
  ∧ saved_models w'
    = (if truthy_str (save_dir a)
       then <[default EmptyString (save_dir a) := t]> (saved_models w)
       else saved_models w).
Proof.
  unfold finish. destruct (save_dir a) as [dir|]; simpl.
  - destruct (negb _); by intros [= <- <- <- <-].
  - by intros [= <- <- <- <-].
Qed.

(** The run up to its last resumption, which is the one that does not
    yield; an invariant that the yielding resumptions keep holds before
    it. *)
Lemma drive_last_step a (I : frame → GPTrainer → World → Prop) :
  (∀ t w d fr t' w',
     I Created t w → start a t w = (Yield d, fr, t', w') → I fr t' w') →
  (∀ i b k gm t w d fr t' w',
     I (AtYield i b k gm) t w →
     resume a i b k gm t w = (Yield d, fr, t', w') → I fr t' w') →
  ∀ n fr t w tr g' t' w',
    fr ≠ Finished →
    I fr t w →
    drive n (mk_generator a fr) t w = (tr, g', t', w') →
    g_frame g' = Finished →
    ∃ fr0 t0 w0 tr0 s,
      fr0 ≠ Finished ∧ I fr0 t0 w0
      ∧ tr = tr0 ++ [(s, t')]
      ∧ yielded tr = tr0.*2
      ∧ (∀ d, s ≠ Yield d)
      ∧ next (mk_generator a fr0) t0 w0 = (s, mk_generator a Finished, t', w').
Proof.
  intros Hstart Hresume. induction n as [|n IH];
    intros fr t w tr g' t' w' Hfr HI Hdrive Hfin.
  { injection Hdrive as <- <- <- <-. done. }
  cbn [drive] in Hdrive.
  destruct (next (mk_generator a fr) t w) as [[[s1 g1] t1] w1] eqn:Hnext.
  assert (∃ fr1, g1 = mk_generator a fr1
                 ∧ ((fr1 = Finished ∧ ∀ d, s1 ≠ Yield d)
                    ∨ (fr1 ≠ Finished ∧ I fr1 t1 w1 ∧ ∃ d, s1 = Yield d)))
    as (fr1 & -> & Hcases).
  { destruct fr as [|i b k gm|]; [| |done].
    - change (mk_generator a Created) with (train_model a) in Hnext.
      rewrite next_created in Hnext.
      destruct (start a t w) as [[[s2 fr2] t2] w2] eqn:Hs.
      injection Hnext as <- <- <- <-.
      exists fr2. split; [done|]. pose proof Hs as Hc.
      apply start_cases in Hc as (_ & _ & _ & _ & Hc).
      destruct Hc as [[-> ?]|(d & ? & ? & ? & -> & -> & _)]; [by left|].
      right. split; [done|]. split; [by eapply Hstart | by eexists].
    - rewrite next_at_yield in Hnext.
      destruct (resume a i b k gm t w) as [[[s2 fr2] t2] w2] eqn:Hs.
      injection Hnext as <- <- <- <-.
      exists fr2. split; [done|]. pose proof Hs as Hc.
      apply resume_cases in Hc as (_ & _ & Hc).
      destruct Hc as [[-> ?]|(d & ? & ? & ? & -> & -> & _)]; [by left|].
      right. split; [done|]. split; [by eapply Hresume | by eexists]. }
  destruct Hcases as [[-> Hs1]|(Hfr1 & HI1 & [d ->])].
  - assert (tr = [(s1, t1)] ∧ t' = t1 ∧ w' = w1) as (-> & -> & ->).
    { destruct s1; [by destruct (Hs1 metric_dict)| |];
        by injection Hdrive as <- <- <- <-. }
    exists fr, t, w, [], s1. repeat split; try done.
    destruct s1; [by destruct (Hs1 metric_dict)|done|done].
  - destruct (drive n _ t1 w1) as [[[tr2 g2] t2] w2] eqn:Hdrive2.
    injection Hdrive as <- <- <- <-.
    destruct (IH _ _ _ _ _ _ _ Hfr1 HI1 Hdrive2 Hfin)
      as (fr0 & t0 & w0 & tr0 & s & Hfr0 & HI0 & -> & Hy & Hs & Hlast).
    exists fr0, t0, w0, ((Yield d, t1) :: tr0), s. repeat split; try done.
    change (yielded ((Yield d, t1) :: tr0 ++ [(s, t2)]))
      with (t1 :: yielded (tr0 ++ [(s, t2)])).
    by rewrite Hy.
Qed.

End StepShapes.

Section WorldFacts.
Context {F : Type} `{Float64 F} `{Backend F}.
Implicit Types (a : @TrainArgs F) (t : @GPTrainer F _) (w : @World F _)
  (gm : @GPMetrics F) (g : @generator F) (fr : @frame F) (s : @signal F).

Lemma ended_normally_snoc {T : Type} (tr : list (@signal F * T)) s (x : T) :
  ended_normally (tr ++ [(s, x)])
  = match s with StopIteration => true | _ => false end.
Proof. unfold ended_normally. rewrite last_snoc. by destruct s. Qed.

(** The resumption that ends a run: either the loop is left and the model
    saved if asked for, or an epoch raised and nothing is saved. *)
Lemma last_step_saved a fr0 t0 w0 s t' w' :
  fr0 ≠ Finished →
  (∀ d, s ≠ Yield d) →
  next (mk_generator a fr0) t0 w0 = (s, mk_generator a Finished, t', w') →
  saved_models w'
  = (if match s with StopIteration => true | _ => false end
        && truthy_str (save_dir a)
     then <[default EmptyString (save_dir a) := t']> (saved_models w0)
     else saved_models w0).
Proof.
  intros Hfr Hs Hnext.
  assert (∃ i b k gm w1,
            iteration a i b k gm t0 w1 = (s, Finished, t', w')
            ∧ saved_models w1 = saved_models w0
            ∨ finish a t0 w0 = (s, Finished, t', w'))
    as (i & b & k & gm & w1 & [[Hit Hsaved]|Hfin]).
  { destruct fr0 as [|i b k gm|]; [| |done].
    - change (mk_generator a Created) with (train_model a) in Hnext.
      rewrite next_created in Hnext.
      destruct (start_shape a t0 w0) as (w1 & Hst & _ & _ & Hsaved & _).
      rewrite Hst in Hnext.
      destruct (iteration _ _ _ _ _ _ _) as [[[s2 fr2] t2] w2] eqn:Hit.
      injection Hnext as <- <- <- <-. eexists _, _, _, _, w1. by left.
    - rewrite next_at_yield in Hnext.
      destruct (resume_shape a i b k gm t0 w0)
        as (b' & k' & w1 & [Hres|[Hres ->]] & _ & Hsaved & _);
        rewrite Hres in Hnext.
      + destruct (iteration _ _ _ _ _ _ _) as [[[s2 fr2] t2] w2] eqn:Hit.
        injection Hnext as <- <- <- <-. eexists _, _, _, _, w1. by left.
      + destruct (finish a t0 w0) as [[[s2 fr2] t2] w2] eqn:Hfin.
        injection Hnext as <- <- <- <-. exists 0%Z, b, k, gm, w0. by right. }
  - apply iteration_outcome in Hit as [[_ Hfin]|(_ & -> & Hcases)].
    + apply finish_saved in Hfin as (-> & _ & -> & _ & _ & ->).
      simpl. by rewrite Hsaved.
    + rewrite Hsaved.
      destruct Hcases as [(e & _ & -> & _) | (d & m & _ & _ & [(e & _ & -> & _) | (_ & -> & _)])];
        [done | done | by edestruct Hs].
  - apply finish_saved in Hfin as (-> & _ & -> & _ & _ & ->). done.
Qed.

(** X4.  [tf.saved_model.save] is reached only when the generator is consumed to
    a normal end: after a full run the model directory holds the final
    trainer if the run ended without an exception and [save_dir] is a
    non-empty path; otherwise no model was written. *)
Theorem train_model_saves_on_completion a t w :
  saved_models (train a t w).2
  = (if ended_normally (train a t w).1.1.1 && truthy_str (save_dir a)
     then <[default EmptyString (save_dir a) := (train a t w).1.2]>
            (saved_models w)
     else saved_models w).
Proof.
  pose proof (train_finishes a t w) as Hfin. unfold train in *.
  destruct (drive _ (train_model a) t w) as [[[tr g'] t'] w'] eqn:Hdrive.
  assert (@Created F ≠ Finished) as Hcreated by done.
  destruct (drive_last_step a
              (fun _ _ w1 => saved_models w1 = saved_models w))
    with (3 := Hcreated) (5 := Hdrive)
    as (fr0 & t0 & w0 & tr0 & s & Hfr0 & HI0 & -> & _ & Hs & Hlast);
    try done.
  - intros t1 w1 d fr1 t1' w1' HI Hst.
    destruct (start_shape a t1 w1) as (w2 & Hst2 & _ & _ & Hsaved & _).
    rewrite Hst2 in Hst.
    apply iteration_outcome in Hst as [[_ Hf]|(_ & -> & _)]; [|congruence].
    by apply finish_saved in Hf as ([=] & _).
  - intros i b k gm t1 w1 d fr1 t1' w1' HI Hres.
    destruct (resume_shape a i b k gm t1 w1)
      as (b' & k' & w2 & [Hres2|[Hres2 ->]] & _ & Hsaved & _);
      rewrite Hres2 in Hres.
    + apply iteration_outcome in Hres as [[_ Hf]|(_ & -> & _)]; [|congruence].
      by apply finish_saved in Hf as ([=] & _).
    + by apply finish_saved in Hres as ([=] & _).
  - cbn [fst snd].
    rewrite ended_normally_snoc, (last_step_saved _ _ _ _ _ _ _ Hfr0 Hs Hlast).
    by rewrite HI0.
Qed.

End WorldFacts.

(* ================================================================== *)
(** * More on the generator: induction along a run *)

Section RunPrinciple.
Context {F : Type} `{Float64 F} `{Backend F}.
Implicit Types (a : @TrainArgs F) (t : @GPTrainer F _) (w : @World F _)
  (gm : @GPMetrics F) (g : @generator F) (fr : @frame F) (s : @signal F).

(** Induction along a run.  [P j s fr t w] speaks of the outcome of the
    resumption number [j] (from 0): its signal, the frame it leaves, the
    trainer and the world. *)
Lemma drive_run a
    (P : nat → signal → frame → GPTrainer → World → Prop) :
  (∀ j d0 i b k gm t0 w0 s fr t' w',
     P j (Yield d0) (AtYield i b k gm) t0 w0 →
     resume a i b k gm t0 w0 = (s, fr, t', w') → P (S j) s fr t' w') →
  ∀ n j d0 i b k gm t0 w0 tr g' t' w',
    P j (Yield d0) (AtYield i b k gm) t0 w0 →
    drive n (mk_generator a (AtYield i b k gm)) t0 w0 = (tr, g', t', w') →
    g_frame g' = Finished →
    ∃ tr0 s,
      tr = tr0 ++ [(s, t')]
      ∧ (∀ d, s ≠ Yield d)
      ∧ P (S j + length tr0) s Finished t' w'
      ∧ yielded tr = tr0.*2
      ∧ ∀ m st, tr0 !! m = Some st →
          ∃ d i' b' k' gm' w1,
            st.1 = Yield d
            ∧ P (S j + m) (Yield d) (AtYield i' b' k' gm') st.2 w1.
Proof.
  intros Hresume. induction n as [|n IH];
    intros j d0 i b k gm t0 w0 tr g' t' w' HP Hdrive Hfin.
  { injection Hdrive as <- <- <- <-. done. }
  cbn [drive] in Hdrive. rewrite next_at_yield in Hdrive.
  destruct (resume a i b k gm t0 w0) as [[[s1 fr1] t1] w1] eqn:Hres.
  pose proof (Hresume _ _ _ _ _ _ _ _ _ _ _ _ HP Hres) as HP1.
  apply resume_cases in Hres as (_ & _ & Hc).
  destruct Hc as [[-> Hs1]|(d & b1 & k1 & gm1 & -> & -> & _)].
  - assert (tr = [(s1, t1)] ∧ t' = t1 ∧ w' = w1) as (-> & -> & ->).
    { destruct s1; [by destruct (Hs1 metric_dict)| |];
        by injection Hdrive as <- <- <- <-. }
    exists [], s1. rewrite Nat.add_0_r. repeat split; try done.
    destruct s1; [by destruct (Hs1 metric_dict)|done|done].
  - destruct (drive n _ t1 w1) as [[[tr2 g2] t2] w2] eqn:Hdrive2.
    injection Hdrive as <- <- <- <-.
    destruct (IH _ _ _ _ _ _ _ _ _ _ _ _ HP1 Hdrive2 Hfin)
      as (tr0 & s & -> & Hs & HPfin & Hy & Hall).
    exists ((Yield d, t1) :: tr0), s. repeat split; try done.
    + simpl length. by rewrite <- Nat.add_succ_comm.
    + change (yielded ((Yield d, t1) :: tr0 ++ [(s, t2)]))
        with (t1 :: yielded (tr0 ++ [(s, t2)])).
      by rewrite Hy.
    + intros [|m] st Hst.
      * injection Hst as <-. rewrite Nat.add_0_r.
        by exists d, (i + 1)%Z, b1, k1, gm1, w1.
      * rewrite <- Nat.add_succ_comm. by apply Hall.
Qed.

(** The same for a full run of [train_model]. *)
Lemma train_run a t w
    (P : nat → signal → frame → GPTrainer → World → Prop) :
  (∀ s fr t' w', start a t w = (s, fr, t', w') → P 0%nat s fr t' w') →
  (∀ j d0 i b k gm t0 w0 s fr t' w',
     P j (Yield d0) (AtYield i b k gm) t0 w0 →
     resume a i b k gm t0 w0 = (s, fr, t', w') → P (S j) s fr t' w') →
  ∃ tr0 s,
    (train a t w).1.1.1 = tr0 ++ [(s, (train a t w).1.2)]
    ∧ (∀ d, s ≠ Yield d)
    ∧ P (length tr0) s Finished (train a t w).1.2 (train a t w).2
    ∧ yielded (train a t w).1.1.1 = tr0.*2
    ∧ ∀ m st, tr0 !! m = Some st →
        ∃ d i b k gm w1,
          st.1 = Yield d ∧ P m (Yield d) (AtYield i b k gm) st.2 w1.
Proof.
  intros Hstart Hresume. pose proof (train_finishes a t w) as Hfin.
  rewrite train_unfold, next_created in *.
  destruct (start a t w) as [[[s1 fr1] t1] w1] eqn:Hst.
  pose proof (Hstart _ _ _ _ eq_refl) as HP0.
  apply start_cases in Hst as (_ & _ & _ & _ & Hc).
  destruct Hc as [[-> Hs1]|(d & b1 & k1 & gm1 & -> & -> & _)].
  - exists [], s1.
    destruct s1; [by destruct (Hs1 metric_dict)| |]; by repeat split.
  - destruct (drive _ _ t1 w1) as [[[tr2 g2] t2] w2] eqn:Hdrive2.
    cbn [fst snd] in *.
    destruct (drive_run a P Hresume _ _ _ _ _ _ _ _ _ _ _ _ _ HP0 Hdrive2 Hfin)
      as (tr0 & s & -> & Hs & HPfin & Hy & Hall).
    exists ((Yield d, t1) :: tr0), s. repeat split; try done.
    + change (yielded ((Yield d, t1) :: tr0 ++ [(s, t2)]))
        with (t1 :: yielded (tr0 ++ [(s, t2)])).
      by rewrite Hy.
    + intros [|m] st Hst.
      * injection Hst as <-. by exists d, 0%Z, b1, k1, gm1, w1.
      * by apply Hall.
Qed.

End RunPrinciple.

Section StepCount.
Context {F : Type} `{Float64 F} `{Backend F}.
Implicit Types (a : @TrainArgs F) (t : @GPTrainer F _) (w : @World F _)
  (gm : @GPMetrics F) (g : @generator F) (fr : @frame F) (s : @signal F).

Lemma set_metrics_metrics t : set_metrics t (metrics t) = t.
Proof. by destruct t. Qed.

Lemma stepped_set_metrics t m :
  stepped (set_metrics t m) = set_metrics (stepped t) m.
Proof.
  unfold stepped, optimize_cycle, set_metrics. simpl.
  by destruct (adam_step _ _ _ _ _) as [l [[amp ls] opt]].
Qed.

(** One more optimizer step on a trainer that is [n] steps from [t]. *)
Lemma stepped_after (n : nat) t t0 m :
  t0 = set_metrics (Nat.iter n stepped t) (metrics t0) →
  set_metrics (stepped t0) m = set_metrics (Nat.iter (S n) stepped t) m.
Proof. intros ->. simpl. by rewrite stepped_set_metrics. Qed.

Lemma wrap_int32_small (z : Z) :
  (- 2 ^ 31 ≤ z < 2 ^ 31)%Z → wrap_int32 z = z.
Proof. intros Hz. unfold wrap_int32. rewrite Z.mod_small; lia. Qed.

(** Without overflow of the [int32] counter, [n] steps add [n] to it. *)
Lemma training_steps_iter (n : nat) t :
  (- 2 ^ 31 ≤ training_steps t)%Z →
  (training_steps t + Z.of_nat n < 2 ^ 31)%Z →
  training_steps (Nat.iter n stepped t) = (training_steps t + Z.of_nat n)%Z.
Proof.
  intros Hlo. induction n as [|n IH]; intros Hhi; simpl Nat.iter; [lia|].
  rewrite training_steps_stepped, IH by lia. rewrite wrap_int32_small; lia.
Qed.

(** X5.  The optimizer steps of a run are counted by its yields: the
    trainer at the yield number j (from 0) is j + 1 steps of
    [optimize_cycle] from the start, apart from its metrics; there are never
    more yields than [epochs]; and when the run ends by [StopIteration] the
    final trainer is as many steps from the start as there were yields, and
    short of overflow the counter [training_steps] has advanced by that
    number. *)
Theorem train_model_step_count a t w :
  let tr := (train a t w).1.1.1 in
  let k := length (yielded tr) in
  (∀ (j : nat) tj, yielded tr !! j = Some tj →
     tj = set_metrics (Nat.iter (S j) stepped t) (metrics tj))
  ∧ (Z.of_nat k ≤ Z.max 0 (epochs a))%Z
  ∧ (ended_normally tr = true →
     (train a t w).1.2
     = set_metrics (Nat.iter k stepped t) (metrics (train a t w).1.2)
     ∧ ((- 2 ^ 31 ≤ training_steps t)%Z →
        (training_steps t + Z.max 0 (epochs a) < 2 ^ 31)%Z →
        training_steps (train a t w).1.2
        = (training_steps t + Z.of_nat k)%Z)).
Proof.
  set (P := fun (j : nat) s fr t' (w' : World) =>
              t' = set_metrics (Nat.iter (steps_of j s) stepped t) (metrics t')
              ∧ (Z.of_nat (steps_of j s) ≤ Z.max 0 (epochs a))%Z
              ∧ match fr with
                | AtYield i _ _ _ => i = Z.of_nat j
                | _ => True
                end).
  assert (∀ (j : nat) i b k gm t0 w0 s fr t' w',
            t0 = set_metrics (Nat.iter j stepped t) (metrics t0) →
            (Z.of_nat j ≤ Z.max 0 (epochs a))%Z →
            i = Z.of_nat j →
            iteration a i b k gm t0 w0 = (s, fr, t', w') →
            P j s fr t' w') as Hiter.
  { intros j i b k gm t0 w0 s fr t' w' Ht0 Hj Hi Hit.
    apply iteration_outcome in Hit as [[_ Hf]|(Hlt & _ & Hcases)].
    - apply finish_saved in Hf as (-> & -> & -> & _). by repeat split.
    - assert (Z.of_nat (S j) ≤ Z.max 0 (epochs a))%Z by lia.
      destruct Hcases as [(e & _ & -> & -> & ->) | (d & m & _ & -> & [(e & _ & -> & ->) | (_ & -> & ->)])];
        (split; [|by split]); simpl steps_of.
      + rewrite <- (set_metrics_metrics (stepped t0)) at 1.
        rewrite metrics_stepped. by apply stepped_after.
      + by apply stepped_after.
      + by apply stepped_after. }
  destruct (train_run a t w P)
    as (tr0 & s & Htr & Hs & (Ht' & Hk & _) & Hy & Hall).
  - intros s fr t' w' Hst.
    destruct (start_shape a t w) as (w0 & Hst0 & _). rewrite Hst0 in Hst.
    apply (Hiter 0%nat) in Hst; [done| |lia|done].
    simpl. by rewrite set_metrics_metrics.
  - intros j d0 i b k gm t0 w0 s fr t' w' (Ht0 & Hj & Hi) Hres.
    simpl in Ht0, Hj.
    destruct (resume_shape a i b k gm t0 w0)
      as (b' & k' & w1 & [Hres1|[Hres1 ->]] & _); rewrite Hres1 in Hres.
    + apply (Hiter (S j)) in Hres; [done | done | done | lia].
    + apply finish_saved in Hres as (-> & -> & -> & _). by repeat split.
  - cbn zeta. rewrite Hy, Htr, ended_normally_snoc, length_fmap.
    split; [|split].
    + intros j tj Hj. rewrite list_lookup_fmap in Hj.
      destruct (tr0 !! j) as [st|] eqn:Hst; [|done]. injection Hj as <-.
      destruct (Hall _ _ Hst) as (d & ? & ? & ? & ? & w1 & _ & Hj & _). done.
    + destruct s; simpl in Hk; lia.
    + intros Hend. destruct s; try done. simpl in Ht', Hk.
      split; [done|]. intros Hlo Hhi. rewrite Ht'.
      change (training_steps (set_metrics ?x _)) with (training_steps x).
      apply training_steps_iter; lia.
Qed.

End StepCount.

(* ================================================================== *)
(** * More on the generator: the metrics of an epoch *)

Lemma metric_key_of_name (name : string) (key : metric_key) :
  metric_key_of name = Some key ↔ name = metric_name key.
Proof.
  split; [|intros ->; by destruct key].
  unfold metric_key_of.
  destruct (String.eqb_spec name "nll") as [->|?]; [by intros [= <-]|].
  destruct (String.eqb_spec name "mae") as [->|?]; [by intros [= <-]|].
  destruct (String.eqb_spec name "sharpness") as [->|?]; [by intros [= <-]|].
  destruct (String.eqb_spec name "variation") as [->|?]; [by intros [= <-]|].
  destruct (String.eqb_spec name "calibration_err") as [->|?];
    [by intros [= <-]|].
  done.
Qed.

Lemma metric_key_of_inj (k1 k2 : string) (key : metric_key) :
  metric_key_of k1 = Some key → metric_key_of k2 = Some key → k1 = k2.
Proof. rewrite !metric_key_of_name. congruence. Qed.

Lemma metrics_get_assign_same {F : Type} (m : Metrics F) (k : metric_key) (x : F) :
  metrics_get (metrics_assign m k x) k = x.
Proof. by destruct k. Qed.

Lemma metrics_get_assign_other {F : Type} (m : Metrics F) (k k' : metric_key)
    (x : F) :
  k ≠ k' → metrics_get (metrics_assign m k x) k' = metrics_get m k'.
Proof. by destruct k, k'. Qed.

Lemma dict_set_absent {V : Type} (d : list (string * V)) (k : string) (v : V) :
  k ∉ d.*1 → dict_set d k v = d ++ [(k, v)].
Proof.
  induction d as [|[k0 x] d IH]; simpl; [done|].
  intros Hnot. apply not_elem_of_cons in Hnot as [Hne Hnot].
  destruct (String.eqb_spec k0 k) as [->|_]; [done|]. by rewrite IH.
Qed.

Lemma dict_set_NoDup {V : Type} (d : list (string * V)) (k : string) (v : V) :
  NoDup d.*1 → NoDup (dict_set d k v).*1.
Proof.
  induction d as [|[k0 x] d IH]; simpl.
  - intros _. apply NoDup_singleton.
  - intros [Hnot Hd]%NoDup_cons.
    destruct (String.eqb_spec k0 k) as [->|Hne]; simpl.
    + by apply NoDup_cons.
    + apply NoDup_cons. split; [|by apply IH].
      rewrite dict_set_keys. naive_solver.
Qed.

Section DictFacts.
Context {F : Type} `{Float64 F} `{Backend F}.
Implicit Types (a : @TrainArgs F) (t : @GPTrainer F _) (w : @World F _)
  (gm : @GPMetrics F) (d : list (string * @pyval F)) (m : Metrics F).

(** The dictionary comprehension, when it raises nothing: one item for each
    requested name, holding the value of that attribute. *)
Lemma metric_dict_from_items a t gm names d0 d :
  metric_dict_from a t gm names d0 = Ok d →
  (NoDup d0.*1 → NoDup d.*1)
  ∧ (∀ k, k ∈ d.*1 ↔ k ∈ names ∨ k ∈ d0.*1)
  ∧ (∀ k v, (k, v) ∈ d →
            (k ∈ names ∧ gp_metrics_getattr a t gm k = Ok v) ∨ (k, v) ∈ d0).
Proof.
  revert d0. induction names as [|name names IH]; intros d0; simpl.
  { intros [= <-]. split; [done|]. split; [set_solver | auto]. }
  destruct (gp_metrics_getattr a t gm name) as [v0|e] eqn:Hget;
    [|by destruct e].
  intros Hd. apply IH in Hd as (Hnodup & Hkeys & Hitems).
  split; [|split].
  - intros Hd0. by apply Hnodup, dict_set_NoDup.
  - intros k. rewrite Hkeys, dict_set_keys. set_solver.
  - intros k v Hin. destruct (Hitems k v Hin) as [[Hk Hv]|Hk].
    + left. split; [set_solver | done].
    + apply elem_of_dict_set in Hk as [Hk|[= -> ->]]; [by right|].
      left. split; [set_solver | done].
Qed.

(** The assignments write the keys the dictionary names, and no other. *)
Lemma assign_metrics_other d m m' (o : option exn) (key : metric_key) :
  assign_metrics d m = (m', o) →
  (∀ k, k ∈ d.*1 → metric_key_of k ≠ Some key) →
  metrics_get m' key = metrics_get m key.
Proof.
  revert m. induction d as [|[k v] d IH]; intros m; simpl.
  { by intros [= <- _]. }
  intros Hassign Hkeys.
  destruct (metric_key_of k) as [key0|] eqn:Hkey;
    [|by injection Hassign as <- _].
  destruct v as [x| | |]; try by injection Hassign as <- _.
  apply IH in Hassign; [|set_solver]. rewrite Hassign.
  apply metrics_get_assign_other. intros ->. apply (Hkeys k); set_solver.
Qed.

Lemma assign_metrics_items d m m' :
  assign_metrics d m = (m', None) →
  NoDup d.*1 →
  ∀ k v, (k, v) ∈ d →
         ∃ key, metric_key_of k = Some key
                ∧ v = PFloat (metrics_get m' key).
Proof.
  revert m. induction d as [|[k0 v0] d IH]; intros m; simpl.
  { intros _ _ k v Hin. by apply elem_of_nil in Hin. }
  intros Hassign [Hnot Hnodup]%NoDup_cons k v Hin.
  destruct (metric_key_of k0) as [key0|] eqn:Hkey; [|done].
  destruct v0 as [x| | |]; try done.
  apply elem_of_cons in Hin as [[= -> ->]|Hin]; [|by eapply IH].
  exists key0. split; [done|]. f_equal.
  rewrite (assign_metrics_other _ _ _ _ key0 Hassign).
  - by rewrite metrics_get_assign_same.
  - intros k' Hk' Hkey'. apply Hnot.
    by rewrite (metric_key_of_inj _ _ _ Hkey Hkey').
Qed.

(** An epoch that yields: the dictionary holds, for each requested name,
    the value of that property, which is also what the trainer's metric of
    that name now stores; the loss comes last. *)
Lemma iteration_yield_items a i b k gm t w d fr t' w' :
  iteration a i b k gm t w = (Yield d, fr, t', w') →
  let names := read_list w (metrics_arg a) in
  let gm' := refresh a (stepped t) names gm in
  fr = AtYield i b k gm' ∧ w' = w
  ∧ t' = set_metrics (stepped t) (metrics t')
  ∧ ∃ d0, d = d0 ++ [("loss", PFloat (loss t'))]
          ∧ NoDup d0.*1
          ∧ (∀ name, name ∈ d0.*1 ↔ name ∈ names)
          ∧ ∀ name v, (name, v) ∈ d0 →
              ∃ key, metric_key_of name = Some key
                     ∧ v = PFloat (metrics_get (metrics t') key)
                     ∧ gp_metrics_getattr a (stepped t) gm' name = Ok v.
Proof.
  intros Hit names gm'.
  apply iteration_outcome in Hit as [[_ Hf]|(_ & -> & Hcases)].
  { by apply finish_saved in Hf as ([=] & _). }
  destruct Hcases as [(e & _ & [=] & _) | (d0 & m & Hd0 & -> & [(e & _ & [=] & _) | (Hassign & [= ->] & ->)])].
  apply metric_dict_from_items in Hd0 as (Hnodup & Hkeys & Hitems).
  specialize (Hnodup (NoDup_nil_2 (A:=string))).
  repeat split; try done.
  exists d0. split; [|split; [done|split]].
  - apply dict_set_absent. intros Hin.
    apply list_elem_of_fmap in Hin as ([k0 v0] & Hk0 & Hin). simpl in Hk0.
    subst k0.
    by destruct (assign_metrics_items _ _ _ Hassign Hnodup _ _ Hin)
      as (key & [=] & _).
  - intros name. rewrite Hkeys. set_solver.
  - intros name v Hin.
    destruct (assign_metrics_items _ _ _ Hassign Hnodup _ _ Hin)
      as (key & Hkey & ->).
    exists key. split; [done|]. split; [done|].
    destruct (Hitems _ _ Hin) as [[_ Hv]|Hnil]; [done|].
    by apply elem_of_nil in Hnil.
Qed.

End DictFacts.

Lemma intersects_elem (s : gset string) (names : list string) (x : string) :
  x ∈ s → x ∈ names → intersects s names = true.
Proof.
  intros Hs Hn. apply bool_decide_eq_true_2.
  assert (x ∈ s ∩ list_to_set names) as Hx; [|set_solver].
  apply elem_of_intersection. split; [done|]. by apply elem_of_list_to_set.
Qed.

Section YieldFacts.
Context {F : Type} `{Float64 F} `{Backend F}.
Implicit Types (a : @TrainArgs F) (t : @GPTrainer F _) (w : @World F _)
  (gm : @GPMetrics F) (g : @generator F) (fr : @frame F) (s : @signal F)
  (d : list (string * @pyval F)).

Lemma read_list_lists w w' (l : loc) :
  lists w' = lists w → read_list w' l = read_list w l.
Proof. unfold read_list. by intros ->. Qed.

Lemma model_mean_kernel t t' (m : Gprm) :
  kernel t = kernel t' → model_mean t m = model_mean t' m.
Proof.
  destruct t, t'. unfold kernel, model_mean. simpl.
  by intros [= -> -> -> -> _].
Qed.

Lemma model_stddev_kernel t t' (m : Gprm) :
  kernel t = kernel t' → model_stddev t m = model_stddev t' m.
Proof.
  destruct t, t'. unfold kernel, model_stddev. simpl.
  by intros [= -> -> -> -> _].
Qed.

Lemma refresh_mean a t names gm :
  gm_mean (refresh a t names gm)
  = if intersects REQUIRES_MEAN names then model_mean t (gm_gprm a)
    else gm_mean gm.
Proof.
  unfold refresh.
  by destruct (intersects REQUIRES_MEAN names),
              (intersects REQUIRES_STDDEV names).
Qed.

Lemma refresh_stddevs a t names gm :
  gm_stddevs (refresh a t names gm)
  = if intersects REQUIRES_STDDEV names then model_stddev t (gm_gprm a)
    else gm_stddevs gm.
Proof.
  unfold refresh.
  by destruct (intersects REQUIRES_MEAN names),
              (intersects REQUIRES_STDDEV names).
Qed.

(** Induction over the epochs that yield.  [J] is an invariant of the
    [GPMetrics] object and the trainer at the head of the loop, [Q] what is
    to hold of every yielded dictionary and the trainer then; the list of
    metric names is the one the first [next] left. *)
Lemma train_epochs a t w (J : GPMetrics → GPTrainer → Prop)
    (Q : list (string * pyval) → GPTrainer → Prop) :
  J (GPMetrics_init a t) t →
  (∀ i b k gm t0 w0 d fr t' w',
     J gm t0 →
     read_list w0 (metrics_arg a) = names_at_start a t w →
     iteration a i b k gm t0 w0 = (Yield d, fr, t', w') →
     Q d t'
     ∧ J (refresh a (stepped t0) (names_at_start a t w) gm) t') →
  Forall (fun st => match st.1 with Yield d => Q d st.2 | _ => True end)
         (train a t w).1.1.1.
Proof.
  intros Hbase Hstep.
  set (P := fun (j : nat) s fr t' (w' : World) =>
              read_list w' (metrics_arg a) = names_at_start a t w
              ∧ match s, fr with
                | Yield d, AtYield _ _ _ gm => Q d t' ∧ J gm t'
                | _, _ => True
                end).
  assert (∀ i b k gm t0 w0 s fr t' w',
            J gm t0 →
            read_list w0 (metrics_arg a) = names_at_start a t w →
            iteration a i b k gm t0 w0 = (s, fr, t', w') →
            P 0%nat s fr t' w') as Hiter.
  { intros i b k gm t0 w0 s fr t' w' HJ Hnames Hit. split.
    - apply iteration_cases in Hit as (Hl & _).
      by rewrite (read_list_lists _ _ _ Hl).
    - destruct s as [d| |]; [|by destruct fr..].
      pose proof Hit as Hitems.
      apply iteration_yield_items in Hitems as (-> & _ & _).
      rewrite Hnames. by eapply Hstep. }
  destruct (train_run a t w (fun _ => P 0%nat))
    as (tr0 & s & Htr & Hs & _ & _ & Hall).
  - intros s fr t' w' Hst.
    destruct (start_shape a t w) as (w0 & Hst0 & Hnames & _).
    rewrite Hst0 in Hst. by eapply Hiter.
  - intros _ d0 i b k gm t0 w0 s fr t' w' [Hnames [_ HJ]] Hres.
    destruct (resume_shape a i b k gm t0 w0)
      as (b' & k' & w1 & [Hres1|[Hres1 ->]] & Hl & _); rewrite Hres1 in Hres.
    + eapply Hiter; [done| |done]. by rewrite (read_list_lists _ _ _ Hl).
    + apply finish_saved in Hres as (-> & -> & -> & Hl' & _).
      split; [|done]. by rewrite (read_list_lists _ _ _ Hl').
  - rewrite Htr. apply Forall_app. split.
    + apply Forall_lookup. intros m st Hst.
      destruct (Hall _ _ Hst) as (d & ? & ? & ? & ? & w1 & -> & _ & HQ & _).
      done.
    + apply Forall_singleton. simpl. destruct s; [by destruct (Hs metric_dict)|done..].
Qed.

(** X6.  What [train_model] yields is what the trainer stores: every yielded
    dictionary has one item for each requested name (once, however often
    the name was listed), its value the float that the trainer's metric of
    that name holds at that moment, followed by the loss of the trainer. *)
Theorem train_model_yields_stored_metrics a t w :
  Forall (fun st =>
            match st.1 with
            | Yield d =>
                ∃ d0, d = d0 ++ [("loss", PFloat (loss st.2))]
                      ∧ NoDup d0.*1
                      ∧ (∀ name, name ∈ d0.*1 ↔ name ∈ names_at_start a t w)
                      ∧ ∀ name v, (name, v) ∈ d0 →
                          ∃ key, metric_key_of name = Some key
                                 ∧ v = PFloat (metrics_get (metrics st.2) key)
            | _ => True
            end) (train a t w).1.1.1.
Proof.
  apply (train_epochs a t w (fun _ _ => True)
           (fun d tj =>
              ∃ d0, d = d0 ++ [("loss", PFloat (loss tj))]
                    ∧ NoDup d0.*1
                    ∧ (∀ name, name ∈ d0.*1 ↔ name ∈ names_at_start a t w)
                    ∧ ∀ name v, (name, v) ∈ d0 →
                        ∃ key, metric_key_of name = Some key
                               ∧ v = PFloat (metrics_get (metrics tj) key)));
    [done|].
  intros i b k gm t0 w0 d fr t' w' _ Hnames Hit. split; [|done].
  apply iteration_yield_items in Hit as (_ & _ & _ & d0 & -> & Hnodup & Hkeys & Hitems).
  exists d0. rewrite <- Hnames. repeat split; try done; try apply Hkeys.
  intros name v Hin. destruct (Hitems _ _ Hin) as (key & ? & ? & _).
  by exists key.
Qed.

(** X7.  Which predictions each stored metric is computed from.  At every yield
    the NLL, the MAE, the sharpness and the variation that were requested
    are those of the model at the trainer's current hyperparameters.  The
    calibration error is computed from the current mean, but from the
    current standard deviations only when ["sharpness"] or ["variation"] is
    requested too: otherwise from the standard deviations predicted before
    the first optimizer step. *)
Theorem train_model_metric_inputs a t w :
  let names := names_at_start a t w in
  Forall (fun st =>
            match st.1 with
            | Yield _ =>
                let tj := st.2 in
                ("nll" ∈ names → val_nll (metrics tj) = nll a tj)
                ∧ ("mae" ∈ names →
                   mae (model_mean tj (gm_gprm a)) (val_obs a)
                   = Ok (val_mae (metrics tj)))
                ∧ ("sharpness" ∈ names →
                   val_sharpness (metrics tj)
                   = sharpness (model_stddev tj (gm_gprm a)))
                ∧ ("variation" ∈ names →
                   val_coeff_var (metrics tj)
                   = variation (model_stddev tj (gm_gprm a)))
                ∧ ("calibration_err" ∈ names →
                   calibration_err norm_quantile
                     (model_mean tj (gm_gprm a)) (val_obs a)
                     (model_stddev
                        (if intersects REQUIRES_STDDEV names then tj else t)
                        (gm_gprm a))
                   = Ok (val_cal_err (metrics tj)))
            | _ => True
            end) (train a t w).1.1.1.
Proof.
  intros names.
  apply (train_epochs a t w
           (fun gm _ => intersects REQUIRES_STDDEV names = false →
                        gm_stddevs gm = model_stddev t (gm_gprm a))
           (fun _ tj =>
              ("nll" ∈ names → val_nll (metrics tj) = nll a tj)
              ∧ ("mae" ∈ names →
                 mae (model_mean tj (gm_gprm a)) (val_obs a)
                 = Ok (val_mae (metrics tj)))
              ∧ ("sharpness" ∈ names →
                 val_sharpness (metrics tj)
                 = sharpness (model_stddev tj (gm_gprm a)))
              ∧ ("variation" ∈ names →
                 val_coeff_var (metrics tj)
                 = variation (model_stddev tj (gm_gprm a)))
              ∧ ("calibration_err" ∈ names →
                 calibration_err norm_quantile
                   (model_mean tj (gm_gprm a)) (val_obs a)
                   (model_stddev
                      (if intersects REQUIRES_STDDEV names then tj else t)
                      (gm_gprm a))
                 = Ok (val_cal_err (metrics tj))))); [done|].
  intros i b k gm t0 w0 d fr t' w' HJ Hnames Hit.
  fold names in Hnames |- *.
  apply iteration_yield_items in Hit as (_ & _ & Ht' & d0 & _ & _ & Hkeys & Hitems).
  rewrite Hnames in Hkeys, Hitems.
  set (gm' := refresh a (stepped t0) names gm) in *.
  assert (kernel t' = kernel (stepped t0)) as Hk by (by rewrite Ht').
  assert (∀ name, name ∈ names →
            ∃ key, metric_key_of name = Some key
                   ∧ gp_metrics_getattr a (stepped t0) gm' name
                     = Ok (PFloat (metrics_get (metrics t') key))) as Hget.
  { intros name Hin. apply Hkeys in Hin.
    apply list_elem_of_fmap in Hin as ([k0 v] & -> & Hin).
    destruct (Hitems _ _ Hin) as (key & Hkey & -> & Hv). by exists key. }
  assert (gm_stddevs gm'
          = model_stddev (if intersects REQUIRES_STDDEV names then t' else t)
                         (gm_gprm a)) as Hstd.
  { unfold gm'. rewrite refresh_stddevs.
    destruct (intersects REQUIRES_STDDEV names) eqn:Hint.
    - symmetry. by apply model_stddev_kernel.
    - by apply HJ. }
  split; [|intros Hint; by rewrite Hstd, Hint].
  split; [|split; [|split; [|split]]]; intros Hin;
    destruct (Hget _ Hin) as (key & [= <-] & Hv); simpl in Hv.
  - injection Hv as <-. symmetry. by apply nll_kernel.
  - unfold gp_metrics_getattr in Hv. simpl in Hv.
    unfold gm' in Hv. rewrite refresh_mean in Hv.
    rewrite (intersects_elem REQUIRES_MEAN names "mae") in Hv by (done || set_solver).
    rewrite (model_mean_kernel _ _ _ Hk).
    destruct (mae _ _) as [x|e]; [|done]. by injection Hv as <-.
  - unfold gp_metrics_getattr in Hv. simpl in Hv. injection Hv as <-.
    rewrite Hstd.
    by rewrite (intersects_elem REQUIRES_STDDEV names "sharpness")
      by (done || set_solver).
  - unfold gp_metrics_getattr in Hv. simpl in Hv. injection Hv as <-.
    rewrite Hstd.
    by rewrite (intersects_elem REQUIRES_STDDEV names "variation")
      by (done || set_solver).
  - unfold gp_metrics_getattr in Hv. simpl in Hv.
    rewrite Hstd in Hv. unfold gm' in Hv. rewrite refresh_mean in Hv.
    rewrite (intersects_elem REQUIRES_MEAN names "calibration_err") in Hv
      by (done || set_solver).
    rewrite (model_mean_kernel _ _ _ Hk).
    destruct (calibration_err _ _ _ _) as [x|e]; [|done].
    by injection Hv as <-.
Qed.

End YieldFacts.

(* ================================================================== *)
(** * More on the generator: whole runs *)

Section RunFacts.
Context {F : Type} `{Float64 F} `{Backend F}.
Implicit Types (a : @TrainArgs F) (t : @GPTrainer F _) (w : @World F _)
  (gm : @GPMetrics F) (g : @generator F) (fr : @frame F) (s : @signal F)
  (d : list (string * @pyval F)).

(** One epoch leaves alone the metrics whose names are not requested,
    however it ends. *)
Lemma iteration_other_metrics a i b k gm t w s fr t' w' (key : metric_key) :
  metric_name key ∉ read_list w (metrics_arg a) →
  iteration a i b k gm t w = (s, fr, t', w') →
  metrics_get (metrics t') key = metrics_get (metrics t) key.
Proof.
  intros Hnot Hit.
  apply iteration_outcome in Hit as [[_ Hf]|(_ & _ & Hcases)].
  { by apply finish_saved in Hf as (_ & _ & -> & _). }
  assert (∀ d m o,
            metric_dict_from a (stepped t)
              (refresh a (stepped t) (read_list w (metrics_arg a)) gm)
              (read_list w (metrics_arg a)) [] = Ok d →
            assign_metrics d (metrics (stepped t)) = (m, o) →
            metrics_get m key = metrics_get (metrics t) key) as Hassign.
  { intros d m o Hd Hm.
    apply metric_dict_from_items in Hd as (_ & Hkeys & _).
    rewrite (assign_metrics_other _ _ _ _ key Hm), metrics_stepped; [done|].
    intros name Hin ->%metric_key_of_name. apply Hkeys in Hin. set_solver. }
  destruct Hcases as [(e & _ & _ & _ & ->) | (d & m & Hd & -> & [(e & Hm & _) | (Hm & _)])].
  - by rewrite metrics_stepped.
  - by eapply Hassign.
  - by eapply Hassign.
Qed.

(** X8.  A metric that is not requested keeps, through the whole run and however
    it ends, the value it had before: the trainer stores (and a checkpoint
    saves) for it what construction or a restored checkpoint put there. *)
Theorem train_model_keeps_other_metrics a t w (key : metric_key) :
  metric_name key ∉ names_at_start a t w →
  metrics_get (metrics (train a t w).1.2) key = metrics_get (metrics t) key
  ∧ Forall (fun tj => metrics_get (metrics tj) key = metrics_get (metrics t) key)
           (yielded (train a t w).1.1.1).
Proof.
  intros Hnot.
  set (P := fun (j : nat) s fr t' (w' : World) =>
              read_list w' (metrics_arg a) = names_at_start a t w
              ∧ metrics_get (metrics t') key = metrics_get (metrics t) key).
  assert (∀ i b k gm t0 w0 s fr t' w',
            read_list w0 (metrics_arg a) = names_at_start a t w →
            metrics_get (metrics t0) key = metrics_get (metrics t) key →
            iteration a i b k gm t0 w0 = (s, fr, t', w') →
            P 0%nat s fr t' w') as Hiter.
  { intros i b k gm t0 w0 s fr t' w' Hnames Hkey Hit. split.
    - apply iteration_cases in Hit as (Hl & _).
      by rewrite (read_list_lists _ _ _ Hl).
    - rewrite <- Hkey. eapply iteration_other_metrics; [|done].
      by rewrite Hnames. }
  destruct (train_run a t w (fun _ => P 0%nat))
    as (tr0 & s & Htr & Hs & [_ Hfinal] & Hy & Hall).
  - intros s fr t' w' Hst.
    destruct (start_shape a t w) as (w0 & Hst0 & Hnames & _).
    rewrite Hst0 in Hst. by eapply Hiter.
  - intros _ d0 i b k gm t0 w0 s fr t' w' [Hnames Hkey] Hres.
    destruct (resume_shape a i b k gm t0 w0)
      as (b' & k' & w1 & [Hres1|[Hres1 ->]] & Hl & _); rewrite Hres1 in Hres.
    + eapply Hiter; [|done..]. by rewrite (read_list_lists _ _ _ Hl).
    + apply finish_saved in Hres as (-> & -> & -> & Hl' & _).
      split; [|done]. by rewrite (read_list_lists _ _ _ Hl').
  - split; [done|]. rewrite Hy. apply Forall_fmap, Forall_lookup.
    intros m st Hst.
    by destruct (Hall _ _ Hst) as (d & ? & ? & ? & ? & w1 & _ & _ & Hkey).
Qed.

(** Without a truthy [patience] the loop is never left by [break]. *)
Lemma resume_no_patience a i b k gm t w :
  truthy_int (patience a) = false →
  ∃ b' k' w0,
    resume a i b k gm t w = iteration a (i + 1) b' k' gm t w0
    ∧ lists w0 = lists w.
Proof.
  intros Hp. unfold resume. rewrite Hp. simpl.
  destruct (has_ckpt_manager t); [|by eexists _, _, _].
  destruct (f_ltb _ _).
  - eexists _, _, _. split; [done|]. by destruct (ckpt_manager t).
  - assert (match patience a with
            | Some p => negb (p =? 0)%Z && (p <=? k + 1)%Z
            | None => false
            end = false) as ->.
    { destruct (patience a) as [p|]; [|done]. simpl in Hp. by rewrite Hp. }
    by eexists _, _, _.
Qed.

(** X9.  Only a truthy [patience] stops a run early: without one, a run
    that ends by [StopIteration] has yielded once for each of its [epochs],
    with or without a checkpoint manager. *)
Theorem train_model_stops_early_only_by_patience a t w :
  ended_normally (train a t w).1.1.1 = true →
  truthy_int (patience a) = false →
  length (yielded (train a t w).1.1.1) = Z.to_nat (epochs a).
Proof.
  intros Hend Hp.
  set (P := fun (j : nat) s fr (t' : GPTrainer) (w' : World) =>
              match fr with
              | AtYield i _ _ _ => i = Z.of_nat j ∧ (i < epochs a)%Z
              | Finished => s = StopIteration → j = Z.to_nat (epochs a)
              | Created => True
              end).
  assert (∀ (j : nat) b k gm t0 w0 s fr t' w',
            (Z.of_nat j ≤ Z.max 0 (epochs a))%Z →
            iteration a (Z.of_nat j) b k gm t0 w0 = (s, fr, t', w') →
            P j s fr t' w') as Hiter.
  { intros j b k gm t0 w0 s fr t' w' Hj Hit.
    apply iteration_outcome in Hit as [[Hge Hf]|(Hlt & _ & Hcases)].
    - apply finish_saved in Hf as (-> & -> & _). intros _. lia.
    - destruct Hcases as [(e & _ & -> & -> & _) | (d & m & _ & _ & [(e & _ & -> & ->) | (_ & -> & ->)])];
        done. }
  destruct (train_run a t w P) as (tr0 & s & Htr & Hs & Hfinal & Hy & _).
  - intros s fr t' w' Hst.
    destruct (start_shape a t w) as (w0 & Hst0 & _). rewrite Hst0 in Hst.
    change 0%Z with (Z.of_nat 0) in Hst. eapply Hiter; [lia | exact Hst].
  - intros j d0 i b k gm t0 w0 s fr t' w' [-> Hi] Hres.
    destruct (resume_no_patience a (Z.of_nat j) b k gm t0 w0 Hp)
      as (b2 & k2 & w2 & Hres2 & _).
    rewrite Hres2 in Hres.
    replace (Z.of_nat j + 1)%Z with (Z.of_nat (S j)) in Hres by lia.
    eapply Hiter; [lia | exact Hres].
  - rewrite Htr, ended_normally_snoc in Hend.
    rewrite Hy, length_fmap. apply Hfinal. by destruct s.
Qed.

(** X10.  What a run writes outside the trainer's variables: the list of
    the metric names, the checkpoint directory of the trainer's manager and
    the directory [save_dir].  A list that is not the one of the metric
    names is as before, and at a path that is neither the manager's
    directory nor [save_dir] there is the checkpoint, and the saved model,
    that was there before; the trainer keeps its manager and its training
    data. *)
Theorem train_model_footprint a t w (l : loc) (dir : string) :
  l ≠ metrics_arg a →
  ckpt_manager t ≠ Some dir →
  save_dir a ≠ Some dir →
  read_list (train a t w).2 l = read_list w l
  ∧ checkpoints (train a t w).2 !! dir = checkpoints w !! dir
  ∧ saved_models (train a t w).2 !! dir = saved_models w !! dir
  ∧ ckpt_manager (train a t w).1.2 = ckpt_manager t
  ∧ observation_index_points (train a t w).1.2 = observation_index_points t
  ∧ observations (train a t w).1.2 = observations t.
Proof.
  intros Hl Hdir Hsave. split; [by apply train_lists|].
  set (P := fun (j : nat) s fr t' (w' : World) =>
              checkpoints w' !! dir = checkpoints w !! dir
              ∧ saved_models w' !! dir = saved_models w !! dir
              ∧ ckpt_manager t' = ckpt_manager t
              ∧ observation_index_points t' = observation_index_points t
              ∧ observations t' = observations t).
  assert (∀ t0 w0 s fr t' w',
            finish a t0 w0 = (s, fr, t', w') →
            t' = t0 ∧ checkpoints w' = checkpoints w0
            ∧ saved_models w' !! dir = saved_models w0 !! dir) as Hfinish.
  { intros t0 w0 s fr t' w' Hf.
    apply finish_saved in Hf as (_ & _ & -> & _ & Hck & ->).
    split; [done|]. split; [done|].
    destruct (save_dir a) as [d|] eqn:Hd; [|done]. simpl.
    destruct (negb _); [|done].
    rewrite lookup_insert_ne; [done | congruence]. }
  assert (∀ i b k gm t0 w0 s fr t' w',
            P 0%nat s fr t0 w0 →
            iteration a i b k gm t0 w0 = (s, fr, t', w') →
            P 0%nat s fr t' w') as Hiter.
  { intros i b k gm t0 w0 s fr t' w' (Hck & Hsv & Hm & Hx & Hy) Hit.
    pose proof Hit as Hout.
    apply iteration_cases in Hit as (_ & Hck' & Hm' & Hcases).
    split; [congruence|].
    split.
    { apply iteration_outcome in Hout as [[_ Hf]|(_ & -> & _)]; [|done].
      apply Hfinish in Hf as (_ & _ & Hsv'). congruence. }
    split; [congruence|].
    destruct Hcases as [(_ & _ & _ & ->) | (_ & _ & Hk & _)]; [done|].
    destruct (data_stepped t0) as [Hx0 Hy0].
    unfold kernel in Hk. injection Hk as Hx1 Hy1 _ _ _. split; congruence. }
  destruct (train_run a t w (fun _ => P 0%nat))
    as (tr0 & s & _ & _ & HP & _);
    [| |by destruct HP as (? & ? & ? & ? & ?)].
  - intros s fr t' w' Hst.
    destruct (start_shape a t w) as (w0 & Hst0 & _ & _ & Hsv & Hck).
    rewrite Hst0 in Hst. eapply Hiter; [|done].
    split; [by rewrite Hck|]. split; [by rewrite Hsv | done].
  - intros _ d0 i b k gm t0 w0 s fr t' w' (Hck & Hsv & Hm & Hx & Hy) Hres.
    destruct (resume_shape a i b k gm t0 w0)
      as (b' & k' & w1 & [Hres1|[Hres1 ->]] & _ & Hsv1 & Hck1);
      rewrite Hres1 in Hres.
    + eapply Hiter; [|done]. repeat split; try done.
      * rewrite Hck1; [done | congruence].
      * by rewrite Hsv1.
    + apply Hfinish in Hres as (-> & Hck' & Hsv').
      repeat split; try done; congruence.
Qed.

End RunFacts.

(** Four epochs with [metrics=["sharpness"]] on the toy instance: the MAE
    stored in the trainer is never written. *)
Lemma train_model_keeps_other_metrics_witness :
  metrics_get (metrics (train Toy.args_sharpness Toy.trainer Toy.world).1.2)
              KMae
  = metrics_get (metrics Toy.trainer) KMae.
Proof.
  destruct (train_model_keeps_other_metrics Toy.args_sharpness Toy.trainer
              Toy.world KMae) as [Hfinal _]; [|exact Hfinal].
  vm_compute. intros Hin. apply list_elem_of_singleton in Hin. discriminate.
Defined.

(** Four epochs with [metrics=["sharpness"]] and no patience: four
    yields. *)
Lemma train_model_stops_early_only_by_patience_witness :
  length (yielded (train Toy.args_sharpness Toy.trainer Toy.world).1.1.1)
  = 4%nat.
Proof.
  apply (train_model_stops_early_only_by_patience Toy.args_sharpness
           Toy.trainer Toy.world); reflexivity.
Defined.

(** A run with the checkpoint directory ["ckpts"] and no [save_dir] writes
    nothing at the path ["other"], nor to the caller's list 1. *)
Lemma train_model_footprint_witness :
  read_list (train Toy.args_patience3 Toy.trainer_ckpt Toy.world).2 1%nat
  = read_list Toy.world 1%nat
  ∧ checkpoints (train Toy.args_patience3 Toy.trainer_ckpt Toy.world).2
      !! "other"
    = checkpoints Toy.world !! "other"
  ∧ saved_models (train Toy.args_patience3 Toy.trainer_ckpt Toy.world).2
      !! "other"
    = saved_models Toy.world !! "other".
Proof.
  destruct (train_model_footprint Toy.args_patience3 Toy.trainer_ckpt
              Toy.world 1%nat "other") as (Hl & Hc & Hs & _).
  - discriminate.
  - discriminate.
  - discriminate.
  - split; [exact Hl | split; [exact Hc | exact Hs]].
Defined.

(* ================================================================== *)
(** * More on the generator: patience *)

Section PatienceFacts.
Context {F : Type} `{Float64 F} `{Backend F}.
Implicit Types (a : @TrainArgs F) (t : @GPTrainer F _) (w : @World F _)
  (gm : @GPMetrics F) (g : @generator F) (fr : @frame F) (s : @signal F)
  (d : list (string * @pyval F)).

Lemma metric_dict_from_patience a p t gm names d :
  metric_dict_from (with_patience a p) t gm names d
  = metric_dict_from a t gm names d.
Proof.
  revert d. induction names as [|name names IH]; intros d; [done|].
  simpl. change (gp_metrics_getattr (with_patience a p) t gm name)
    with (gp_metrics_getattr a t gm name).
  destruct (gp_metrics_getattr a t gm name); [apply IH | done].
Qed.

Lemma iteration_patience a p i b k gm t w :
  iteration (with_patience a p) i b k gm t w = iteration a i b k gm t w.
Proof.
  unfold iteration. rewrite metric_dict_from_patience. done.
Qed.

(** With a patience of 1 or of 2 the [yield] is followed by the same steps:
    the next epoch after an improvement, the [break] otherwise. *)
Lemma resume_patience_1_2 a (p : Z) i b gm t w :
  p = 1%Z ∨ p = 2%Z →
  resume (with_patience a (Some p)) i b 1 gm t w
  = if f_ltb (val_nll (metrics t)) b
    then iteration a (i + 1) (val_nll (metrics t)) 1 gm t
           (match ckpt_manager t with
            | Some dir => save_checkpoint w dir t
            | None => w
            end)
    else finish a t w.
Proof.
  intros Hp. unfold resume.
  assert (truthy_int (patience (with_patience a (Some p))) = true) as ->.
  { by destruct Hp as [-> | ->]. }
  simpl orb. cbn iota.
  destruct (f_ltb _ _); [apply iteration_patience|].
  assert (match patience (with_patience a (Some p)) with
          | Some p0 => negb (p0 =? 0)%Z && (p0 <=? 1 + 1)%Z
          | None => false
          end = true) as ->; [by destruct Hp as [-> | ->]|done].
Qed.

Lemma drive_patience_1_2 a (n : nat) i b gm t w :
  let r1 := drive n (mk_generator (with_patience a (Some 1%Z))
                                  (AtYield i b 1 gm)) t w in
  let r2 := drive n (mk_generator (with_patience a (Some 2%Z))
                                  (AtYield i b 1 gm)) t w in
  r1.1.1.1 = r2.1.1.1 ∧ r1.1.2 = r2.1.2 ∧ r1.2 = r2.2.
Proof.
  revert i b gm t w. induction n as [|n IH]; intros i b gm t w; [done|].
  cbn zeta. cbn [drive]. rewrite !next_at_yield.
  rewrite !resume_patience_1_2 by auto.
  destruct (f_ltb _ _).
  - destruct (iteration a _ _ _ _ _ _) as [[[s fr] t1] w1] eqn:Hit.
    apply iteration_outcome in Hit as [[_ Hf]|(_ & _ & Hcases)].
    + by apply finish_saved in Hf as (-> & _).
    + destruct Hcases as [(e & _ & -> & _) | (d & m & _ & _ & [(e & _ & -> & _) | (_ & -> & ->)])];
        [done | done |].
      specialize (IH (i + 1)%Z (val_nll (metrics t))
                     (refresh a (stepped t)
                        (read_list
                           match ckpt_manager t with
                           | Some dir => save_checkpoint w dir t
                           | None => w
                           end (metrics_arg a)) gm) t1 w1).
      cbn zeta in IH.
      destruct (drive n (mk_generator (with_patience a (Some 1%Z)) _) t1 w1)
        as [[[tr1 g1] t1'] w1'].
      destruct (drive n (mk_generator (with_patience a (Some 2%Z)) _) t1 w1)
        as [[[tr2 g2] t2'] w2'].
      simpl in *. destruct IH as (-> & -> & ->). done.
  - destruct (finish a t w) as [[[s fr] t1] w1] eqn:Hf.
    by apply finish_saved in Hf as (-> & _).
Qed.

(** X11.  A patience of 1 and a patience of 2 are the same: either way the run
    stops at the first epoch whose validation NLL does not improve on the
    best before it, since the counter of steps since the improvement starts
    at 1 and is compared after it was incremented.  The two runs yield the
    same dictionaries and leave the same trainer and the same files. *)
Theorem patience_1_is_patience_2 a t w :
  (train (with_patience a (Some 1%Z)) t w).1.1.1
  = (train (with_patience a (Some 2%Z)) t w).1.1.1
  ∧ (train (with_patience a (Some 1%Z)) t w).1.2
    = (train (with_patience a (Some 2%Z)) t w).1.2
  ∧ (train (with_patience a (Some 1%Z)) t w).2
    = (train (with_patience a (Some 2%Z)) t w).2.
Proof.
  rewrite !train_unfold, !next_created.
  assert (start (with_patience a (Some 1%Z)) t w
          = start (with_patience a (Some 2%Z)) t w) as Hstart.
  { unfold start. by rewrite !iteration_patience. }
  rewrite <- Hstart.
  destruct (start _ t w) as [[[s fr] t1] w1] eqn:Hst.
  unfold start in Hst. rewrite iteration_patience in Hst.
  apply iteration_outcome in Hst as [[_ Hf]|(_ & _ & Hcases)].
  { by apply finish_saved in Hf as (-> & _). }
  destruct Hcases as [(e & _ & -> & _) | (d & m & _ & _ & [(e & _ & -> & _) | (_ & -> & ->)])];
    [done | done |].
  simpl epochs.
  match goal with
  | |- context [drive ?n (mk_generator (with_patience a (Some 1%Z))
                                        (AtYield ?i ?b 1 ?gm)) t1 w1] =>
      pose proof (drive_patience_1_2 a n i b gm t1 w1) as Hd
  end.
  cbn zeta in Hd.
  destruct (drive _ (mk_generator (with_patience a (Some 1%Z)) _) t1 w1)
    as [[[tr1 g1] t1'] w1'].
  destruct (drive _ (mk_generator (with_patience a (Some 2%Z)) _) t1 w1)
    as [[[tr2 g2] t2'] w2'].
  simpl in *. destruct Hd as (-> & -> & ->). done.
Qed.

End PatienceFacts.

(* ================================================================== *)
(** * More on the metrics *)

Lemma zip_with_fin (op : xreal → xreal → xreal) (rop : R → R → R)
    (a b : list R) :
  (∀ x y, op (XFin x) (XFin y) = XFin (rop x y)) →
  zip_with op (map XFin a) (map XFin b) = map XFin (zip_with rop a b).
Proof.
  intros Hop. revert b. induction a as [|x a IH]; intros [|y b]; simpl;
    [done..|]. by rewrite Hop, IH.
Qed.

Lemma Rsum_scale (c : R) (l : list R) :
  Rsum (map (Rmult c) l) = (c * Rsum l)%R.
Proof. induction l as [|x l IH]; simpl; [lra | rewrite IH; lra]. Qed.

Lemma Rmean_scale (c : R) (l : list R) :
  Rmean (map (Rmult c) l) = (c * Rmean l)%R.
Proof. unfold Rmean. rewrite Rsum_scale, length_map. lra. Qed.

Lemma Rsum_sq_scale (c : R) (l : list R) :
  Rsum_sq (map (Rmult c) l) = (c * c * Rsum_sq l)%R.
Proof.
  unfold Rsum_sq. induction l as [|x l IH]; simpl; [lra | rewrite IH; lra].
Qed.

Lemma Rsum_sq_dev_scale (c : R) (l : list R) :
  Rsum_sq_dev (map (Rmult c) l) = (c * c * Rsum_sq_dev l)%R.
Proof.
  unfold Rsum_sq_dev. rewrite Rmean_scale, <- Rsum_sq_scale, !map_map.
  f_equal. apply map_ext. intros x. lra.
Qed.

Lemma sqrt_scale (c x : R) :
  (0 <= c)%R → (0 <= x)%R → sqrt (c * c * x) = (c * sqrt x)%R.
Proof.
  intros Hc Hx. rewrite sqrt_mult by nra. by rewrite sqrt_square.
Qed.

Lemma Rsum_sq_dev_nonneg (l : list R) : (0 <= Rsum_sq_dev l)%R.
Proof. apply Rsum_sq_nonneg. Qed.

(** The sum of the squared deviations from any centre. *)
Lemma Rsum_sq_shift (c : R) (l : list R) :
  Rsum_sq (map (fun x => (x - c)%R) l)
  = (Rsum_sq l - 2 * c * Rsum l + INR (length l) * (c * c))%R.
Proof.
  unfold Rsum_sq. induction l as [|x l IH].
  - simpl. lra.
  - rewrite !map_cons. cbn [Rsum fold_right length]. fold (Rsum l).
    fold (Rsum (map (fun x => (x * x)%R) (map (fun x => (x - c)%R) l))).
    fold (Rsum (map (fun x => (x * x)%R) l)).
    rewrite IH, S_INR. lra.
Qed.

(** The mean of the squares is the square of the mean plus the mean squared
    deviation. *)
Lemma mean_square_decomposition (l : list R) :
  l ≠ [] →
  (Rsum_sq l / INR (length l)
   = Rmean l * Rmean l + Rsum_sq_dev l / INR (length l))%R.
Proof.
  intros Hl. pose proof (INR_length_pos l Hl) as Hn.
  unfold Rsum_sq_dev. rewrite Rsum_sq_shift. unfold Rmean. field. lra.
Qed.

(** X12.  Changing the unit of the standard deviations by a factor c > 0 scales
    the sharpness by c and leaves the variation as it is, in every case
    (also where the variation is infinite or NaN). *)
Theorem sharpness_variation_scaling (c : R) (l : list R) :
  (0 < c)%R →
  l ≠ [] →
  sharpness (map XFin (map (Rmult c) l))
  = f_mul (XFin c) (sharpness (map XFin l))
  ∧ variation (map XFin (map (Rmult c) l)) = variation (map XFin l).
Proof.
  intros Hc Hl.
  assert (map (Rmult c) l ≠ []) as Hcl by (by destruct l).
  split.
  - rewrite !sharpness_fin by done. simpl f_mul. f_equal.
    unfold Rrms. rewrite Rsum_sq_scale, length_map.
    pose proof (INR_length_pos l Hl) as Hn.
    pose proof (Rsum_sq_nonneg l) as Hs.
    replace (c * c * Rsum_sq l / INR (length l))%R
      with (c * c * (Rsum_sq l / INR (length l)))%R by (field; lra).
    apply sqrt_scale; [lra|].
    apply Rmult_le_pos; [done|]. left. by apply Rinv_0_lt_compat.
  - rewrite !variation_fin by done.
    rewrite Rsum_sq_dev_scale, Rmean_scale, length_map.
    rewrite sqrt_scale by (lra || apply Rsum_sq_dev_nonneg).
    set (A := sqrt (Rsum_sq_dev l)).
    set (B := (Rmean l * (INR (length l) - 1))%R).
    replace (c * Rmean l * (INR (length l) - 1))%R with (c * B)%R
      by (unfold B; lra).
    unfold x_div, Rzero_b, Rneg_b.
    destruct (Req_dec_T B 0) as [HB|HB].
    + destruct (Req_dec_T (c * B) 0) as [_|?]; [|nra].
      destruct (Req_dec_T A 0) as [HA|HA].
      * destruct (Req_dec_T (c * A) 0) as [_|?]; [done | nra].
      * destruct (Req_dec_T (c * A) 0) as [?|_]; [nra|].
        destruct (Rlt_dec (c * A) 0), (Rlt_dec A 0); (done || nra).
    + destruct (Req_dec_T (c * B) 0) as [?|_]; [nra|].
      f_equal. field. split; [done | lra].
Qed.

(** X13.  Sharpness, mean and variation are tied: the squared sharpness is the
    squared mean plus the mean squared deviation; so the sharpness is never
    below the mean, and wherever the variation is a finite number v, the
    squared sharpness is mean² × (1 + (N − 1)² v² / N). *)
Theorem sharpness_mean_variation (l : list R) :
  l ≠ [] →
  sharpness (map XFin l)
  = XFin (sqrt (Rmean l * Rmean l + Rsum_sq_dev l / INR (length l)))
  ∧ f_leb (np_mean (map XFin l)) (sharpness (map XFin l)) = true
  ∧ ∀ v : R,
      variation (map XFin l) = XFin v →
      (Rrms l * Rrms l
       = Rmean l * Rmean l
         * (1 + (INR (length l) - 1) * (INR (length l) - 1) * (v * v)
                / INR (length l)))%R.
Proof.
  intros Hl. pose proof (INR_length_pos l Hl) as Hn.
  pose proof (mean_square_decomposition l Hl) as Hdec.
  pose proof (Rsum_sq_dev_nonneg l) as Hdev.
  assert (0 <= Rsum_sq_dev l / INR (length l))%R as Hq.
  { apply Rmult_le_pos; [done|]. left. by apply Rinv_0_lt_compat. }
  rewrite sharpness_fin, np_mean_fin by done. unfold Rrms.
  rewrite Hdec. split; [done|]. split.
  - apply x_leb_fin.
    destruct (Rle_dec 0 (Rmean l)) as [Hm|Hm].
    + rewrite <- (sqrt_square (Rmean l)) at 1 by done.
      apply sqrt_le_1_alt. lra.
    + pose proof (sqrt_pos (Rmean l * Rmean l
                            + Rsum_sq_dev l / INR (length l))). lra.
  - intros v Hv. rewrite variation_fin in Hv by done.
    rewrite sqrt_sqrt by nra.
    unfold x_div, Rzero_b in Hv.
    destruct (Req_dec_T (Rmean l * (INR (length l) - 1)) 0) as [?|Hd].
    { by destruct (Req_dec_T _ _). }
    injection Hv as <-.
    assert (Rmean l ≠ 0 ∧ INR (length l) - 1 ≠ 0)%R as [Hm Hn1].
    { split; intros Hz; apply Hd; rewrite Hz; lra. }
    assert (sqrt (Rsum_sq_dev l) * sqrt (Rsum_sq_dev l) = Rsum_sq_dev l)%R
      as Hsq by (by apply sqrt_sqrt).
    set (D := Rsum_sq_dev l) in *. set (S := sqrt D) in *.
    replace (S / (Rmean l * (INR (length l) - 1))
             * (S / (Rmean l * (INR (length l) - 1))))%R
      with (S * S / (Rmean l * Rmean l
                     * ((INR (length l) - 1) * (INR (length l) - 1))))%R
      by (field; done).
    rewrite Hsq. field. repeat split; lra.
Qed.

Lemma map_abs_fin (l : list R) :
  map f_abs (map XFin l) = map XFin (map Rabs l).
Proof. rewrite !map_map. done. Qed.

Lemma Rsum_abs_nonneg (a b : list R) :
  Forall (fun x => (0 <= x)%R) (zip_with (fun x y => Rabs (x - y)) a b).
Proof.
  revert b. induction a as [|x a IH]; intros [|y b]; simpl;
    try constructor; [apply Rabs_pos | apply IH].
Qed.

Lemma zip_abs_diff_zero (a b : list R) :
  length a = length b →
  Forall (fun x => x = 0%R) (zip_with (fun x y => Rabs (x - y)) a b) →
  a = b.
Proof.
  revert b. induction a as [|x a IH]; intros [|y b]; simpl; try done.
  intros [= Hlen] [Hxy Hall]%Forall_cons. f_equal; [|by apply IH].
  destruct (Req_dec_T (x - y) 0) as [?|Hne]; [lra|].
  apply Rabs_no_R0 in Hne. lra.
Qed.

Lemma zip_abs_diff_comm (a b : list R) :
  zip_with (fun x y => Rabs (x - y)) a b
  = zip_with (fun x y => Rabs (x - y)) b a.
Proof.
  revert b. induction a as [|x a IH]; intros [|y b]; simpl; try done.
  by rewrite IH, Rabs_minus_sym.
Qed.

(** X14.  In exact arithmetic, for as many finite predictions as observations
    (at least one): the MAE is the mean of the absolute differences; it is
    not negative, it is zero exactly when every prediction equals its
    observation, and it does not depend on which of the two is called the
    prediction. *)
Theorem mae_exact (mean val_obs : list R) :
  length mean = length val_obs →
  val_obs ≠ [] →
  mae (map XFin mean) (map XFin val_obs)
  = Ok (XFin (Rmean_abs_diff mean val_obs))
  ∧ (0 <= Rmean_abs_diff mean val_obs)%R
  ∧ (Rmean_abs_diff mean val_obs = 0%R ↔ mean = val_obs)
  ∧ mae (map XFin val_obs) (map XFin mean)
    = mae (map XFin mean) (map XFin val_obs).
Proof.
  intros Hlen Hne.
  assert (mean ≠ []) as Hm by (destruct mean, val_obs; done).
  assert (∀ a b : list R, length a = length b → a ≠ [] →
            mae (map XFin a) (map XFin b)
            = Ok (XFin (Rmean_abs_diff a b))) as Hmae.
  { intros a b Hab Ha. unfold mae.
    rewrite np_broadcast_same by (by rewrite !length_map).
    change (Ok (np_mean (map f_abs (zip_with f_sub (map XFin a) (map XFin b))))
            = Ok (XFin (Rmean_abs_diff a b))).
    rewrite (zip_with_fin _ (fun x y => (x + - y)%R)) by done.
    rewrite map_abs_fin, np_mean_fin.
    - unfold Rmean_abs_diff. do 3 f_equal.
      clear. revert b. induction a as [|x a IH]; intros [|y b]; simpl;
        try done. by rewrite IH.
    - destruct a, b; done. }
  pose proof (INR_length_pos _ Hm) as Hn.
  assert (length (zip_with (fun x y => Rabs (x - y)) mean val_obs)
          = length mean) as Hzl by (rewrite length_zip_with; lia).
  pose proof (Rsum_abs_nonneg mean val_obs) as Hnn.
  split; [by apply Hmae|]. split; [|split].
  - unfold Rmean_abs_diff, Rmean. rewrite Hzl.
    apply Rmult_le_pos; [by apply Rsum_nonneg|].
    left. by apply Rinv_0_lt_compat.
  - unfold Rmean_abs_diff, Rmean. rewrite Hzl. split.
    + intros Hz. apply zip_abs_diff_zero; [done|].
      apply Rsum_zero_nonneg; [done|].
      apply (Rmult_eq_compat_r (INR (length mean))) in Hz.
      unfold Rdiv in Hz. rewrite Rmult_assoc, Rinv_l in Hz by lra. lra.
    + intros <-. rewrite Rsum_all_zero; [lra|].
      clear. induction mean as [|x l IH]; simpl; constructor; [|done].
      rewrite Rminus_diag. apply Rabs_R0.
  - rewrite !Hmae by done. unfold Rmean_abs_diff.
    by rewrite zip_abs_diff_comm.
Qed.

(** Standard deviations 1 and 3 in another unit, 2 and 6. *)
Lemma sharpness_variation_scaling_witness :
  variation (map XFin (map (Rmult 2) [1; 3]%R))
  = variation (map XFin [1; 3]%R).
Proof.
  destruct (sharpness_variation_scaling 2 [1; 3]%R) as [_ Hv];
    [lra | discriminate | exact Hv].
Defined.

Lemma sharpness_mean_variation_witness :
  f_leb (np_mean (map XFin [1; 3]%R)) (sharpness (map XFin [1; 3]%R)) = true.
Proof.
  destruct (sharpness_mean_variation [1; 3]%R) as (_ & Hle & _);
    [discriminate | exact Hle].
Defined.

(** Predictions 1 and 2 for the observations 1 and 4. *)
Lemma mae_exact_witness :
  mae (map XFin [1; 2]%R) (map XFin [1; 4]%R)
  = Ok (XFin (Rmean_abs_diff [1; 2]%R [1; 4]%R)).
Proof.
  destruct (mae_exact [1; 2]%R [1; 4]%R) as (Hmae & _);
    [reflexivity | discriminate | exact Hmae].
Defined.

Lemma x_leb_trans (x y z : xreal) :
  x_leb x y = true → x_leb y z = true → x_leb x z = true.
Proof.
  destruct x as [|[]|a], y as [|[]|b], z as [|[]|c]; simpl; try done.
  destruct (Rle_dec a b), (Rle_dec b c), (Rle_dec a c); (done || lra).
Qed.

Lemma length_filter_le {A : Type} (P : A → Prop) `{∀ x, Decision (P x)}
    (l : list A) :
  (length (filter P l) ≤ length l)%nat.
Proof.
  induction l as [|x l IH]; [done|]. rewrite filter_cons.
  destruct (decide (P x)); simpl; lia.
Qed.

Lemma length_filter_mono {A : Type} (P Q : A → Prop)
    `{∀ x, Decision (P x)} `{∀ x, Decision (Q x)} (l : list A) :
  (∀ x, P x → Q x) →
  (length (filter P l) ≤ length (filter Q l))%nat.
Proof.
  intros HPQ. induction l as [|x l IH]; [done|]. rewrite !filter_cons.
  destruct (decide (P x)) as [HP|HP], (decide (Q x)) as [HQ|HQ]; simpl;
    try lia. destruct HQ. by apply HPQ.
Qed.

Lemma Rfraction_bounds (values : list xreal) (bound : xreal) :
  values ≠ [] → (0 <= Rfraction values bound <= 1)%R.
Proof.
  intros Hne. pose proof (INR_length_pos values Hne) as Hn.
  pose proof (length_filter_le (fun r => f_leb r bound = true) values) as Hle.
  apply le_INR in Hle. pose proof (pos_INR (length (filter (fun r => f_leb r bound = true) values))) as Hpos.
  unfold Rfraction. split.
  - apply Rmult_le_pos; [done|]. left. by apply Rinv_0_lt_compat.
  - apply (Rmult_le_reg_r (INR (length values))); [done|].
    unfold Rdiv. rewrite Rmult_assoc, Rinv_l by lra. lra.
Qed.

Lemma Rfraction_mono (values : list xreal) (b1 b2 : xreal) :
  values ≠ [] → f_leb b1 b2 = true →
  (Rfraction values b1 <= Rfraction values b2)%R.
Proof.
  intros Hne Hb. pose proof (INR_length_pos values Hne) as Hn.
  unfold Rfraction. apply Rmult_le_compat_r.
  - left. by apply Rinv_0_lt_compat.
  - apply le_INR, length_filter_mono. intros r Hr.
    by apply (x_leb_trans r b1 b2).
Qed.

Lemma empirical_fraction_fin (values : list xreal) (bound : xreal) :
  values ≠ [] →
  empirical_fraction values bound = XFin (Rfraction values bound).
Proof.
  intros Hne. unfold empirical_fraction, Rfraction.
  pose proof (INR_length_pos values Hne) as Hn.
  simpl f_div. simpl f_of_Z. rewrite <- !INR_IZR_INZ. unfold x_div.
  rewrite Rzero_b_false by lra. done.
Qed.

(** A sum of numbers between 0 and 1. *)
Lemma Rsum_unit_bounds (l : list R) :
  Forall (fun x => (0 <= x <= 1)%R) l → (0 <= Rsum l <= INR (length l))%R.
Proof.
  induction 1 as [|x l Hx _ IH]; [simpl; lra|].
  cbn [Rsum fold_right length]. fold (Rsum l). rewrite S_INR.
  simpl in Hx. destruct IH as [IH1 IH2], Hx as [Hx1 Hx2]. split; lra.
Qed.

Lemma sq_diff_unit (ps fs : list R) :
  Forall (fun x => (0 <= x <= 1)%R) ps →
  Forall (fun x => (0 <= x <= 1)%R) fs →
  Forall (fun x => (0 <= x <= 1)%R)
         (map (fun x => (x * x)%R) (zip_with (fun x y => (x + - y)%R) ps fs)).
Proof.
  intros Hps. revert fs. induction Hps as [|p ps Hp _ IH];
    intros fs Hfs; [constructor|].
  destruct Hfs as [|f fs Hf Hfs]; [constructor|].
  simpl in *. constructor; [|by apply IH].
  destruct Hp as [Hp1 Hp2], Hf as [Hf1 Hf2].
  assert (-1 <= p + - f)%R as Hd1 by lra.
  assert (p + - f <= 1)%R as Hd2 by lra.
  generalize dependent (p + - f)%R. intros d Hd1 Hd2.
  pose proof (Rle_0_sqr d) as Hsq. unfold Rsqr in Hsq.
  assert (0 <= (1 - d) * (1 + d))%R as Hprod
    by (apply Rmult_le_pos; lra).
  split; lra.
Qed.

Lemma levels_unit :
  Forall (fun x => (0 <= x <= 1)%R) (map (fun i => (INR i / 99)%R) (seq 0 100)).
Proof.
  apply Forall_map, Forall_forall. intros i Hi.
  apply elem_of_seq in Hi. simpl.
  assert (0 <= INR i <= 99)%R as Hb.
  { split; [apply pos_INR|].
    replace 99%R with (INR 99) by (rewrite INR_IZR_INZ; done).
    apply le_INR. lia. }
  lra.
Qed.

(** X15.  In exact arithmetic, for as many predictions and standard deviations
    as observations (at least one) and whatever their values (NaN and the
    infinities included): each observed fraction of [pis] is a number
    between 0 and 1, and the calibration error a number between 0 and 100;
    and with a quantile function that is monotone the observed fractions
    never decrease from one level to the next. *)
Theorem calibration_err_bounds (quantile : xreal → xreal)
    (mean val_obs stddevs : list xreal) :
  length mean = length val_obs →
  length stddevs = length val_obs →
  val_obs ≠ [] →
  ∃ (fs : list R) (c : R),
    pis quantile mean val_obs stddevs
    = Ok (np_linspace (f_of_Z 0) (f_of_Z 1) 100, map XFin fs)
    ∧ length fs = 100%nat
    ∧ Forall (fun f => (0 <= f <= 1)%R) fs
    ∧ calibration_err quantile mean val_obs stddevs = Ok (XFin c)
    ∧ (0 <= c <= 100)%R
    ∧ ((∀ p q, f_leb p q = true → f_leb (quantile p) (quantile q) = true) →
       ∀ (i j : nat) (fi fj : R),
         (i ≤ j)%nat → fs !! i = Some fi → fs !! j = Some fj → (fi <= fj)%R).
Proof.
  intros Hm Hs Hne.
  set (values := zip_with f_div (zip_with f_sub mean val_obs) stddevs).
  assert (values ≠ []) as Hvalues.
  { unfold values. destruct mean, val_obs, stddevs; done. }
  set (ps := map (fun i => (INR i / 99)%R) (seq 0 100)).
  set (fs := map (fun p => Rfraction values (quantile (XFin p))) ps).
  assert (pis quantile mean val_obs stddevs
          = Ok (map XFin ps, map XFin fs)) as Hpis.
  { rewrite pis_same_length by done. rewrite np_linspace_exact.
    unfold fs, ps. rewrite !map_map. do 2 f_equal.
    apply map_ext. intros i. by apply empirical_fraction_fin. }
  assert (length ps = 100%nat) as Hlps.
  { unfold ps. by rewrite length_map, length_seq. }
  assert (length fs = 100%nat) as Hlfs.
  { unfold fs. by rewrite length_map. }
  assert (Forall (fun f => (0 <= f <= 1)%R) fs) as Hfs.
  { apply Forall_map, Forall_forall. intros p _.
    by apply Rfraction_bounds. }
  pose proof (sq_diff_unit ps fs levels_unit Hfs) as Hsq.
  apply Rsum_unit_bounds in Hsq.
  rewrite length_map, length_zip_with, Hlps, Hlfs in Hsq.
  exists fs, (Rsum (map (fun x => (x * x)%R)
                        (zip_with (fun x y => (x + - y)%R) ps fs))).
  split; [by rewrite Hpis, np_linspace_exact|]. split; [done|].
  split; [done|]. split; [|split].
  - unfold calibration_err. rewrite Hpis.
    change (np_broadcast f_sub (map XFin ps) (map XFin fs)
            ≫= (fun d => Ok (np_sum (np_square d))) = Ok (XFin (Rsum (map (fun x => (x * x)%R)
                        (zip_with (fun x y => (x + - y)%R) ps fs))))).
    rewrite np_broadcast_same by (by rewrite !length_map, Hlps, Hlfs).
    rewrite (zip_with_fin _ (fun x y => (x + - y)%R)) by done.
    change (Ok (np_sum (np_square (map XFin (zip_with (fun x y => (x + - y)%R) ps fs))))
            = Ok (XFin (Rsum (map (fun x => (x * x)%R)
                        (zip_with (fun x y => (x + - y)%R) ps fs))))).
    by rewrite np_square_fin, np_sum_fin.
  - change (INR (100 `min` 100)) with (INR 100) in Hsq.
    rewrite INR_IZR_INZ in Hsq. change (Z.of_nat 100) with 100%Z in Hsq.
    done.
  - intros Hmono i j fi fj Hij Hi Hj.
    unfold fs, ps in Hi, Hj.
    rewrite !map_is_fmap, !list_lookup_fmap in Hi, Hj.
    destruct (seq 0 100 !! i) as [i'|] eqn:Hi'; [|done].
    destruct (seq 0 100 !! j) as [j'|] eqn:Hj'; [|done].
    apply lookup_seq in Hi' as [-> Hi'], Hj' as [-> Hj'].
    injection Hi as <-. injection Hj as <-.
    apply Rfraction_mono; [done|]. apply Hmono. apply x_leb_fin.
    apply le_INR in Hij. simpl. lra.
Qed.

(** One prediction, with the identity in the place of the quantile
    function. *)
Lemma calibration_err_bounds_witness :
  ∃ c : R,
    calibration_err (fun p : xreal => p) [XFin 1] [XFin 0] [XFin 1]
    = Ok (XFin c)
    ∧ (0 <= c <= 100)%R.
Proof.
  destruct (calibration_err_bounds (fun p : xreal => p)
              [XFin 1] [XFin 0] [XFin 1])
    as (fs & c & _ & _ & _ & Hc & Hb & _);
    [reflexivity | reflexivity | discriminate |].
  exists c. split; [exact Hc | exact Hb].
Defined.

(* ================================================================== *)
(** * Facts: data processing *)

Lemma Rmaximum_ge (x : R) (l : list R) :
  (x <= Rmaximum x l)%R ∧ Forall (fun y => (y <= Rmaximum x l)%R) l.
Proof.
  unfold Rmaximum. revert x. induction l as [|y l IH]; intros x; simpl.
  { split; [lra | constructor]. }
  destruct (IH (Rmax x y)) as [Hxy Hl].
  pose proof (Rmax_l x y). pose proof (Rmax_r x y).
  split; [lra|]. constructor; [lra | done].
Qed.

Lemma Rmaximum_in (x : R) (l : list R) : Rmaximum x l ∈ x :: l.
Proof.
  unfold Rmaximum. revert x. induction l as [|y l IH]; intros x; simpl.
  { set_solver. }
  specialize (IH (Rmax x y)).
  unfold Rmax in *. destruct (Rle_dec x y); set_solver.
Qed.

Lemma fold_np_maximum_fin (x : R) (l : list R) :
  fold_left np_maximum (map XFin l) (XFin x) = XFin (Rmaximum x l).
Proof.
  unfold Rmaximum. revert x. induction l as [|y l IH]; intros x; [done|].
  simpl. rewrite <- IH. f_equal. unfold np_maximum. simpl.
  unfold Rmax. destruct (Rlt_dec x y), (Rle_dec x y); (done || f_equal; lra).
Qed.

Lemma fold_py_max_fin (x : R) (l : list R) :
  fold_left (fun m y : xreal => if f_ltb m y then y else m) (map XFin l)
            (XFin x)
  = XFin (Rmaximum x l).
Proof.
  unfold Rmaximum. revert x. induction l as [|y l IH]; intros x; [done|].
  simpl. rewrite <- IH. f_equal.
  unfold Rmax. destruct (Rlt_dec x y), (Rle_dec x y); (done || f_equal; lra).
Qed.

Section DataProcessingFacts.
Context {Structure : Type}.

Section AnyFloat.
Context {F : Type} `{Float64 F}.
Variable get_concat_output : Structure → ndarray F.

Lemma result_map_ok {A B : Type} (f : A → result B) (l : list A) :
  (∃ ys, result_map f l = Ok ys) ↔ Forall (fun x => ∃ y, f x = Ok y) l.
Proof.
  induction l as [|x l IH]; simpl.
  { split; [constructor | by eexists]. }
  rewrite Forall_cons, <- IH. split.
  - intros [ys Hys]. destruct (f x) as [y|e]; [|done].
    split; [by eexists|]. simpl in Hys.
    destruct (result_map f l) as [ys'|e]; [by eexists | done].
  - intros [[y ->] [ys ->]]. by eexists.
Qed.

Lemma np_amax_ok (a : ndarray F) :
  (∃ y, np_amax a = Ok y) ↔ nd_data a ≠ [].
Proof.
  unfold np_amax. destruct (nd_data a) as [|x l].
  - split; [by intros [? ?] | done].
  - split; [done | by eexists].
Qed.

Lemma result_map_np_amax_error (l : list (ndarray F)) (e : exn) :
  result_map np_amax l = Raise e → ∃ msg, e = ValueError msg.
Proof.
  induction l as [|a l IH]; simpl; [done|].
  destruct (np_amax a) as [y|e0] eqn:Ha; simpl.
  - destruct (result_map np_amax l) as [ys|e'] eqn:Hl; simpl; [done|].
    intros [= <-]. by apply IH.
  - intros [= <-]. unfold np_amax in Ha.
    destruct (nd_data a); [|done]. injection Ha as <-. by eexists.
Qed.

(** X16.  Construction succeeds exactly when one of the two arguments is given
    and, for a training frame, when it has at least one row and no layer
    output is an empty array; every failure is a [ValueError]. *)
Theorem GPDataParser_init_succeeds (sf0 : option F)
    (training_df : option (list Structure)) :
  ((∃ p, GPDataParser_init get_concat_output sf0 training_df = Ok p)
   ↔ match sf0, training_df with
     | Some _, None => True
     | None, Some structures =>
         structures ≠ []
         ∧ Forall (fun st => nd_data (get_concat_output st) ≠ []) structures
     | _, _ => False
     end)
  ∧ ((∃ p, GPDataParser_init get_concat_output sf0 training_df = Ok p)
     ∨ ∃ msg, GPDataParser_init get_concat_output sf0 training_df
              = Raise (ValueError msg)).
Proof.
  unfold GPDataParser_init.
  destruct training_df as [structures|], sf0 as [sf0|];
    try (split; [split; [by intros [? ?] | done] | right; by eexists]).
  2:{ split; [split; [done | by eexists] | left; by eexists]. }
  unfold calc_scaling_factor, calc_layer_outs.
  assert (Forall (fun a => ∃ y, np_amax a = Ok y)
                 (map np_absolute (map np_squeeze
                                       (map get_concat_output structures)))
          ↔ Forall (fun st => nd_data (get_concat_output st) ≠ []) structures)
    as Hall.
  { rewrite !Forall_map. apply Forall_proper; [|done]. intros st.
    rewrite np_amax_ok. simpl. by destruct (nd_data (get_concat_output st)). }
  rewrite <- Hall, <- result_map_ok.
  destruct (result_map np_amax _) as [ms|e] eqn:Hms; simpl.
  - assert (length ms = length structures) as Hlen.
    { clear Hall. revert ms Hms.
      induction structures as [|st l IH]; simpl; intros ms.
      - by intros [= <-].
      - destruct (np_amax _); [|done]. simpl.
        destruct (result_map np_amax _) as [ms'|]; [|done].
        intros [= <-]. simpl. f_equal. by apply IH. }
    destruct ms as [|m ms]; simpl.
    + destruct structures; [|done].
      split; [split; [by intros [? ?] | by intros [? _]] | right; by eexists].
    + split; [|left; by eexists]. split; [|by eexists].
      intros _. split; [by destruct structures | by eexists].
  - apply result_map_np_amax_error in Hms as [msg ->].
    split; [|right; by eexists].
    split; [by intros [? ?] | by intros [_ [? ?]]].
Qed.

End AnyFloat.

End DataProcessingFacts.

Lemma Rabs_max_ge (l : list R) (r : R) : r ∈ l → (Rabs r <= Rabs_max l)%R.
Proof.
  unfold Rabs_max. destruct l as [|x l]; [by intros ?%elem_of_nil|].
  simpl. destruct (Rmaximum_ge (Rabs x) (map Rabs l)) as [Hx Hl].
  intros [->|Hin]%elem_of_cons; [done|].
  rewrite Forall_forall in Hl. apply Hl.
  rewrite map_is_fmap. by apply list_elem_of_fmap_2.
Qed.

Lemma Rabs_max_in (l : list R) : l ≠ [] → ∃ r, r ∈ l ∧ Rabs r = Rabs_max l.
Proof.
  unfold Rabs_max. destruct l as [|x l]; [done|]. intros _. simpl.
  pose proof (Rmaximum_in (Rabs x) (map Rabs l)) as Hin.
  apply elem_of_cons in Hin as [Hin|Hin].
  - exists x. split; [set_solver | done].
  - rewrite map_is_fmap in Hin.
    apply list_elem_of_fmap in Hin as (r & Hr & Hin).
    exists r. split; [set_solver | done].
Qed.

Section ExactFeatures.
Context {Structure : Type}.
Variable get_concat_output : Structure → ndarray xreal.
(** The layer outputs are finite numbers. *)
Variable features : Structure → list R.
Hypothesis features_finite :
  ∀ st, nd_data (get_concat_output st) = map XFin (features st).

Lemma np_amax_fin (st : Structure) :
  features st ≠ [] →
  np_amax (np_absolute (np_squeeze (get_concat_output st)))
  = Ok (XFin (Rabs_max (features st))).
Proof using features_finite.
  intros Hne. unfold np_amax, np_absolute, np_squeeze, Rabs_max. simpl.
  rewrite features_finite.
  destruct (features st) as [|x l]; [done|]. simpl.
  rewrite <- fold_np_maximum_fin. by rewrite !map_map.
Qed.

Lemma max_values_fin (structures : list Structure) :
  Forall (fun st => features st ≠ []) structures →
  result_map np_amax
    (map np_absolute (calc_layer_outs get_concat_output structures))
  = Ok (map XFin (map (fun st => Rabs_max (features st)) structures)).
Proof using features_finite.
  unfold calc_layer_outs.
  induction 1 as [|st l Hst _ IH]; [done|].
  simpl. rewrite np_amax_fin by done. simpl. by rewrite IH.
Qed.

(** X17.  The scaling factor is the greatest absolute value among the training
    features, and with it the features are scaled into [-1, 1]: in exact
    arithmetic, for a training frame of at least one row whose layer outputs
    are finite and not empty, construction succeeds; some training feature
    has the scaling factor as its absolute value and none a greater one;
    the stored training features are what [structures_to_input] returns
    for the training structures; when the factor is positive they all lie
    between −1 and 1, and when it is zero they are all NaN. *)
Theorem training_features_scaled (structures : list Structure) :
  structures ≠ [] →
  Forall (fun st => features st ≠ []) structures →
  ∃ (p : GPDataParser) (m : R),
    GPDataParser_init get_concat_output None (Some structures) = Ok p
    ∧ sf p = XFin m
    ∧ (∃ st r, st ∈ structures ∧ r ∈ features st ∧ Rabs r = m)
    ∧ (∀ st r, st ∈ structures → r ∈ features st → (Rabs r <= m)%R)
    ∧ training_data p
      = Some (structures, structures_to_input get_concat_output p structures)
    ∧ ∀ out x,
        out ∈ structures_to_input get_concat_output p structures →
        x ∈ nd_data out →
        if Rzero_b m then x = XNaN
        else ∃ y, x = XFin y ∧ (-1 <= y <= 1)%R.
Proof using features_finite.
  intros Hne Hall.
  destruct structures as [|st0 rest] eqn:Hs; [done|]. rewrite <- Hs in *.
  set (ms := map (fun st => Rabs_max (features st)) rest).
  set (m := Rmaximum (Rabs_max (features st0)) ms).
  assert (GPDataParser_init get_concat_output None (Some structures)
          = Ok (mk_parser (XFin m)
                  (Some (structures,
                         map (scale (XFin m))
                             (calc_layer_outs get_concat_output structures)))))
    as Hinit.
  { unfold GPDataParser_init, calc_scaling_factor.
    rewrite max_values_fin by done. rewrite Hs at 1.
    simpl. by rewrite fold_py_max_fin. }
  assert (∀ st r, st ∈ structures → r ∈ features st → (Rabs r <= m)%R)
    as Hbound.
  { intros st r Hst Hr. pose proof (Rabs_max_ge _ _ Hr) as Hle.
    destruct (Rmaximum_ge (Rabs_max (features st0)) ms) as [H0 Hms].
    fold m in H0, Hms. rewrite Hs in Hst.
    apply elem_of_cons in Hst as [->|Hst]; [lra|].
    rewrite Forall_forall in Hms.
    assert (Rabs_max (features st) ∈ ms) as Hin.
    { unfold ms. rewrite map_is_fmap.
      by apply (list_elem_of_fmap_2 (fun st => Rabs_max (features st))). }
    specialize (Hms _ Hin). simpl in Hms. lra. }
  eexists _, m. split; [exact Hinit|]. split; [done|]. split; [|split; [done|split; [done|]]].
  - assert (∃ st, st ∈ structures ∧ Rabs_max (features st) = m)
      as (st & Hst & Hm).
    { pose proof (Rmaximum_in (Rabs_max (features st0)) ms) as Hin.
      fold m in Hin. rewrite Hs.
      apply elem_of_cons in Hin as [Hin|Hin].
      - exists st0. split; [set_solver | done].
      - unfold ms in Hin. rewrite map_is_fmap in Hin.
        apply list_elem_of_fmap in Hin as (st & Hm & Hst).
        exists st. split; [set_solver | done]. }
    destruct (Rabs_max_in (features st)) as (r & Hr & Habs).
    { rewrite Forall_forall in Hall. by apply Hall. }
    exists st, r. repeat split; [done | done | congruence].
  - intros out x Hout Hx. unfold structures_to_input, calc_layer_outs in Hout.
    simpl in Hout. rewrite !map_is_fmap in Hout.
    apply list_elem_of_fmap in Hout as (a1 & -> & Hout).
    apply list_elem_of_fmap in Hout as (a2 & -> & Hout).
    apply list_elem_of_fmap in Hout as (st & -> & Hst).
    simpl in Hx. rewrite features_finite, !map_is_fmap in Hx.
    apply list_elem_of_fmap in Hx as (x1 & -> & Hx).
    apply list_elem_of_fmap in Hx as (r & -> & Hr).
    pose proof (Hbound st r Hst Hr) as Hle.
    pose proof (Rabs_pos r) as Hpos.
    simpl. unfold Rzero_b. destruct (Req_dec_T m 0) as [Hm|Hm].
    + assert (r = 0%R) as ->.
      { destruct (Req_dec_T r 0) as [?|Hr0]; [done|].
        apply Rabs_pos_lt in Hr0. lra. }
      by destruct (Req_dec_T 0 0).
    + eexists. split; [done|].
      assert (0 < m)%R as Hmpos by lra.
      assert (- m <= r <= m)%R as [Hlo Hhi].
      { unfold Rabs in Hle. destruct (Rcase_abs r); lra. }
      split; apply (Rmult_le_reg_r m); try done;
        unfold Rdiv; rewrite Rmult_assoc, Rinv_l by lra; lra.
Qed.

End ExactFeatures.

(** One training structure whose layer output is (3, −4): the scaling
    factor is 4. *)
Lemma training_features_scaled_witness :
  ∃ (p : GPDataParser) (m : R),
    GPDataParser_init
      (fun _ : unit => mk_ndarray [1; 1; 2]%Z [XFin 3; XFin (-4)])
      None (Some [tt]) = Ok p
    ∧ sf p = XFin m.
Proof.
  destruct (training_features_scaled
              (fun _ : unit => mk_ndarray [1; 1; 2]%Z [XFin 3; XFin (-4)])
              (fun _ => [3; -4]%R) (fun _ => eq_refl) [tt])
    as (p & m & Hinit & Hsf & _).
  - discriminate.
  - repeat constructor. discriminate.
  - exists p, m. split; [exact Hinit | exact Hsf].
Defined.
